(** * deep-anpr, gen2.py: synthetic number-plate sample generator

    A shallow embedding of the geometric core of [gen2.py] (the rotation
    composer, the affine transform planner, the plate code generator and
    the compositing step of [generate_im]) together with the properties
    stated about it.

    Conventions of the embedding.
    - Python floats are read as real numbers ([R]); the decimal literals of
      the source are kept as they are written.  [x ** 5.0] is the fifth
      power.  Division is the total division of [R]: a property that rests
      on a quotient states that its divisor is positive.
    - A [numpy.matrix] or two-dimensional [numpy.array] is a list of rows.
      The operators are the ones the source uses: [matmul] is the [*] of two
      [numpy.matrix] values, [scal] the product with a scalar, [ewise] the
      elementwise operators of [numpy.array].
    - The global random state is made explicit.  [make_affine_transform]
      receives the six numbers in [0,1) that the generators hand out, in the
      order in which the source asks for them; [generate_code] reads a
      stream of integer draws through a cursor.
    - Calls into OpenCV, PIL and the file system are parameters, taken to
      return. *)

From Stdlib Require Import String Ascii.
From Stdlib Require Import Reals Lra Lia List Bool Arith.
From Stdlib Require Import RNsatz.
From Stdlib Require Import ZArith DecimalString DecimalNat.
Import ListNotations.

Open Scope R_scope.

(** ** The numpy fragment *)

Module Np.

Definition matrix : Type := list (list R).

Fixpoint map2 {A B C : Type} (f : A -> B -> C) (u : list A) (v : list B)
  : list C :=
  match u, v with
  | x :: u', y :: v' => f x y :: map2 f u' v'
  | _, _ => []
  end.

Definition dot (u v : list R) : R := fold_right Rplus 0 (map2 Rmult u v).

Definition ncols (m : matrix) : nat :=
  match m with
  | [] => O
  | r :: _ => List.length r
  end.

Definition col (j : nat) (m : matrix) : list R := map (fun r => nth j r 0) m.

(** [m.T] *)
Definition transpose (m : matrix) : matrix :=
  map (fun j => col j m) (seq 0 (ncols m)).

(** [a * b] for two [numpy.matrix] values: the matrix product. *)
Definition matmul (a b : matrix) : matrix :=
  map (fun r => map (dot r) (transpose b)) a.

(** [k * m] and [m * k] for a scalar [k]. *)
Definition scal (k : R) (m : matrix) : matrix := map (map (Rmult k)) m.
Definition rscal (m : matrix) (k : R) : matrix :=
  map (map (fun x => x * k)) m.

(** Elementwise binary operators of arrays of one shape. *)
Definition ewise (f : R -> R -> R) (a b : matrix) : matrix :=
  map2 (map2 f) a b.

Definition madd : matrix -> matrix -> matrix := ewise Rplus.
Definition msub : matrix -> matrix -> matrix := ewise Rminus.
Definition mmul : matrix -> matrix -> matrix := ewise Rmult.
Definition mdiv : matrix -> matrix -> matrix := ewise Rdiv.

(** Elementwise unary operators ([m - k], [m / k], [m ** 5.0], [1.0 - m]). *)
Definition emap (f : R -> R) (m : matrix) : matrix := map (map f) m.

Definition fold1 (f : R -> R -> R) (l : list R) : R :=
  match l with
  | [] => 0
  | x :: l' => fold_left f l' x
  end.

(** [numpy.max(m, axis=1)] and [numpy.min(m, axis=1)]: one value per row,
    returned as a column. *)
Definition max_axis1 (m : matrix) : matrix :=
  map (fun r => fold1 Rmax r :: nil) m.
Definition min_axis1 (m : matrix) : matrix :=
  map (fun r => fold1 Rmin r :: nil) m.

(** [numpy.min(m)]: the least entry of the whole array. *)
Definition amin (m : matrix) : R := fold1 Rmin (concat m).

(** [m[:2, :2]] *)
Definition sub22 (m : matrix) : matrix := map (firstn 2) (firstn 2 m).

(** [numpy.hstack([a, b])] *)
Definition hstack (a b : matrix) : matrix := map2 (@app R) a b.

(** Comparisons of floats, as booleans. *)
Definition Rltb (x y : R) : bool := if Rlt_dec x y then true else false.
Definition Rgtb (x y : R) : bool := Rltb y x.

(** [numpy.any(m < k)] and [numpy.any(m > k)] *)
Definition any_lt (m : matrix) (k : R) : bool :=
  existsb (fun x => Rltb x k) (concat m).
Definition any_gt (m : matrix) (k : R) : bool :=
  existsb (fun x => Rgtb x k) (concat m).

(** The entry in row [i], column [j]. *)
Definition entry (m : matrix) (i j : nat) : R := nth j (nth i m []) 0.

End Np.

Import Np.

(** ** Rotation composer *)

Definition euler_to_mat (yaw pitch roll : R) : matrix :=
  (* Rotate about the Y-axis *)
  let c := cos yaw in
  let s := sin yaw in
  let M := [[  c; 0;  s];
            [  0; 1;  0];
            [ -s; 0;  c]] in
  (* Rotate about the X-axis *)
  let c := cos pitch in
  let s := sin pitch in
  let M := matmul [[ 1; 0;  0];
                   [ 0; c; -s];
                   [ 0; s;  c]] M in
  (* Rotate about the Z-axis *)
  let c := cos roll in
  let s := sin roll in
  let M := matmul [[ c; -s; 0];
                   [ s;  c; 0];
                   [ 0;  0; 1]] M in
  M.

(** *** What the specification calls a standard right-handed rotation

    These definitions follow the words of the specification, not the code:
    the right-handed rotation by [theta] about a unit axis [k] is given by
    Rodrigues' formula [I + sin theta K + (1 - cos theta) K^2], where [K] is
    the cross-product matrix of [k]. *)

Module RotationSpec.

Definition identity3 : matrix := [[1; 0; 0]; [0; 1; 0]; [0; 0; 1]].

Definition cross_matrix (k : R * R * R) : matrix :=
  let '(kx, ky, kz) := k in
  [[   0; - kz;   ky];
   [  kz;    0; - kx];
   [- ky;   kx;    0]].

Definition rotation_about (k : R * R * R) (theta : R) : matrix :=
  let K := cross_matrix k in
  madd (madd identity3 (scal (sin theta) K))
       (scal (1 - cos theta) (matmul K K)).

Definition Rx : R -> matrix := rotation_about (1, 0, 0).
Definition Ry : R -> matrix := rotation_about (0, 1, 0).
Definition Rz : R -> matrix := rotation_about (0, 0, 1).

(** Determinant of a 3x3 matrix, by expansion along the first row. *)
Definition det3 (m : matrix) : R :=
  entry m 0 0 * (entry m 1 1 * entry m 2 2 - entry m 1 2 * entry m 2 1)
  - entry m 0 1 * (entry m 1 0 * entry m 2 2 - entry m 1 2 * entry m 2 0)
  + entry m 0 2 * (entry m 1 0 * entry m 2 1 - entry m 1 1 * entry m 2 0).

End RotationSpec.

Import RotationSpec.

(** ** Affine transform planner *)

(** The numbers handed out by the random generators during one call of
    [make_affine_transform], in the order of the calls: four values of
    [random.random()] (behind the four [random.uniform]) and the two entries
    of [numpy.random.random((2,1))]. *)
Record draws : Type := mkDraws {
  u_scale : R;
  u_roll : R;
  u_pitch : R;
  u_yaw : R;
  n_x : R;
  n_y : R
}.

(** Both generators return numbers of the half-open interval [0,1). *)
Definition unit_draw (u : R) : Prop := 0 <= u < 1.

Definition valid_draws (d : draws) : Prop :=
  unit_draw (u_scale d) /\ unit_draw (u_roll d) /\ unit_draw (u_pitch d)
  /\ unit_draw (u_yaw d) /\ unit_draw (n_x d) /\ unit_draw (n_y d).

(** [random.uniform(a, b)] is [a + (b - a) * random()]. *)
Definition uniform (a b u : R) : R := a + (b - a) * u.

(** The local variables of [make_affine_transform] that the properties
    speak about, next to the two values it returns. *)
Record planner : Type := mkPlanner {
  sampled_scale : R;          (* [scale] as drawn, before the rescaling *)
  roll : R;
  pitch : R;
  yaw : R;
  skewed_size : matrix;
  fitted_scale : R;           (* [scale] after [scale *= ...] *)
  trans_fraction : matrix;    (* [trans] after the fifth power *)
  scale_flag : bool;          (* [out_of_bounds] after the test on [scale] *)
  trans_test : bool;          (* the condition of the test on [trans] *)
  affine : matrix;            (* the returned [M] *)
  out_of_bounds : bool
}.

Definition plan (from_shape to_shape : R * R)
    (min_scale max_scale : R)
    (scale_variation rotation_variation translation_variation : R)
    (d : draws) : planner :=
  let out_of_bounds := false in

  let from_size := transpose [[snd from_shape; fst from_shape]] in
  let to_size := transpose [[snd to_shape; fst to_shape]] in

  let scale := uniform ((min_scale + max_scale) * 0.5 -
                        (max_scale - min_scale) * 0.5 * scale_variation)
                       ((min_scale + max_scale) * 0.5 +
                        (max_scale - min_scale) * 0.5 * scale_variation)
                       (u_scale d) in
  let scale0 := scale in
  let out_of_bounds :=
    if Rgtb scale max_scale || Rltb scale min_scale then true
    else out_of_bounds in
  let flag0 := out_of_bounds in

  let roll := uniform (-0.5) 0.5 (u_roll d) * rotation_variation in
  let pitch := uniform (-0.4) 0.4 (u_pitch d) * rotation_variation in
  let yaw := uniform (-1.2) 1.2 (u_yaw d) * rotation_variation in

  (* Compute a bounding box on the skewed input image (`from_shape`). *)
  let M := sub22 (euler_to_mat yaw pitch roll) in
  let '(h, w) := from_shape in
  let corners := rscal [[-w;  w; -w;  w];
                        [-h; -h;  h;  h]] 0.5 in
  let skewed_size := msub (max_axis1 (matmul M corners))
                          (min_axis1 (matmul M corners)) in

  (* Set the scale as large as possible such that the skewed and scaled
     shape is less than or equal to the desired ratio in either dimension. *)
  let scale := scale * amin (mdiv to_size skewed_size) in

  (* Set the translation such that the skewed and scaled image falls within
     the output shape's bounds. *)
  let trans := rscal (emap (fun x => x - 0.5) [[n_x d]; [n_y d]])
                     translation_variation in
  let trans := emap (fun x => x / 2.0)
                    (emap (fun x => x ^ 5) (scal 2.0 trans)) in
  let fraction := trans in
  let test := any_lt trans (-0.80) || any_gt trans 0.80 in
  let out_of_bounds := if test then true else out_of_bounds in
  let trans := mmul (msub to_size (rscal skewed_size scale)) trans in

  let center_to := emap (fun x => x / 2) to_size in
  let center_from := emap (fun x => x / 2) from_size in

  let M := sub22 (euler_to_mat yaw pitch roll) in
  let M := rscal M scale in
  let M := hstack M (msub (madd trans center_to) (matmul M center_from)) in

  mkPlanner scale0 roll pitch yaw skewed_size scale fraction flag0 test
            M out_of_bounds.

Definition make_affine_transform (from_shape to_shape : R * R)
    (min_scale max_scale : R)
    (scale_variation rotation_variation translation_variation : R)
    (d : draws) : matrix * bool :=
  let p := plan from_shape to_shape min_scale max_scale
                scale_variation rotation_variation translation_variation d in
  (affine p, out_of_bounds p).

(** *** The bounding box of the transformed source corners

    Written from the words of the specification: the four corners of the
    source shape, in homogeneous coordinates, are sent through the 2x3
    transform; the box is the spread of the images on each axis, width
    first. *)

Definition source_corners (from_shape : R * R) : matrix :=
  let '(h, w) := from_shape in
  [[0; w; 0; w];
   [0; 0; h; h];
   [1; 1; 1; 1]].

Definition bounding_box (A : matrix) (from_shape : R * R) : matrix :=
  let P := matmul A (source_corners from_shape) in
  msub (max_axis1 P) (min_axis1 P).

Definition box_width (A : matrix) (from_shape : R * R) : R :=
  entry (bounding_box A from_shape) 0 0.
Definition box_height (A : matrix) (from_shape : R * R) : R :=
  entry (bounding_box A from_shape) 1 0.

(** The rotation that a run of the planner composes. *)
Definition rotation (p : planner) : matrix :=
  euler_to_mat (yaw p) (pitch p) (roll p).

(** ** Plate code generator *)

Module Code.

(** What a call can end in: a value, one of the two exceptions that the
    generator can raise, or a loop that was still running when the fuel
    ran out. *)
Inductive outcome (A : Type) : Type :=
| Ret (a : A)
| KeyError
| IndexError
| OutOfFuel.

Arguments Ret {A} a.
Arguments KeyError {A}.
Arguments IndexError {A}.
Arguments OutOfFuel {A}.

(** Computations that read the random stream: the state is the cursor. *)
Definition rng (A : Type) : Type := nat -> outcome (A * nat).

Definition ret {A : Type} (a : A) : rng A := fun i => Ret (a, i).

Definition bind {A B : Type} (m : rng A) (k : A -> rng B) : rng B :=
  fun i =>
    match m i with
    | Ret (a, i') => k a i'
    | KeyError => KeyError
    | IndexError => IndexError
    | OutOfFuel => OutOfFuel
    end.

Notation "x <- m ;; k" := (bind m (fun x => k))
  (at level 61, m at next level, right associativity).

(** [banned_combinations]: a dictionary with the keys [None] and ["se"].
    In the source two commas are missing, so that the adjacent literals
    "LSD" "LUS" and "NRP" "NSF" are each one six-letter entry. *)
Definition banned_combinations (country : option string)
  : option (list string) :=
  match country with
  | None => Some []
  | Some c =>
    if String.eqb c "se" then Some [
      "APA"; "ARG"; "ASS"; "BAJ"; "BSS"; "CUC"; "CUK"; "DUM"; "ETA"; "ETT";
      "FAG"; "FAN"; "FEG"; "FEL"; "FEM"; "FES"; "FET"; "FNL"; "FUC"; "FUK";
      "FUL"; "GAM"; "GAY"; "GEJ"; "GEY"; "GHB"; "GUD"; "GYN"; "HAT"; "HBT";
      "HKH"; "HOR"; "HOT"; "KGB"; "KKK"; "KUC"; "KUF"; "KUG"; "KUK"; "KYK";
      "LAM"; "LAT"; "LEM"; "LOJ"; "LSDLUS"; "MAD"; "MAO"; "MEN"; "MES";
      "MLB"; "MUS"; "NAZ"; "NRPNSF"; "NYP"; "OND"; "OOO"; "ORM"; "PAJ";
      "PKK"; "PLO"; "PMS"; "PUB"; "RAP"; "RAS"; "ROM"; "RPS"; "RUS"; "SEG";
      "SEX"; "SJU"; "SOS"; "SPY"; "SUG"; "SUP"; "SUR"; "TBC"; "TOA"; "TOK";
      "TRE"; "TYP"; "UFO"; "USA"; "WAM"; "WAR"; "WWW"; "XTC"; "XTZ"; "XXL";
      "XXX"; "ZEX"; "ZOG"; "ZPY"; "ZUG"; "ZUP"; "ZOO"
    ]%string
    else None
  end.

(** [bad in code] for two strings. *)
Fixpoint contains (bad code : string) : bool :=
  String.prefix bad code
  || match code with
     | EmptyString => false
     | String _ rest => contains bad rest
     end.

(** [random.choice(seq)]: the element at a random index below [len(seq)];
    an empty sequence raises [IndexError].  The draw read from the stream is
    reduced below the length. *)
Definition choice (rand : nat -> nat) (seq : string) : rng ascii :=
  fun i =>
    match String.get (rand i mod String.length seq) seq with
    | Some c => Ret (c, S i)
    | None => IndexError
    end.

(** The body of the loop: one formatted code from six draws. *)
Definition draw_code (LETTERS DIGITS : string) (rand : nat -> nat)
  : rng string :=
  l1 <- choice rand LETTERS ;;
  l2 <- choice rand LETTERS ;;
  l3 <- choice rand LETTERS ;;
  d1 <- choice rand DIGITS ;;
  d2 <- choice rand DIGITS ;;
  d3 <- choice rand DIGITS ;;
  ret (String l1 (String l2 (String l3 (String " "
        (String d1 (String d2 (String d3 EmptyString))))))).

(** The loop condition
    [not code or any(bad in code for bad in banned_combinations[country])].
    The dictionary is only looked up when [code] is a non-empty string. *)
Definition again (country : option string) (code : option string)
  : outcome bool :=
  match code with
  | None => Ret true
  | Some c =>
    if String.eqb c EmptyString then Ret true
    else match banned_combinations country with
         | Some bans => Ret (existsb (fun bad => contains bad c) bans)
         | None => KeyError
         end
  end.

(** The [while] loop; [fuel] bounds the number of iterations. *)
Fixpoint generate_code_loop (LETTERS DIGITS : string) (rand : nat -> nat)
    (fuel : nat) (country : option string) (code : option string)
  : rng (option string) :=
  fun i =>
    match again country code with
    | Ret false => Ret (code, i)
    | Ret true =>
      match fuel with
      | O => OutOfFuel
      | S fuel' =>
        match draw_code LETTERS DIGITS rand i with
        | Ret (c, i') =>
          generate_code_loop LETTERS DIGITS rand fuel' country (Some c) i'
        | KeyError => KeyError
        | IndexError => IndexError
        | OutOfFuel => OutOfFuel
        end
      end
    | KeyError => KeyError
    | IndexError => IndexError
    | OutOfFuel => OutOfFuel
    end.

Definition generate_code (LETTERS DIGITS : string) (rand : nat -> nat)
    (fuel : nat) (country : option string) : rng (option string) :=
  generate_code_loop LETTERS DIGITS rand fuel country None.

(** The words of the specification: [c] occurs in the alphabet [s], and
    [code] is three letters, a space and three digits. *)
Definition member (c : ascii) (s : string) : Prop :=
  exists k, String.get k s = Some c.

Definition plate_format (LETTERS DIGITS : string) (code : string) : Prop :=
  exists l1 l2 l3 d1 d2 d3,
    code = String l1 (String l2 (String l3 (String " "
             (String d1 (String d2 (String d3 EmptyString))))))
    /\ member l1 LETTERS /\ member l2 LETTERS /\ member l3 LETTERS
    /\ member d1 DIGITS /\ member d2 DIGITS /\ member d3 DIGITS.

(** The character that [random.choice(seq)] returns at cursor [i], and a
    code spelled by the six choices that start at cursor [j]. *)
Definition pick (rand : nat -> nat) (seq : string) (i : nat) : option ascii :=
  String.get (rand i mod String.length seq) seq.

Definition drawn_at (LETTERS DIGITS : string) (rand : nat -> nat) (j : nat)
    (code : string) : Prop :=
  exists l1 l2 l3 d1 d2 d3,
    code = String l1 (String l2 (String l3 (String " "
             (String d1 (String d2 (String d3 EmptyString))))))
    /\ pick rand LETTERS j = Some l1
    /\ pick rand LETTERS (j + 1) = Some l2
    /\ pick rand LETTERS (j + 2) = Some l3
    /\ pick rand DIGITS (j + 3) = Some d1
    /\ pick rand DIGITS (j + 4) = Some d2
    /\ pick rand DIGITS (j + 5) = Some d3.

(** [bad] occurs in [code] as a run of consecutive, identical characters. *)
Definition substring_of (bad code : string) : Prop :=
  exists pre post, code = (pre ++ bad ++ post)%string.

(** Modelled from the spec: the alphabets [common.LETTERS] and
    [common.DIGITS], which the specification gives as [A-Z] and [0-9]; the
    module [common] is not part of the sources.  The generator takes the
    alphabets as parameters; these two values only serve as sample
    inputs. *)
Definition LETTERS_AZ : string := "ABCDEFGHIJKLMNOPQRSTUVWXYZ".
Definition DIGITS_09 : string := "0123456789".

(** A sample stream of draws: "APA 000" first, then "ABC 123". *)
Definition stream_apa_abc (i : nat) : nat :=
  nth i [0; 15; 0; 0; 0; 0; 0; 1; 2; 1; 2; 3]%nat 0%nat.

End Code.

(** ** The outcomes of the six choices *)

Module Outcomes.

Import Code.

(** All lists of draws [r1; ...; rk] with each [ri] below the i-th bound. *)
Fixpoint tuples (bounds : list nat) : list (list nat) :=
  match bounds with
  | [] => [[]]
  | n :: rest => flat_map (fun r => map (cons r) (tuples rest)) (seq 0 n)
  end.

(** The outcomes of the six [random.choice] of one iteration: one index
    below the length of its alphabet for each.  [random.choice] draws each
    index uniformly and independently, so these outcomes are equally
    likely. *)
Definition outcomes (LETTERS DIGITS : string) : list (list nat) :=
  tuples [String.length LETTERS; String.length LETTERS;
          String.length LETTERS; String.length DIGITS;
          String.length DIGITS; String.length DIGITS].

(** The stream that hands out the draws [rs]. *)
Definition stream_of (rs : list nat) (i : nat) : nat := nth i rs 0%nat.

(** The code that [generate_code()] returns when its choices come out as
    [rs]. *)
Definition code_of_outcome (LETTERS DIGITS : string) (rs : list nat)
  : option string :=
  match generate_code LETTERS DIGITS (stream_of rs) 1%nat None 0%nat with
  | Ret (Some c, _) => Some c
  | _ => None
  end.

(** The outcome [rs] makes [generate_code()] return [code]. *)
Definition yields (LETTERS DIGITS : string) (code : string) (rs : list nat)
  : bool :=
  match code_of_outcome LETTERS DIGITS rs with
  | Some c => String.eqb c code
  | None => false
  end.

(** An alphabet without a repeated character. *)
Definition distinct (s : string) : Prop := NoDup (list_ascii_of_string s).

(** The alphabet of the [k]-th choice of an iteration, and the place of
    its character in the formatted code: the space sits at place 3. *)
Definition alphabet (LETTERS DIGITS : string) (k : nat) : string :=
  if (k <? 3)%nat then LETTERS else DIGITS.

Definition place (k : nat) : nat := if (k <? 3)%nat then k else S k.

(** The outcome [rs] puts the character [c] at place [p] of the code. *)
Definition shows (LETTERS DIGITS : string) (p : nat) (c : ascii)
    (rs : list nat) : bool :=
  match code_of_outcome LETTERS DIGITS rs with
  | Some code =>
      match String.get p code with
      | Some a => Ascii.eqb a c
      | None => false
      end
  | None => false
  end.

(** The outcome that the stream [rand] hands to the iteration that starts
    at cursor [i]: the index that each [random.choice] computes. *)
Definition outcome_at (LETTERS DIGITS : string) (rand : nat -> nat)
    (i : nat) : list nat :=
  [(rand i mod String.length LETTERS)%nat;
   (rand (i + 1) mod String.length LETTERS)%nat;
   (rand (i + 2) mod String.length LETTERS)%nat;
   (rand (i + 3) mod String.length DIGITS)%nat;
   (rand (i + 4) mod String.length DIGITS)%nat;
   (rand (i + 5) mod String.length DIGITS)%nat].

End Outcomes.

(** ** Compositing and the sample generator *)

Definition OUTPUT_SHAPE : nat * nat := (64, 128)%nat.

(** [m.shape] of a two-dimensional array. *)
Definition shape (m : matrix) : nat * nat := (List.length m, ncols m).

(** [numpy.ones(sh)] *)
Definition ones (sh : nat * nat) : matrix :=
  repeat (repeat 1 (snd sh)) (fst sh).
Definition zeros (sh : nat * nat) : matrix :=
  repeat (repeat 0 (snd sh)) (fst sh).

(** An array with [fst sh] rows of [snd sh] entries each. *)
Definition has_shape (sh : nat * nat) (m : matrix) : Prop :=
  List.length m = fst sh /\ Forall (fun r => List.length r = snd sh) m.

(** The blend [plate * plate_mask + bg * (1.0 - plate_mask)] of arrays. *)
Definition composite (plate plate_mask bg : matrix) : matrix :=
  madd (mmul plate plate_mask) (mmul bg (emap (fun x => 1.0 - x) plate_mask)).

(** The collaborators of [generate_im]: OpenCV's [warpAffine] and [resize]
    (the size argument is (width, height)), the background sampler and the
    plate renderer, which returns the rendered plate and its code. *)
Record collaborators (plate_data : Type) : Type := mkCollaborators {
  warpAffine : matrix -> matrix -> nat * nat -> matrix;
  resize : matrix -> nat * nat -> matrix;
  generate_bg : nat -> matrix;
  generate_plate : plate_data -> matrix * string
}.

Arguments warpAffine {plate_data} c _ _ _.
Arguments resize {plate_data} c _ _.
Arguments generate_bg {plate_data} c _.
Arguments generate_plate {plate_data} c _.

Definition float_shape (sh : nat * nat) : R * R :=
  (INR (fst sh), INR (snd sh)).

Definition generate_im {plate_data : Type} (cv : collaborators plate_data)
    (pd : plate_data) (num_bg_images : nat) (d : draws)
  : matrix * string * bool :=
  let bg := generate_bg cv num_bg_images in

  let '(plate, code) := generate_plate cv pd in
  let plate_mask := ones (shape plate) in

  let '(M, out_of_bounds) :=
    make_affine_transform
      (float_shape (fst (shape plate), snd (shape plate)))
      (float_shape (shape bg))
      0.6    (* min_scale *)
      1.1    (* max_scale *)
      1.2    (* scale_variation *)
      0.9    (* rotation_variation *)
      1.2    (* translation_variation *)
      d in
  let plate := warpAffine cv plate M (snd (shape bg), fst (shape bg)) in
  let plate_mask :=
    warpAffine cv plate_mask M (snd (shape bg), fst (shape bg)) in

  let out := composite plate plate_mask bg in

  let out := emap (fun x => x / 255)
                  (resize cv out (snd OUTPUT_SHAPE, fst OUTPUT_SHAPE)) in

  (out, code, negb out_of_bounds).

(** ** Sample inputs *)

Definition draws_center : draws :=
  mkDraws (1 / 2) (1 / 2) (1 / 2) (1 / 2) (1 / 2) (1 / 2).
Definition draws_large_scale : draws :=
  mkDraws (11 / 12) (1 / 2) (1 / 2) (1 / 2) (1 / 2) (1 / 2).
Definition draws_left_edge : draws :=
  mkDraws (1 / 2) (1 / 2) (1 / 2) (1 / 2) 0 (1 / 2).

(** Collaborators that leave their image argument unchanged, a one-row
    background and a one-row plate. *)
Definition sample_collaborators : collaborators unit :=
  mkCollaborators unit
    (fun src _ _ => src)
    (fun src _ => src)
    (fun _ => [[1; 1]])
    (fun _ => ([[10; 20]], "ABC123"%string)).

(** ** Where the planner puts the plate

    Written over the fields of [planner]: the translation in pixels of
    line 121, the image of a point under a 2x3 transform, and the least and
    greatest coordinate of the transformed source corners on each axis. *)

Definition pixel_translation (to_shape : R * R) (p : planner) : matrix :=
  let to_size := transpose [[snd to_shape; fst to_shape]] in
  mmul (msub to_size (rscal (skewed_size p) (fitted_scale p)))
       (trans_fraction p).

Definition apply_affine (A : matrix) (x y : R) : matrix :=
  matmul A [[x]; [y]; [1]].

Definition box_low (A : matrix) (from_shape : R * R) (axis : nat) : R :=
  entry (min_axis1 (matmul A (source_corners from_shape))) axis 0.
Definition box_high (A : matrix) (from_shape : R * R) (axis : nat) : R :=
  entry (max_axis1 (matmul A (source_corners from_shape))) axis 0.

(** ** The code on the plate *)

Module PlateCode.

(** [code.replace(" ", "")] *)
Fixpoint remove_spaces (code : string) : string :=
  match code with
  | EmptyString => EmptyString
  | String c rest =>
    if Ascii.eqb c " " then remove_spaces rest
    else String c (remove_spaces rest)
  end.

End PlateCode.

(** ** Background sampler *)

Module Bg.

(** What a call of [generate_bg] can end in: a value, the [ValueError] of
    [random.randint] on an empty range, or a retry loop that was still
    running when the fuel ran out. *)
Inductive result (A : Type) : Type :=
| Done (a : A)
| ValueError
| Spinning.

Arguments Done {A} a.
Arguments ValueError {A}.
Arguments Spinning {A}.

(** [random.randint(a, b)]: an integer of [a, b], both ends included; an
    empty range raises.  The draw read at the cursor is reduced below the
    size of the range. *)
Definition randint (rand : nat -> nat) (a b : Z) (i : nat)
  : result (Z * nat) :=
  if (b <? a)%Z then ValueError
  else Done ((a + Z.of_nat (rand i) mod (b - a + 1))%Z, S i).

(** [bg[y:y + rows, x:x + cols]] *)
Definition window (bg : matrix) (y x : nat) (rows cols : nat) : matrix :=
  map (fun r => firstn cols (skipn x r)) (firstn rows (skipn y bg)).

(** An image is large enough for the canvas:
    [bg.shape[1] >= OUTPUT_SHAPE[1] and bg.shape[0] >= OUTPUT_SHAPE[0]]. *)
Definition large_enough (bg : matrix) : bool :=
  (snd OUTPUT_SHAPE <=? snd (shape bg))%nat
  && (fst OUTPUT_SHAPE <=? fst (shape bg))%nat.

(** The loop of [generate_bg].  [imread k] is the image that
    [cv2.imread("bgs/%08d.jpg" % k)] reads, [None] when there is no such
    image: the attribute error on [bg.shape] is then swallowed by the bare
    [except] and the loop tries again, as it does for an image that is too
    small. *)
Fixpoint pick_bg (imread : nat -> option matrix) (rand : nat -> nat)
    (fuel : nat) (num_bg_images : nat) (i : nat) : result (matrix * nat) :=
  match fuel with
  | O => Spinning
  | S fuel' =>
    match randint rand 0 (Z.of_nat num_bg_images - 1) i with
    | Done (k, i') =>
      match imread (Z.to_nat k) with
      | Some bg =>
        if large_enough bg then Done (bg, i')
        else pick_bg imread rand fuel' num_bg_images i'
      | None => pick_bg imread rand fuel' num_bg_images i'
      end
    | ValueError => ValueError
    | Spinning => Spinning
    end
  end.

Definition generate_bg (imread : nat -> option matrix) (rand : nat -> nat)
    (fuel : nat) (num_bg_images : nat) (i : nat) : result (matrix * nat) :=
  match pick_bg imread rand fuel num_bg_images i with
  | Done (bg, i1) =>
    match randint rand 0 (Z.of_nat (snd (shape bg))
                          - Z.of_nat (snd OUTPUT_SHAPE)) i1 with
    | Done (x, i2) =>
      match randint rand 0 (Z.of_nat (fst (shape bg))
                            - Z.of_nat (fst OUTPUT_SHAPE)) i2 with
      | Done (y, i3) =>
        Done (window bg (Z.to_nat y) (Z.to_nat x)
                     (fst OUTPUT_SHAPE) (snd OUTPUT_SHAPE), i3)
      | ValueError => ValueError
      | Spinning => Spinning
      end
    | ValueError => ValueError
    | Spinning => Spinning
    end
  | ValueError => ValueError
  | Spinning => Spinning
  end.

(** The index that [random.randint(0, num_bg_images - 1)] yields at
    cursor [i]. *)
Definition drawn_index (rand : nat -> nat) (num_bg_images : nat) (i : nat)
  : nat :=
  Z.to_nat (Z.of_nat (rand i) mod Z.of_nat num_bg_images).

(** The image at index [k] cannot be used: it is missing or too small. *)
Definition unusable (imread : nat -> option matrix) (k : nat) : Prop :=
  match imread k with
  | Some bg => large_enough bg = false
  | None => True
  end.

(** A pool whose images are rectangular arrays. *)
Definition rectangular_pool (imread : nat -> option matrix) : Prop :=
  forall k bg, imread k = Some bg -> has_shape (shape bg) bg.

(** A sample pool: image 0 is 2x3 (too small), image 1 is missing and
    image 2 is a 70x130 array of a constant. *)
Definition sample_pool (k : nat) : option matrix :=
  match k with
  | 0%nat => Some [[1; 2; 3]; [4; 5; 6]]%R
  | 2%nat => Some (repeat (repeat 7%R 130) 70)
  | _ => None
  end.

(** Draws 0, 1, 2 for the image, then 1 for [x] and 5 for [y]. *)
Definition sample_bg_stream (i : nat) : nat :=
  nth i [0; 1; 2; 1; 5]%nat 0%nat.

End Bg.

(** ** Plate templates, the generator and the entry point *)

Module Plates.

Open Scope string_scope.

Definition PLATES_DIR : string := "./plates".
Definition OUTPUT_DIR : string := "./test".
Definition FONT_HEIGHT : nat := 64.

(** [os.path.join(a, b)] on POSIX paths: an absolute [b] replaces [a], and a
    separator is added unless [a] is empty or ends in one. *)
Fixpoint ends_with_slash (a : string) : bool :=
  match a with
  | EmptyString => false
  | String c EmptyString => Ascii.eqb c "/"
  | String _ rest => ends_with_slash rest
  end.

Definition path_join (a b : string) : string :=
  if String.prefix "/" b then b
  else if String.eqb a EmptyString || ends_with_slash a then a ++ b
  else a ++ "/" ++ b.

(** What [json.load] finds in a [data.json]: text that does not parse, or
    an object, with the value of its "offset" entry when it has one.  The
    value is a list of integers, true when it is not empty. *)
Inductive json : Type :=
| Malformed
| Object (offset : option (list Z)).

(** The part of the file system that [load_plates] looks at. *)
Record filesystem : Type := mkFilesystem {
  listdir : string -> list string;
  isdir : string -> bool;
  file_exists : string -> bool;
  json_load : string -> json
}.

(** A loaded template.  The font stands for
    [ImageFont.truetype(path, FONT_HEIGHT)] and the frame for
    [cv2.imread(path)]; each is kept as the arguments of the call. *)
Record plate : Type := mkPlate {
  plate_offset : list Z;
  plate_font : string * nat;
  plate_frame : string
}.

Inductive exn : Type :=
| AssertionError
| KeyError
| JSONDecodeError.

(** The outcome of [load_plates]: the dictionary, as the list of its items
    in insertion order, or the exception that ended the run; in both cases
    with the lines printed so far. *)
Inductive loaded : Type :=
| Plates (plates : list (string * plate)) (printed : list string)
| Failed (e : exn) (printed : list string).

(** [d[k] = v] on a dictionary kept as its list of items. *)
Fixpoint dict_set (d : list (string * plate)) (k : string) (v : plate)
  : list (string * plate) :=
  match d with
  | [] => [(k, v)]
  | (k', v') :: rest =>
    if String.eqb k' k then (k, v) :: rest
    else (k', v') :: dict_set rest k v
  end.

Fixpoint dict_get (d : list (string * plate)) (k : string) : option plate :=
  match d with
  | [] => None
  | (k', v') :: rest => if String.eqb k' k then Some v' else dict_get rest k
  end.

(** The three files of the template directory [p]. *)
Definition template_files (folder_path p : string) : list string :=
  [ path_join (path_join folder_path p) "data.json";
    path_join (path_join folder_path p) "font.ttf";
    path_join (path_join folder_path p) "frame.png" ].

(** The inner loop: one line per missing file. *)
Definition missing_lines (fs : filesystem) (files : list string)
  : list string :=
  map (fun f => f ++ " is missing")
      (filter (fun f => negb (file_exists fs f)) files).

Definition all_exists (fs : filesystem) (files : list string) : bool :=
  forallb (file_exists fs) files.

(** The outer loop of [load_plates], over the rest of the listing. *)
Fixpoint load_loop (fs : filesystem) (folder_path : string)
    (names : list string) (plates : list (string * plate))
    (printed : list string) : loaded :=
  match names with
  | [] => Plates plates printed
  | p :: rest =>
    if negb (isdir fs (path_join folder_path p))
    then load_loop fs folder_path rest plates printed
    else
      let files := template_files folder_path p in
      let printed := (printed ++ missing_lines fs files)%list in
      if negb (all_exists fs files)
      then load_loop fs folder_path rest plates printed
      else
        match json_load fs (nth 0 files EmptyString) with
        | Malformed => Failed JSONDecodeError printed
        | Object None => Failed KeyError printed
        | Object (Some []) => Failed AssertionError printed
        | Object (Some offset) =>
          let plate :=
            mkPlate offset
                    (nth 1 files EmptyString, FONT_HEIGHT)
                    (nth 2 files EmptyString) in
          load_loop fs folder_path rest (dict_set plates p plate) printed
        end
  end.

Definition load_plates (fs : filesystem) (folder_path : string) : loaded :=
  load_loop fs folder_path (listdir fs folder_path) [] [].

(** A directory that [load_plates] can use: it is a directory and holds the
    three files. *)
Definition complete (fs : filesystem) (folder_path p : string) : bool :=
  isdir fs (path_join folder_path p)
  && all_exists fs (template_files folder_path p).

(** The [data.json] of [p] passes the assertion: it parses, it has an
    "offset" and that is not empty. *)
Definition valid_data (fs : filesystem) (folder_path p : string) : bool :=
  match json_load fs (path_join (path_join folder_path p) "data.json") with
  | Object (Some (_ :: _)) => true
  | _ => false
  end.

(** The exception that the [data.json] of [p] raises, if any. *)
Definition data_error (fs : filesystem) (folder_path p : string)
  : option exn :=
  match json_load fs (path_join (path_join folder_path p) "data.json") with
  | Malformed => Some JSONDecodeError
  | Object None => Some KeyError
  | Object (Some []) => Some AssertionError
  | Object (Some (_ :: _)) => None
  end.

(** The template that the directory [p] yields when its [data.json] passes
    the assertion. *)
Definition plate_of (fs : filesystem) (folder_path p : string)
  : option plate :=
  match json_load fs (path_join (path_join folder_path p) "data.json") with
  | Object (Some (x :: l)) =>
    Some (mkPlate (x :: l)
            (path_join (path_join folder_path p) "font.ttf", FONT_HEIGHT)
            (path_join (path_join folder_path p) "frame.png"))
  | _ => None
  end.

(** The dictionary after the entries [names], when none of them raises:
    each usable directory is stored under its name. *)
Definition store (fs : filesystem) (folder_path : string)
    (d : list (string * plate)) (p : string) : list (string * plate) :=
  if complete fs folder_path p
  then match plate_of fs folder_path p with
       | Some pl => dict_set d p pl
       | None => d
       end
  else d.

(** The lines that the directory entry [p] makes [load_plates] print. *)
Definition lines_of (fs : filesystem) (folder_path p : string)
  : list string :=
  if isdir fs (path_join folder_path p)
  then missing_lines fs (template_files folder_path p)
  else [].

(** The choice of a template in [generate_ims]:
    [plates[random.choice(list(plates))]]. *)
Definition choose_plate (rand : nat -> nat) (plates : list (string * plate))
  : Code.rng plate :=
  fun i =>
    match nth_error (map fst plates)
                    (rand i mod List.length plates) with
    | Some key =>
      match dict_get plates key with
      | Some pl => Code.Ret (pl, S i)
      | None => Code.KeyError
      end
    | None => Code.IndexError
    end.

(** ["{:08d}".format(n)] for a natural number: its decimal digits, padded
    with zeros on the left to eight characters. *)
Definition zero_pad (width : nat) (s : string) : string :=
  string_of_list_ascii (repeat "0"%char (width - String.length s)) ++ s.

Definition format_08d (n : nat) : string :=
  zero_pad 8 (NilZero.string_of_uint (Nat.to_uint n)).

(** The name under which the entry point writes sample [img_idx]:
    ["{:08d}_{}_{}".format(img_idx, c, "1" if p else "0")]. *)
Definition sample_name (img_idx : nat) (c : string) (p : bool) : string :=
  format_08d img_idx ++ "_" ++ c ++ "_" ++ (if p then "1" else "0").

(** The file that [write_image(name, im)] writes. *)
Definition image_path (name : string) : string :=
  path_join OUTPUT_DIR (name ++ ".png").

(** The loop of the entry point over the samples it pulled: the path and
    the pixel array of each file written, in order. *)
Fixpoint write_samples (img_idx : nat)
    (samples : list (matrix * string * bool)) : list (string * matrix) :=
  match samples with
  | [] => []
  | (im, c, p) :: rest =>
    (image_path (sample_name img_idx c p), rscal im 255%R)
    :: write_samples (S img_idx) rest
  end.

(** The number that a string of decimal digits spells. *)
Definition read_decimal (s : string) : option nat :=
  option_map Nat.of_uint (NilEmpty.uint_of_string s).

(** A sample file system: a stray file, a directory without its font, and
    two complete templates. *)
Definition sample_fs : filesystem :=
  mkFilesystem
    (fun _ => ["README"; "broken"; "se"; "uk"])
    (fun path => negb (String.eqb path "./plates/README"))
    (fun path => negb (String.eqb path "./plates/broken/font.ttf"))
    (fun path => if String.eqb path "./plates/uk/data.json"
                 then Object (Some [])
                 else Object (Some [10; 20]%Z)).

End Plates.

(** * Properties *)

(** Unfolds the numpy fragment on matrices given by their entries. *)
Ltac np_eval :=
  cbv [euler_to_mat Rx Ry Rz rotation_about cross_matrix identity3 det3 entry
       matmul transpose col ncols dot scal rscal ewise madd msub mmul mdiv emap
       map2 map seq List.length nth fold_right firstn sub22 hstack
       max_axis1 min_axis1 amin fold1 fold_left concat app].

Ltac list_eq := repeat (f_equal; try ring).

Lemma Rx_entries (t : R) :
  Rx t = [[1; 0; 0]; [0; cos t; - sin t]; [0; sin t; cos t]].
Proof. np_eval. list_eq. Qed.

Lemma Ry_entries (t : R) :
  Ry t = [[cos t; 0; sin t]; [0; 1; 0]; [- sin t; 0; cos t]].
Proof. np_eval. list_eq. Qed.

Lemma Rz_entries (t : R) :
  Rz t = [[cos t; - sin t; 0]; [sin t; cos t; 0]; [0; 0; 1]].
Proof. np_eval. list_eq. Qed.

(** The entries of the composed rotation. *)
Lemma euler_to_mat_entries (yaw pitch roll : R) :
  euler_to_mat yaw pitch roll =
  [[ cos roll * cos yaw - sin roll * sin pitch * sin yaw;
     - (sin roll * cos pitch);
     cos roll * sin yaw + sin roll * sin pitch * cos yaw ];
   [ sin roll * cos yaw + cos roll * sin pitch * sin yaw;
     cos roll * cos pitch;
     sin roll * sin yaw - cos roll * sin pitch * cos yaw ];
   [ - (cos pitch * sin yaw);
     sin pitch;
     cos pitch * cos yaw ]].
Proof. np_eval. list_eq. Qed.

(** C3. For all angles, [euler_to_mat yaw pitch roll] is the matrix product
    Rz(roll) * Rx(pitch) * Ry(yaw) of the right-handed rotations about the
    Z, X and Y axes: yaw is applied first, then pitch, then roll.  The
    product is the same under both groupings. *)
Theorem euler_to_mat_is_Rz_Rx_Ry (yaw pitch roll : R) :
  euler_to_mat yaw pitch roll = matmul (Rz roll) (matmul (Rx pitch) (Ry yaw))
  /\ euler_to_mat yaw pitch roll
     = matmul (matmul (Rz roll) (Rx pitch)) (Ry yaw).
Proof.
  rewrite Rx_entries, Ry_entries, Rz_entries.
  split; np_eval; list_eq.
Qed.

(** C4. For all angles the matrix returned by [euler_to_mat] is orthogonal
    (its transpose times itself is the identity) and has determinant 1. *)
Theorem euler_to_mat_orthogonal_det1 (yaw pitch roll : R) :
  matmul (transpose (euler_to_mat yaw pitch roll))
         (euler_to_mat yaw pitch roll) = identity3
  /\ det3 (euler_to_mat yaw pitch roll) = 1.
Proof.
  rewrite euler_to_mat_entries.
  pose proof (sin2_cos2 yaw) as Hy.
  pose proof (sin2_cos2 pitch) as Hp.
  pose proof (sin2_cos2 roll) as Hr.
  unfold Rsqr in Hy, Hp, Hr.
  generalize dependent (cos yaw); intros cy.
  generalize dependent (sin yaw); intros sy.
  generalize dependent (cos pitch); intros cp.
  generalize dependent (sin pitch); intros sp.
  generalize dependent (cos roll); intros cr.
  generalize dependent (sin roll); intros sr.
  intros Hr Hp Hy.
  split; np_eval; [repeat (f_equal; try nsatz) | nsatz].
Qed.

(** ** Affine transform planner *)

(** Four values spread evenly around [t]: the corners of a rectangle seen
    along one axis. *)
Lemma spread4 (t p q x1 x2 x3 x4 : R) :
  x1 = t - p - q -> x2 = t + p - q -> x3 = t - p + q -> x4 = t + p + q ->
  Rmax (Rmax (Rmax x1 x2) x3) x4 - Rmin (Rmin (Rmin x1 x2) x3) x4
  = 2 * (Rabs p + Rabs q).
Proof.
  intros -> -> -> ->.
  unfold Rmax, Rmin, Rabs.
  repeat match goal with
         | |- context [Rle_dec ?a ?b] =>
           lazymatch a with context [Rle_dec] => fail | _ => idtac end;
           lazymatch b with context [Rle_dec] => fail | _ => idtac end;
           destruct (Rle_dec a b)
         | |- context [Rcase_abs ?a] => destruct (Rcase_abs a)
         end; lra.
Qed.


Lemma Rabs_half (x w : R) : 0 <= w -> Rabs (x * w / 2) = Rabs x * w / 2.
Proof.
  intros Hw. unfold Rdiv. rewrite !Rabs_mult.
  rewrite (Rabs_pos_eq w) by assumption.
  rewrite (Rabs_pos_eq (/ 2)) by lra. reflexivity.
Qed.

Lemma sub22_euler (y p r : R) :
  sub22 (euler_to_mat y p r) =
  [[entry (euler_to_mat y p r) 0 0; entry (euler_to_mat y p r) 0 1];
   [entry (euler_to_mat y p r) 1 0; entry (euler_to_mat y p r) 1 1]].
Proof. rewrite euler_to_mat_entries. reflexivity. Qed.

Lemma skewed_block (a b c d w h : R) :
  0 <= w -> 0 <= h ->
  msub (max_axis1 (matmul [[a; b]; [c; d]]
                           (rscal [[- w; w; - w; w]; [- h; - h; h; h]] 0.5)))
       (min_axis1 (matmul [[a; b]; [c; d]]
                           (rscal [[- w; w; - w; w]; [- h; - h; h; h]] 0.5)))
  = [[Rabs a * w + Rabs b * h]; [Rabs c * w + Rabs d * h]].
Proof.
  intros Hw Hh. np_eval.
  f_equal; [| f_equal]; f_equal.
  - rewrite (spread4 0 (a * w / 2) (b * h / 2)) by lra.
    rewrite !Rabs_half by assumption. lra.
  - rewrite (spread4 0 (c * w / 2) (d * h / 2)) by lra.
    rewrite !Rabs_half by assumption. lra.
Qed.


Lemma plan_geometry (h w th tw mn mx sv rv tv : R) (d : draws) :
  0 <= w -> 0 <= h ->
  let p := plan (h, w) (th, tw) mn mx sv rv tv d in
  let skw := Rabs (entry (rotation p) 0 0) * w
             + Rabs (entry (rotation p) 0 1) * h in
  let skh := Rabs (entry (rotation p) 1 0) * w
             + Rabs (entry (rotation p) 1 1) * h in
  skewed_size p = [[skw]; [skh]]
  /\ fitted_scale p = sampled_scale p * Rmin (tw / skw) (th / skh)
  /\ box_width (affine p) (h, w) = Rabs (fitted_scale p) * skw
  /\ box_height (affine p) (h, w) = Rabs (fitted_scale p) * skh.
Proof.
  intros Hw Hh.
  unfold plan, rotation, box_width, box_height, bounding_box, source_corners.
  cbv beta iota zeta delta
      [skewed_size fitted_scale sampled_scale affine yaw pitch roll fst snd].
  rewrite sub22_euler.
  generalize (entry (euler_to_mat (uniform (-1.2) 1.2 (u_yaw d) * rv)
                (uniform (-0.4) 0.4 (u_pitch d) * rv)
                (uniform (-0.5) 0.5 (u_roll d) * rv)) 0 0) as a.
  generalize (entry (euler_to_mat (uniform (-1.2) 1.2 (u_yaw d) * rv)
                (uniform (-0.4) 0.4 (u_pitch d) * rv)
                (uniform (-0.5) 0.5 (u_roll d) * rv)) 0 1) as b.
  generalize (entry (euler_to_mat (uniform (-1.2) 1.2 (u_yaw d) * rv)
                (uniform (-0.4) 0.4 (u_pitch d) * rv)
                (uniform (-0.5) 0.5 (u_roll d) * rv)) 1 0) as c.
  generalize (entry (euler_to_mat (uniform (-1.2) 1.2 (u_yaw d) * rv)
                (uniform (-0.4) 0.4 (u_pitch d) * rv)
                (uniform (-0.5) 0.5 (u_roll d) * rv)) 1 1) as e.
  intros e c b a.
  rewrite skewed_block by assumption.
  split; [reflexivity |]. split; [reflexivity |].
  generalize (uniform ((mn + mx) * 0.5 - (mx - mn) * 0.5 * sv)
                ((mn + mx) * 0.5 + (mx - mn) * 0.5 * sv) (u_scale d)
              * amin (mdiv (transpose [[tw; th]])
                           [[Rabs a * w + Rabs b * h];
                            [Rabs c * w + Rabs e * h]])) as s.
  intros s. np_eval.
  generalize ((tw - (Rabs a * w + Rabs b * h) * s)
              * ((2.0 * ((n_x d - 0.5) * tv)) ^ 5 / 2.0)) as t1.
  generalize ((th - (Rabs c * w + Rabs e * h) * s)
              * ((2.0 * ((n_y d - 0.5) * tv)) ^ 5 / 2.0)) as t2.
  intros t2 t1. split.
  - rewrite (spread4 (t1 + tw / 2) ((s * a) * w / 2) ((s * b) * h / 2))
      by lra.
    rewrite !Rabs_half by assumption. rewrite !Rabs_mult. lra.
  - rewrite (spread4 (t2 + th / 2) ((s * c) * w / 2) ((s * e) * h / 2))
      by lra.
    rewrite !Rabs_half by assumption. rewrite !Rabs_mult. lra.
Qed.

Lemma fitted_bound (s0 t sk r : R) :
  0 < sk -> 0 <= t -> 0 <= r ->
  Rabs (s0 * Rmin (t / sk) r) * sk <= Rabs s0 * t.
Proof.
  intros Hsk Ht Hr.
  assert (Hq : 0 <= t / sk) by (unfold Rdiv; apply Rmult_le_pos;
      [assumption | left; apply Rinv_0_lt_compat; assumption]).
  assert (Hm : 0 <= Rmin (t / sk) r) by (apply Rmin_glb; assumption).
  rewrite Rabs_mult, (Rabs_pos_eq _ Hm).
  assert (Hle : Rmin (t / sk) r * sk <= t).
  { replace t with (t / sk * sk) at 2 by (field; lra).
    apply Rmult_le_compat_r; [lra | apply Rmin_l]. }
  pose proof (Rabs_pos s0) as Hs.
  rewrite Rmult_assoc. apply Rmult_le_compat_l; assumption.
Qed.

Lemma Rltb_true_iff (x y : R) : Rltb x y = true <-> x < y.
Proof.
  unfold Rltb. destruct (Rlt_dec x y); split; intros H;
    try assumption; try reflexivity; [discriminate | contradiction].
Qed.

Lemma Rgtb_true_iff (x y : R) : Rgtb x y = true <-> y < x.
Proof. unfold Rgtb. apply Rltb_true_iff. Qed.


(** What the planner computes before the geometry, read off the code. *)
Lemma plan_flags (fs ts : R * R) (mn mx sv rv tv : R) (d : draws) :
  let p := plan fs ts mn mx sv rv tv d in
  sampled_scale p
  = uniform ((mn + mx) * 0.5 - (mx - mn) * 0.5 * sv)
            ((mn + mx) * 0.5 + (mx - mn) * 0.5 * sv) (u_scale d)
  /\ roll p = uniform (-0.5) 0.5 (u_roll d) * rv
  /\ pitch p = uniform (-0.4) 0.4 (u_pitch d) * rv
  /\ yaw p = uniform (-1.2) 1.2 (u_yaw d) * rv
  /\ trans_fraction p = [[(2.0 * ((n_x d - 0.5) * tv)) ^ 5 / 2.0];
                         [(2.0 * ((n_y d - 0.5) * tv)) ^ 5 / 2.0]]
  /\ scale_flag p = Rgtb (sampled_scale p) mx || Rltb (sampled_scale p) mn
  /\ trans_test p = any_lt (trans_fraction p) (-0.80)
                    || any_gt (trans_fraction p) 0.80
  /\ out_of_bounds p = scale_flag p || trans_test p.
Proof.
  destruct fs as [h w]. unfold plan.
  cbv beta iota zeta delta
      [sampled_scale roll pitch yaw trans_fraction scale_flag trans_test
       out_of_bounds].
  repeat match goal with |- _ /\ _ => split end; try reflexivity.
  - destruct (Rgtb _ mx || Rltb _ mn); reflexivity.
  - destruct (Rgtb _ mx || Rltb _ mn);
      destruct (any_lt _ (-0.80) || any_gt _ 0.80); reflexivity.
Qed.

Lemma scale_flag_iff (fs ts : R * R) (mn mx sv rv tv : R) (d : draws) :
  let p := plan fs ts mn mx sv rv tv d in
  scale_flag p = true <-> sampled_scale p < mn \/ mx < sampled_scale p.
Proof.
  intros p.
  destruct (plan_flags fs ts mn mx sv rv tv d) as (_ & _ & _ & _ & _ & Hs & _).
  fold p in Hs. rewrite Hs, orb_true_iff, Rgtb_true_iff, Rltb_true_iff.
  tauto.
Qed.

Lemma trans_test_iff (fs ts : R * R) (mn mx sv rv tv : R) (d : draws) :
  let p := plan fs ts mn mx sv rv tv d in
  let fx := entry (trans_fraction p) 0 0 in
  let fy := entry (trans_fraction p) 1 0 in
  trans_test p = true
  <-> (fx < - 0.80 \/ 0.80 < fx) \/ (fy < - 0.80 \/ 0.80 < fy).
Proof.
  intros p.
  destruct (plan_flags fs ts mn mx sv rv tv d)
    as (_ & _ & _ & _ & Hf & _ & Ht & _).
  fold p in Hf, Ht. rewrite Ht, Hf. unfold any_lt, any_gt, entry.
  cbn [concat app existsb nth].
  rewrite !orb_true_iff, !Rgtb_true_iff, !Rltb_true_iff.
  intuition discriminate.
Qed.

Lemma fraction_small (n tv : R) :
  unit_draw n -> Rabs tv <= 1 ->
  Rabs ((2.0 * ((n - 0.5) * tv)) ^ 5 / 2.0) <= 0.5.
Proof.
  intros [Hn0 Hn1] Htv.
  assert (Hx : Rabs (2.0 * ((n - 0.5) * tv)) <= 1).
  { rewrite !Rabs_mult. rewrite (Rabs_pos_eq 2.0) by lra.
    assert (Rabs (n - 0.5) <= 0.5)
      by (unfold Rabs; destruct (Rcase_abs (n - 0.5)); lra).
    pose proof (Rabs_pos (n - 0.5)). pose proof (Rabs_pos tv). nra. }
  unfold Rdiv. rewrite Rabs_mult, <- RPow_abs.
  rewrite (Rabs_pos_eq (/ 2.0)) by lra.
  assert (Hp : Rabs (2.0 * ((n - 0.5) * tv)) ^ 5 <= 1 ^ 5)
    by (apply pow_incr; split; [apply Rabs_pos | assumption]).
  rewrite pow1 in Hp. lra.
Qed.

Lemma trans_test_small_variation (fs ts : R * R) (mn mx sv rv tv : R)
    (d : draws) :
  valid_draws d -> Rabs tv <= 1 ->
  let p := plan fs ts mn mx sv rv tv d in
  Rabs (entry (trans_fraction p) 0 0) <= 0.5
  /\ Rabs (entry (trans_fraction p) 1 0) <= 0.5
  /\ trans_test p = false.
Proof.
  intros (_ & _ & _ & _ & Hx & Hy) Htv p.
  pose proof (trans_test_iff fs ts mn mx sv rv tv d) as Hiff.
  destruct (plan_flags fs ts mn mx sv rv tv d)
    as (_ & _ & _ & _ & Hf & _).
  fold p in Hiff, Hf. cbv zeta in Hiff. rewrite Hf in *.
  unfold entry in *. cbn [nth] in *.
  pose proof (fraction_small _ _ Hx Htv) as Bx.
  pose proof (fraction_small _ _ Hy Htv) as By.
  repeat split; try assumption.
  destruct (trans_test p); [| reflexivity].
  destruct Hiff as [Hiff _]. specialize (Hiff eq_refl).
  revert Bx By Hiff. unfold Rabs.
  destruct (Rcase_abs _); destruct (Rcase_abs _); lra.
Qed.

Lemma euler_to_mat_zero : euler_to_mat 0 0 0 = identity3.
Proof.
  rewrite euler_to_mat_entries, cos_0, sin_0. unfold identity3. list_eq.
Qed.

(** The planner on an upright plate: no rotation at all. *)
Lemma plan_upright (h w th tw mn mx sv rv tv : R) (d : draws) :
  0 <= w -> 0 <= h ->
  let p := plan (h, w) (th, tw) mn mx sv rv tv d in
  roll p = 0 -> pitch p = 0 -> yaw p = 0 ->
  skewed_size p = [[w]; [h]]
  /\ fitted_scale p = sampled_scale p * Rmin (tw / w) (th / h)
  /\ box_width (affine p) (h, w) = Rabs (fitted_scale p) * w
  /\ box_height (affine p) (h, w) = Rabs (fitted_scale p) * h.
Proof.
  intros Hw Hh p Hr Hp Hy.
  pose proof (plan_geometry h w th tw mn mx sv rv tv d Hw Hh) as G.
  cbv zeta in G. fold p in G. unfold rotation in G.
  rewrite Hr, Hp, Hy, euler_to_mat_zero in G.
  unfold identity3, entry in G. cbn [nth] in G.
  rewrite Rabs_R1, Rabs_R0 in G.
  replace (1 * w + 0 * h) with w in G by ring.
  replace (0 * w + 1 * h) with h in G by ring.
  exact G.
Qed.

Lemma cos_pos_small (x : R) : Rabs x <= 3 / 2 -> 0 < cos x.
Proof.
  intros Hx. pose proof PI2_3_2 as Hpi.
  assert (- (3 / 2) <= x <= 3 / 2)
    by (revert Hx; unfold Rabs; destruct (Rcase_abs x); lra).
  apply cos_gt_0; lra.
Qed.

(** A rotation by angles below a right angle leaves both sides of the
    rotated rectangle with a positive extent. *)
Lemma skewed_extent_pos (y p r w h : R) :
  Rabs y <= 3 / 2 -> Rabs p <= 3 / 2 -> Rabs r <= 3 / 2 ->
  0 < w -> 0 < h ->
  0 < Rabs (entry (euler_to_mat y p r) 0 0) * w
      + Rabs (entry (euler_to_mat y p r) 0 1) * h
  /\ 0 < Rabs (entry (euler_to_mat y p r) 1 0) * w
         + Rabs (entry (euler_to_mat y p r) 1 1) * h.
Proof.
  intros Hy Hp Hr Hw Hh.
  rewrite euler_to_mat_entries. unfold entry. cbn [nth].
  pose proof (cos_pos_small y Hy) as Cy.
  pose proof (cos_pos_small p Hp) as Cp.
  pose proof (cos_pos_small r Hr) as Cr.
  assert (Hpos : forall a b, 0 <= Rabs a * w + Rabs b * h).
  { intros a b. pose proof (Rabs_pos a). pose proof (Rabs_pos b). nra. }
  assert (Hnz : forall a b, a <> 0 \/ b <> 0 -> 0 < Rabs a * w + Rabs b * h).
  { intros a b [H | H]; apply Rabs_pos_lt in H;
      pose proof (Rabs_pos a); pose proof (Rabs_pos b); nra. }
  split; apply Hnz.
  - destruct (Req_dec (sin r) 0) as [Hs | Hs].
    + left. rewrite Hs. nra.
    + right. nra.
  - right. nra.
Qed.

Lemma uniform_bound (lo k u : R) :
  lo = - k -> 0 <= k -> unit_draw u -> Rabs (uniform lo k u) <= k.
Proof.
  intros -> Hk [H0 H1]. unfold uniform, Rabs.
  destruct (Rcase_abs _); nra.
Qed.

Lemma angle_bound (lo k u rv : R) :
  lo = - k -> 0 <= k -> k <= 6 / 5 -> unit_draw u -> Rabs rv <= 5 / 4 ->
  Rabs (uniform lo k u * rv) <= 3 / 2.
Proof.
  intros Hlo Hk Hk' Hu Hrv. rewrite Rabs_mult.
  pose proof (uniform_bound lo k u Hlo Hk Hu).
  pose proof (Rabs_pos (uniform lo k u)). pose proof (Rabs_pos rv). nra.
Qed.

(** With the rotation variation at most 1.25 every angle stays below a
    right angle, and the skewed size is positive on both axes. *)
Lemma plan_skewed_pos (h w th tw mn mx sv rv tv : R) (d : draws) :
  valid_draws d -> Rabs rv <= 5 / 4 -> 0 < w -> 0 < h ->
  let p := plan (h, w) (th, tw) mn mx sv rv tv d in
  0 < entry (skewed_size p) 0 0 /\ 0 < entry (skewed_size p) 1 0.
Proof.
  intros (_ & Hr & Hp & Hy & _) Hrv Hw Hh p.
  destruct (plan_geometry h w th tw mn mx sv rv tv d) as (Hsk & _);
    [lra | lra |].
  destruct (plan_flags (h, w) (th, tw) mn mx sv rv tv d)
    as (_ & Er & Ep & Ey & _).
  fold p in Hsk, Er, Ep, Ey. rewrite Hsk. unfold entry at 1 3. cbn [nth].
  unfold rotation. apply skewed_extent_pos; try assumption.
  - rewrite Ey. apply (angle_bound _ 1.2); try assumption; lra.
  - rewrite Ep. apply (angle_bound _ 0.4); try assumption; lra.
  - rewrite Er. apply (angle_bound _ 0.5); try assumption; lra.
Qed.

Lemma out_of_bounds_false (fs ts : R * R) (mn mx sv rv tv : R) (d : draws) :
  let p := plan fs ts mn mx sv rv tv d in
  mn <= sampled_scale p <= mx ->
  -0.80 <= entry (trans_fraction p) 0 0 <= 0.80 ->
  -0.80 <= entry (trans_fraction p) 1 0 <= 0.80 ->
  out_of_bounds p = false.
Proof.
  intros p Hs Hx Hy.
  destruct (plan_flags fs ts mn mx sv rv tv d)
    as (_ & _ & _ & _ & _ & _ & _ & Ho).
  pose proof (scale_flag_iff fs ts mn mx sv rv tv d) as Is.
  pose proof (trans_test_iff fs ts mn mx sv rv tv d) as It.
  cbv zeta in Is, It. fold p in Ho, Is, It. rewrite Ho.
  destruct (scale_flag p).
  - destruct Is as [Is _]. specialize (Is eq_refl). lra.
  - destruct (trans_test p); [| reflexivity].
    destruct It as [It _]. specialize (It eq_refl). lra.
Qed.

(** The driver's configuration on a 32x128 plate and the 64x128 canvas,
    with every angle and both translation fractions drawn at the centre. *)
Lemma plan_driver_centered (u : R) :
  let d := mkDraws u (1 / 2) (1 / 2) (1 / 2) (1 / 2) (1 / 2) in
  let p := plan (32, 128) (64, 128) 0.6 1.1 1.2 0.9 1.2 d in
  sampled_scale p = 0.55 + 0.6 * u
  /\ (0.6 <= sampled_scale p <= 1.1 -> out_of_bounds p = false)
  /\ box_width (affine p) (32, 128) = Rabs (sampled_scale p) * 128
  /\ box_height (affine p) (32, 128) = Rabs (sampled_scale p) * 32.
Proof.
  intros d p.
  destruct (plan_flags (32, 128) (64, 128) 0.6 1.1 1.2 0.9 1.2 d)
    as (Es & Er & Ep & Ey & Ef & _).
  fold p in Es, Er, Ep, Ey, Ef.
  assert (Hs : sampled_scale p = 0.55 + 0.6 * u)
    by (rewrite Es; unfold uniform; cbn [u_scale d]; lra).
  assert (Hr : roll p = 0) by (rewrite Er; unfold uniform; cbn; lra).
  assert (Hp : pitch p = 0) by (rewrite Ep; unfold uniform; cbn; lra).
  assert (Hy : yaw p = 0) by (rewrite Ey; unfold uniform; cbn; lra).
  destruct (plan_upright 32 128 64 128 0.6 1.1 1.2 0.9 1.2 d)
    as (_ & Hfit & Bw & Bh); try assumption; try lra.
  fold p in Hfit, Bw, Bh.
  assert (Hmin : Rmin (128 / 128) (64 / 32) = 1)
    by (unfold Rmin; destruct (Rle_dec _ _); lra).
  rewrite Hmin, Rmult_1_r in Hfit. rewrite Hfit in Bw, Bh.
  split; [exact Hs |]. split; [| split; assumption].
  intros Hrange. apply out_of_bounds_false; fold p.
  - exact Hrange.
  - rewrite Ef. unfold entry. cbn [nth d n_x]. lra.
  - rewrite Ef. unfold entry. cbn [nth d n_y]. lra.
Qed.


Ltac valid_draws_tac :=
  unfold valid_draws, unit_draw; cbn; repeat split; lra.



(** C6, as amended.  With [scale_variation = 0] and
    [rotation_variation = 0] the sampled scale is the midpoint
    (min_scale + max_scale) / 2 and the three angles are zero.  When the
    midpoint lies within [min_scale, max_scale] and, in addition, the
    translation variation is at most 1 in magnitude, [out_of_bounds] is
    false. *)
Theorem no_variation_gives_midpoint_scale_and_no_rotation
    (fs ts : R * R) (mn mx tv : R) (d : draws) :
  let p := plan fs ts mn mx 0 0 tv d in
  sampled_scale p = (mn + mx) / 2
  /\ roll p = 0 /\ pitch p = 0 /\ yaw p = 0
  /\ (valid_draws d -> Rabs tv <= 1 -> mn <= (mn + mx) / 2 <= mx ->
      out_of_bounds p = false
      /\ snd (make_affine_transform fs ts mn mx 0 0 tv d) = false).
Proof.
  intros p.
  destruct (plan_flags fs ts mn mx 0 0 tv d)
    as (Es & Er & Ep & Ey & _ & _ & _ & Ho).
  fold p in Es, Er, Ep, Ey, Ho.
  assert (Hs : sampled_scale p = (mn + mx) / 2)
    by (rewrite Es; unfold uniform; lra).
  split; [exact Hs |].
  split; [rewrite Er; ring |].
  split; [rewrite Ep; ring |].
  split; [rewrite Ey; ring |].
  intros Hd Htv Hmid.
  destruct (trans_test_small_variation fs ts mn mx 0 0 tv d Hd Htv)
    as (_ & _ & Ht).
  pose proof (scale_flag_iff fs ts mn mx 0 0 tv d) as Hf.
  cbv zeta in Hf. fold p in Ht, Hf.
  assert (Hn : scale_flag p = false).
  { destruct (scale_flag p); [| reflexivity].
    destruct Hf as [Hf _]. specialize (Hf eq_refl). lra. }
  assert (Hoob : out_of_bounds p = false) by (rewrite Ho, Hn, Ht; reflexivity).
  split; [exact Hoob | exact Hoob].
Qed.

Lemma no_variation_gives_midpoint_scale_and_no_rotation_witness :
  valid_draws draws_center /\ Rabs 1 <= 1 /\ 0.6 <= (0.6 + 1.1) / 2 <= 1.1
  /\ snd (make_affine_transform (32, 128) (64, 128) 0.6 1.1 0 0 1
                                draws_center) = false.
Proof.
  assert (Hd : valid_draws draws_center) by valid_draws_tac.
  assert (Htv : Rabs 1 <= 1) by (rewrite Rabs_R1; lra).
  assert (Hmid : 0.6 <= (0.6 + 1.1) / 2 <= 1.1) by lra.
  split; [exact Hd |]. split; [exact Htv |]. split; [exact Hmid |].
  destruct (no_variation_gives_midpoint_scale_and_no_rotation
              (32, 128) (64, 128) 0.6 1.1 1 draws_center)
    as (_ & _ & _ & _ & H).
  apply H; assumption.
Defined.

(** C6 as stated fails: with the translation variation 1.2 of the driver a
    draw at the left edge sets the flag although both other variations are
    zero and the midpoint is within range. *)
Lemma no_variation_flagged_by_translation :
  valid_draws draws_left_edge
  /\ 0.6 <= (0.6 + 1.1) / 2 <= 1.1
  /\ snd (make_affine_transform (32, 128) (64, 128) 0.6 1.1 0 0 1.2
                                draws_left_edge) = true.
Proof.
  split; [valid_draws_tac |]. split; [lra |].
  destruct (plan_flags (32, 128) (64, 128) 0.6 1.1 0 0 1.2 draws_left_edge)
    as (_ & _ & _ & _ & Hf & _ & _ & Ho).
  pose proof (trans_test_iff (32, 128) (64, 128) 0.6 1.1 0 0 1.2
                             draws_left_edge) as Ht.
  cbv zeta in Ht.
  unfold make_affine_transform. cbn [snd]. rewrite Ho.
  apply orb_true_iff. right. apply Ht. left. left.
  rewrite Hf. unfold entry. cbn [nth draws_left_edge n_x]. lra.
Qed.

(** C10. For a translation variation between 0 and 1 the translation
    fraction after the transform stays within 0.5 in magnitude on both axes,
    the test on the translation never fires and [out_of_bounds] is decided
    by the sampled scale alone.  The test can only fire for a variation above
    1, and does fire for the 1.2 of the driver.  (Variations are
    non-negative coefficients.) *)
Theorem translation_check_needs_variation_above_one
    (fs ts : R * R) (mn mx sv rv tv : R) (d : draws) :
  valid_draws d -> 0 <= tv ->
  let p := plan fs ts mn mx sv rv tv d in
  (tv <= 1 ->
   Rabs (entry (trans_fraction p) 0 0) <= 0.5
   /\ Rabs (entry (trans_fraction p) 1 0) <= 0.5
   /\ trans_test p = false
   /\ out_of_bounds p = scale_flag p
   /\ (out_of_bounds p = true <->
       sampled_scale p < mn \/ mx < sampled_scale p))
  /\ (trans_test p = true -> 1 < tv)
  /\ (valid_draws draws_left_edge
      /\ trans_test (plan fs ts mn mx sv rv 1.2 draws_left_edge) = true).
Proof.
  intros Hd Htv p.
  assert (Hsmall : tv <= 1 ->
                   Rabs (entry (trans_fraction p) 0 0) <= 0.5
                   /\ Rabs (entry (trans_fraction p) 1 0) <= 0.5
                   /\ trans_test p = false).
  { intros Hle. apply trans_test_small_variation; [assumption |].
    rewrite Rabs_pos_eq; assumption. }
  split; [| split].
  - intros Hle. destruct (Hsmall Hle) as (Bx & By & Ht).
    destruct (plan_flags fs ts mn mx sv rv tv d)
      as (_ & _ & _ & _ & _ & _ & _ & Ho).
    pose proof (scale_flag_iff fs ts mn mx sv rv tv d) as Hs.
    cbv zeta in Hs. fold p in Ho, Hs.
    assert (Heq : out_of_bounds p = scale_flag p)
      by (rewrite Ho, Ht; apply orb_false_r).
    repeat split; try assumption; rewrite Heq; apply Hs.
  - intros Hfire. destruct (Rle_or_lt tv 1) as [Hle | Hgt]; [| exact Hgt].
    destruct (Hsmall Hle) as (_ & _ & Ht). congruence.
  - split; [valid_draws_tac |].
    apply (trans_test_iff fs ts mn mx sv rv 1.2 draws_left_edge).
    left. left.
    destruct (plan_flags fs ts mn mx sv rv 1.2 draws_left_edge)
      as (_ & _ & _ & _ & Hf & _).
    rewrite Hf. unfold entry. cbn [nth draws_left_edge n_x]. lra.
Qed.

Lemma translation_check_needs_variation_above_one_witness :
  valid_draws draws_left_edge /\ 0 <= 1 /\ 1 <= 1
  /\ trans_test (plan (32, 128) (64, 128) 0.6 1.1 1.2 0.9 1 draws_left_edge)
     = false.
Proof.
  assert (Hd : valid_draws draws_left_edge) by valid_draws_tac.
  assert (H0 : 0 <= 1) by lra.
  assert (H1 : 1 <= 1) by lra.
  split; [exact Hd |]. split; [exact H0 |]. split; [exact H1 |].
  destruct (translation_check_needs_variation_above_one
              (32, 128) (64, 128) 0.6 1.1 1.2 0.9 1 draws_left_edge Hd H0)
    as (H & _).
  destruct (H H1) as (_ & _ & Ht & _). exact Ht.
Defined.

Ltac rle_cases :=
  repeat match goal with
         | |- context [Rle_dec ?a ?b] =>
           lazymatch a with context [Rle_dec] => fail | _ => idtac end;
           lazymatch b with context [Rle_dec] => fail | _ => idtac end;
           destruct (Rle_dec a b)
         | |- context [Rcase_abs ?a] => destruct (Rcase_abs a)
         end.

Lemma max4 (t p q x1 x2 x3 x4 : R) :
  x1 = t - p - q -> x2 = t + p - q -> x3 = t - p + q -> x4 = t + p + q ->
  Rmax (Rmax (Rmax x1 x2) x3) x4 = t + (Rabs p + Rabs q).
Proof.
  intros -> -> -> ->. unfold Rmax, Rabs. rle_cases; lra.
Qed.

Lemma min4 (t p q x1 x2 x3 x4 : R) :
  x1 = t - p - q -> x2 = t + p - q -> x3 = t - p + q -> x4 = t + p + q ->
  Rmin (Rmin (Rmin x1 x2) x3) x4 = t - (Rabs p + Rabs q).
Proof.
  intros -> -> -> ->. unfold Rmin, Rabs. rle_cases; lra.
Qed.

(** The planner's transform in closed form: where the corners go on each
    axis. *)
Lemma plan_box_extremes (h w th tw mn mx sv rv tv : R) (d : draws) :
  0 <= w -> 0 <= h ->
  let p := plan (h, w) (th, tw) mn mx sv rv tv d in
  let skw := entry (skewed_size p) 0 0 in
  let skh := entry (skewed_size p) 1 0 in
  let s := fitted_scale p in
  let cx := tw / 2 + (tw - skw * s) * entry (trans_fraction p) 0 0 in
  let cy := th / 2 + (th - skh * s) * entry (trans_fraction p) 1 0 in
  box_low (affine p) (h, w) 0 = cx - Rabs s * skw / 2
  /\ box_high (affine p) (h, w) 0 = cx + Rabs s * skw / 2
  /\ box_low (affine p) (h, w) 1 = cy - Rabs s * skh / 2
  /\ box_high (affine p) (h, w) 1 = cy + Rabs s * skh / 2
  /\ apply_affine (affine p) (w / 2) (h / 2) = [[cx]; [cy]]
  /\ pixel_translation (th, tw) p = [[cx - tw / 2]; [cy - th / 2]].
Proof.
  intros Hw Hh.
  unfold plan, box_low, box_high, apply_affine, pixel_translation,
    source_corners.
  cbv beta iota zeta delta
      [skewed_size fitted_scale sampled_scale affine trans_fraction
       yaw pitch roll fst snd].
  rewrite sub22_euler.
  generalize (entry (euler_to_mat (uniform (-1.2) 1.2 (u_yaw d) * rv)
                (uniform (-0.4) 0.4 (u_pitch d) * rv)
                (uniform (-0.5) 0.5 (u_roll d) * rv)) 0 0) as a.
  generalize (entry (euler_to_mat (uniform (-1.2) 1.2 (u_yaw d) * rv)
                (uniform (-0.4) 0.4 (u_pitch d) * rv)
                (uniform (-0.5) 0.5 (u_roll d) * rv)) 0 1) as b.
  generalize (entry (euler_to_mat (uniform (-1.2) 1.2 (u_yaw d) * rv)
                (uniform (-0.4) 0.4 (u_pitch d) * rv)
                (uniform (-0.5) 0.5 (u_roll d) * rv)) 1 0) as c.
  generalize (entry (euler_to_mat (uniform (-1.2) 1.2 (u_yaw d) * rv)
                (uniform (-0.4) 0.4 (u_pitch d) * rv)
                (uniform (-0.5) 0.5 (u_roll d) * rv)) 1 1) as e.
  intros e c b a.
  rewrite skewed_block by assumption.
  generalize (uniform ((mn + mx) * 0.5 - (mx - mn) * 0.5 * sv)
                ((mn + mx) * 0.5 + (mx - mn) * 0.5 * sv) (u_scale d)
              * amin (mdiv (transpose [[tw; th]])
                           [[Rabs a * w + Rabs b * h];
                            [Rabs c * w + Rabs e * h]])) as s.
  intros s. np_eval.
  generalize ((2.0 * ((n_x d - 0.5) * tv)) ^ 5 / 2.0) as fx.
  generalize ((2.0 * ((n_y d - 0.5) * tv)) ^ 5 / 2.0) as fy.
  intros fy fx.
  set (skw := Rabs a * w + Rabs b * h).
  set (skh := Rabs c * w + Rabs e * h).
  rewrite !(max4 (tw / 2 + (tw - skw * s) * fx)
                 ((s * a) * w / 2) ((s * b) * h / 2)) by lra.
  rewrite !(min4 (tw / 2 + (tw - skw * s) * fx)
                 ((s * a) * w / 2) ((s * b) * h / 2)) by lra.
  rewrite !(max4 (th / 2 + (th - skh * s) * fy)
                 ((s * c) * w / 2) ((s * e) * h / 2)) by lra.
  rewrite !(min4 (th / 2 + (th - skh * s) * fy)
                 ((s * c) * w / 2) ((s * e) * h / 2)) by lra.
  rewrite !Rabs_half by assumption. rewrite !Rabs_mult.
  unfold skw, skh.
  repeat split; try lra; repeat (f_equal; try lra).
Qed.

(** Corners inside the canvas: a sampled scale between 0 and 1 leaves the
    fitted box no larger than the canvas, and a translation fraction of at
    most 1/2 moves it by at most half of the room that is left. *)
Lemma corners_inside_canvas (h w th tw mn mx sv rv tv : R) (d : draws) :
  0 < w -> 0 < h -> 0 <= tw -> 0 <= th ->
  let p := plan (h, w) (th, tw) mn mx sv rv tv d in
  0 < entry (skewed_size p) 0 0 -> 0 < entry (skewed_size p) 1 0 ->
  0 <= sampled_scale p <= 1 ->
  Rabs (entry (trans_fraction p) 0 0) <= 1 / 2 ->
  Rabs (entry (trans_fraction p) 1 0) <= 1 / 2 ->
  0 <= box_low (affine p) (h, w) 0 /\ box_high (affine p) (h, w) 0 <= tw
  /\ 0 <= box_low (affine p) (h, w) 1 /\ box_high (affine p) (h, w) 1 <= th.
Proof.
  intros Hw Hh Htw Hth p Hskw Hskh Hs Fx Fy.
  destruct (plan_box_extremes h w th tw mn mx sv rv tv d)
    as (Lx & Hx & Ly & Hy & _); [lra | lra |].
  destruct (plan_geometry h w th tw mn mx sv rv tv d)
    as (Hsk & Hfit & _); [lra | lra |].
  fold p in Lx, Hx, Ly, Hy, Hsk, Hfit.
  rewrite Lx, Hx, Ly, Hy.
  set (skw := entry (skewed_size p) 0 0) in *.
  set (skh := entry (skewed_size p) 1 0) in *.
  assert (Ew : Rabs (entry (rotation p) 0 0) * w
               + Rabs (entry (rotation p) 0 1) * h = skw)
    by (unfold skw; rewrite Hsk; reflexivity).
  assert (Eh : Rabs (entry (rotation p) 1 0) * w
               + Rabs (entry (rotation p) 1 1) * h = skh)
    by (unfold skh; rewrite Hsk; reflexivity).
  rewrite Ew, Eh in Hfit.
  assert (Qw : 0 <= tw / skw)
    by (unfold Rdiv; apply Rmult_le_pos;
        [assumption | left; apply Rinv_0_lt_compat; assumption]).
  assert (Qh : 0 <= th / skh)
    by (unfold Rdiv; apply Rmult_le_pos;
        [assumption | left; apply Rinv_0_lt_compat; assumption]).
  assert (Hm : 0 <= Rmin (tw / skw) (th / skh))
    by (apply Rmin_glb; assumption).
  assert (Hs0 : 0 <= fitted_scale p) by (rewrite Hfit; nra).
  assert (Sw : fitted_scale p * skw <= tw).
  { pose proof (fitted_bound (sampled_scale p) tw skw (th / skh)
                             Hskw Htw Qh) as B.
    rewrite <- Hfit, (Rabs_pos_eq _ Hs0) in B.
    rewrite (Rabs_pos_eq (sampled_scale p)) in B by lra. nra. }
  assert (Sh : fitted_scale p * skh <= th).
  { pose proof (fitted_bound (sampled_scale p) th skh (tw / skw)
                             Hskh Hth Qw) as B.
    rewrite Rmin_comm, <- Hfit, (Rabs_pos_eq _ Hs0) in B.
    rewrite (Rabs_pos_eq (sampled_scale p)) in B by lra. nra. }
  rewrite (Rabs_pos_eq _ Hs0).
  assert (- (1 / 2) <= entry (trans_fraction p) 0 0 <= 1 / 2)
    by (revert Fx; unfold Rabs; destruct (Rcase_abs _); lra).
  assert (- (1 / 2) <= entry (trans_fraction p) 1 0 <= 1 / 2)
    by (revert Fy; unfold Rabs; destruct (Rcase_abs _); lra).
  repeat split; nra.
Qed.

(** C1, as amended.  For positive shapes, a non-negative [min_scale] and a
    rotated rectangle of positive extent on both axes, a call that returns
    [out_of_bounds = false] yields a transform under which the bounding box
    of the four source corners is at most [max_scale] times the target width
    wide and [max_scale] times the target height high, hence no wider and no
    higher than the canvas when [max_scale <= 1].  When [max_scale <= 1]
    and, in addition, both translation fractions are at most 1/2 in
    magnitude, the box lies inside the canvas: its x coordinates are within
    [0, width] and its y coordinates within [0, height]. *)
Theorem box_within_max_scale_times_canvas
    (h w th tw mn mx sv rv tv : R) (d : draws) :
  0 < w -> 0 < h -> 0 <= tw -> 0 <= th -> 0 <= mn ->
  let p := plan (h, w) (th, tw) mn mx sv rv tv d in
  let A := fst (make_affine_transform (h, w) (th, tw) mn mx sv rv tv d) in
  0 < entry (skewed_size p) 0 0 -> 0 < entry (skewed_size p) 1 0 ->
  snd (make_affine_transform (h, w) (th, tw) mn mx sv rv tv d) = false ->
  box_width A (h, w) <= mx * tw
  /\ box_height A (h, w) <= mx * th
  /\ (mx <= 1 -> box_width A (h, w) <= tw /\ box_height A (h, w) <= th)
  /\ (mx <= 1 ->
      Rabs (entry (trans_fraction p) 0 0) <= 1 / 2 ->
      Rabs (entry (trans_fraction p) 1 0) <= 1 / 2 ->
      0 <= box_low A (h, w) 0 /\ box_high A (h, w) 0 <= tw
      /\ 0 <= box_low A (h, w) 1 /\ box_high A (h, w) 1 <= th).
Proof.
  intros Hw Hh Htw Hth Hmn p A Hskw Hskh Hoob.
  pose proof (corners_inside_canvas h w th tw mn mx sv rv tv d
                                    Hw Hh Htw Hth Hskw Hskh) as Hin.
  fold p in Hin.
  unfold A, make_affine_transform in *. cbn [fst snd] in *.
  fold p in Hoob |- *.
  destruct (plan_geometry h w th tw mn mx sv rv tv d) as (Hsk & Hfit & Bw & Bh);
    [lra | lra |].
  fold p in Hsk, Hfit, Bw, Bh.
  rewrite Hsk in Hskw, Hskh. unfold entry in Hskw at 1, Hskh at 1.
  cbn [nth] in Hskw, Hskh.
  set (skw := Rabs (entry (rotation p) 0 0) * w
              + Rabs (entry (rotation p) 0 1) * h) in *.
  set (skh := Rabs (entry (rotation p) 1 0) * w
              + Rabs (entry (rotation p) 1 1) * h) in *.
  (* the sampled scale is within the configured range *)
  destruct (plan_flags (h, w) (th, tw) mn mx sv rv tv d)
    as (_ & _ & _ & _ & _ & _ & _ & Ho).
  pose proof (scale_flag_iff (h, w) (th, tw) mn mx sv rv tv d) as Hs.
  cbv zeta in Hs. fold p in Ho, Hs.
  rewrite Hoob in Ho. symmetry in Ho. apply orb_false_iff in Ho.
  destruct Ho as [Hflag _].
  assert (Hrange : mn <= sampled_scale p <= mx).
  { split; apply Rnot_lt_le; intros Hc;
      (assert (scale_flag p = true) by (apply Hs; auto)); congruence. }
  assert (Habs : Rabs (sampled_scale p) <= mx)
    by (rewrite Rabs_pos_eq; lra).
  (* the fitted box is at most the sampled scale times the canvas *)
  assert (Hbw : box_width (affine p) (h, w) <= Rabs (sampled_scale p) * tw).
  { rewrite Bw, Hfit. apply fitted_bound; try assumption.
    unfold Rdiv. apply Rmult_le_pos;
      [assumption | left; apply Rinv_0_lt_compat; assumption]. }
  assert (Hbh : box_height (affine p) (h, w) <= Rabs (sampled_scale p) * th).
  { rewrite Bh, Hfit, Rmin_comm. apply fitted_bound; try assumption.
    unfold Rdiv. apply Rmult_le_pos;
      [assumption | left; apply Rinv_0_lt_compat; assumption]. }
  pose proof (Rabs_pos (sampled_scale p)) as Hpos.
  assert (Hw' : box_width (affine p) (h, w) <= mx * tw) by nra.
  assert (Hh' : box_height (affine p) (h, w) <= mx * th) by nra.
  split; [exact Hw' |]. split; [exact Hh' |].
  split; [intros Hmx; split; nra |].
  intros Hmx Fx Fy. apply Hin; [lra | exact Fx | exact Fy].
Qed.

Lemma box_within_max_scale_times_canvas_witness :
  0 < 128 /\ 0 < 32 /\ 0 <= 128 /\ 0 <= 64 /\ 0 <= 0.6
  /\ snd (make_affine_transform (32, 128) (64, 128) 0.6 1.1 1.2 0.9 1.2
                                draws_center) = false
  /\ box_width (fst (make_affine_transform (32, 128) (64, 128)
                       0.6 1.1 1.2 0.9 1.2 draws_center)) (32, 128)
     <= 1.1 * 128
  /\ box_height (fst (make_affine_transform (32, 128) (64, 128)
                        0.6 1.1 1.2 0.9 1.2 draws_center)) (32, 128)
     <= 1.1 * 64.
Proof.
  assert (Hw : 0 < 128) by lra.
  assert (Hh : 0 < 32) by lra.
  assert (Htw : 0 <= 128) by lra.
  assert (Hth : 0 <= 64) by lra.
  assert (Hmn : 0 <= 0.6) by lra.
  assert (Hd : valid_draws draws_center) by valid_draws_tac.
  assert (Hrv : Rabs 0.9 <= 5 / 4) by (rewrite Rabs_pos_eq; lra).
  destruct (plan_skewed_pos 32 128 64 128 0.6 1.1 1.2 0.9 1.2 draws_center
                            Hd Hrv Hw Hh) as [Hskw Hskh].
  destruct (plan_driver_centered (1 / 2)) as (Hs & Hoob & _).
  assert (Ho : snd (make_affine_transform (32, 128) (64, 128)
                      0.6 1.1 1.2 0.9 1.2 draws_center) = false)
    by (apply Hoob; rewrite Hs; lra).
  destruct (box_within_max_scale_times_canvas
              32 128 64 128 0.6 1.1 1.2 0.9 1.2 draws_center
              Hw Hh Htw Hth Hmn Hskw Hskh Ho) as (Bw & Bh & _ & _).
  repeat split; assumption.
Defined.

(** C1 as stated fails for [max_scale > 1]: in the configuration of the
    driver a scale of 1.1 is within bounds and the box is 140.8 wide on a
    canvas of width 128. *)
Lemma box_exceeds_canvas_at_scale_above_one :
  valid_draws draws_large_scale
  /\ snd (make_affine_transform (32, 128) (64, 128) 0.6 1.1 1.2 0.9 1.2
                                draws_large_scale) = false
  /\ box_width (fst (make_affine_transform (32, 128) (64, 128)
                       0.6 1.1 1.2 0.9 1.2 draws_large_scale)) (32, 128)
     = 140.8
  /\ 128 + 12 < 140.8.
Proof.
  split; [valid_draws_tac |].
  destruct (plan_driver_centered (11 / 12)) as (Hs & Hoob & Bw & _).
  split; [apply Hoob; rewrite Hs; lra |].
  split; [| lra].
  unfold make_affine_transform. cbn [fst].
  unfold draws_large_scale. rewrite Bw, Hs, Rabs_pos_eq; lra.
Qed.

(** ** Plate code generator *)

Module CodeProps.
Import Code.
Open Scope nat_scope.

Lemma prefix_app (bad code : string) :
  String.prefix bad code = true <-> exists post, code = (bad ++ post)%string.
Proof.
  revert code. induction bad as [| a bad IH]; intros code; cbn.
  - destruct code; (split; [intros _; eexists; reflexivity | reflexivity]).
  - destruct code as [| b code]; cbn.
    + split; [discriminate | intros [post H]; discriminate].
    + destruct (ascii_dec a b) as [-> | Hne].
      * rewrite IH. split; intros [post H]; exists post.
        -- now subst.
        -- now inversion H.
      * split; [discriminate | intros [post H]; inversion H; congruence].
Qed.

Lemma contains_nil (bad : string) :
  contains bad EmptyString = String.prefix bad EmptyString || false.
Proof. reflexivity. Qed.

Lemma contains_cons (bad : string) (b : ascii) (code : string) :
  contains bad (String b code)
  = String.prefix bad (String b code) || contains bad code.
Proof. reflexivity. Qed.

(** [contains] decides the substring relation. *)
Lemma contains_substring (bad code : string) :
  contains bad code = true <-> substring_of bad code.
Proof.
  unfold substring_of. induction code as [| b code IH].
  - rewrite contains_nil, orb_false_r, prefix_app. split.
    + intros [post H]. exists EmptyString, post. exact H.
    + intros (pre & post & H). destruct pre; [exists post; exact H |].
      discriminate.
  - rewrite contains_cons, orb_true_iff, IH, prefix_app. split.
    + intros [[post H] | (pre & post & H)].
      * exists EmptyString, post. exact H.
      * exists (String b pre), post. cbn. now rewrite H.
    + intros (pre & post & H). destruct pre as [| c pre]; cbn in H.
      * left. exists post. exact H.
      * right. inversion H. exists pre, post. reflexivity.
Qed.

Section Generator.

Variables LETTERS DIGITS : string.
Variable rand : nat -> nat.

Local Abbreviation draw := (draw_code LETTERS DIGITS rand).
Local Abbreviation loop := (generate_code_loop LETTERS DIGITS rand).

(** One iteration reads six consecutive draws. *)
Lemma draw_code_inv (i i' : nat) (c : string) :
  draw i = Ret (c, i') ->
  i' = i + 6 /\ drawn_at LETTERS DIGITS rand i c.
Proof.
  unfold drawn_at, draw_code, bind, choice, ret, pick.
  replace (i + 1) with (S i) by lia.
  replace (i + 2) with (S (S i)) by lia.
  replace (i + 3) with (S (S (S i))) by lia.
  replace (i + 4) with (S (S (S (S i)))) by lia.
  replace (i + 5) with (S (S (S (S (S i))))) by lia.
  destruct (get (rand i mod _) LETTERS) as [l1 |]; [| discriminate].
  destruct (get (rand (S i) mod _) LETTERS) as [l2 |]; [| discriminate].
  destruct (get (rand (S (S i)) mod _) LETTERS) as [l3 |]; [| discriminate].
  destruct (get (rand (S (S (S i))) mod _) DIGITS) as [d1 |];
    [| discriminate].
  destruct (get (rand (S (S (S (S i)))) mod _) DIGITS) as [d2 |];
    [| discriminate].
  destruct (get (rand (S (S (S (S (S i))))) mod _) DIGITS) as [d3 |];
    [| discriminate].
  intros H. inversion H. split; [lia |].
  exists l1, l2, l3, d1, d2, d3. repeat split; reflexivity.
Qed.

Lemma get_below (s : string) (k : nat) :
  k < String.length s -> exists c, String.get k s = Some c.
Proof.
  revert k. induction s as [| a s IH]; intros k Hk; cbn in Hk; [lia |].
  destruct k as [| k]; cbn; [eauto |]. apply IH. lia.
Qed.

Lemma choice_total (s : string) (i : nat) :
  s <> EmptyString -> exists c, choice rand s i = Ret (c, S i).
Proof.
  intros Hs. unfold choice.
  destruct (get_below s (rand i mod String.length s)) as [c Hc].
  - apply Nat.mod_upper_bound. destruct s; [contradiction | cbn; lia].
  - exists c. now rewrite Hc.
Qed.

(** With non-empty alphabets an iteration always produces a code. *)
Lemma draw_code_total (i : nat) :
  LETTERS <> EmptyString -> DIGITS <> EmptyString ->
  exists c, draw i = Ret (c, i + 6).
Proof.
  intros HL HD. unfold draw_code, bind, ret.
  destruct (choice_total LETTERS i HL) as [l1 ->].
  destruct (choice_total LETTERS (S i) HL) as [l2 ->].
  destruct (choice_total LETTERS (S (S i)) HL) as [l3 ->].
  destruct (choice_total DIGITS (S (S (S i))) HD) as [d1 ->].
  destruct (choice_total DIGITS (S (S (S (S i)))) HD) as [d2 ->].
  destruct (choice_total DIGITS (S (S (S (S (S i))))) HD) as [d3 ->].
  eexists. repeat f_equal. lia.
Qed.

Lemma drawn_at_format (j : nat) (c : string) :
  drawn_at LETTERS DIGITS rand j c -> plate_format LETTERS DIGITS c.
Proof.
  intros (l1 & l2 & l3 & d1 & d2 & d3 & -> & H1 & H2 & H3 & H4 & H5 & H6).
  exists l1, l2, l3, d1, d2, d3. unfold member, pick in *.
  repeat split; eauto.
Qed.

Lemma draw_code_nonempty (i i' : nat) (c : string) :
  draw i = Ret (c, i') -> String.eqb c EmptyString = false.
Proof.
  intros H. apply draw_code_inv in H.
  destruct H as (_ & l1 & l2 & l3 & d1 & d2 & d3 & -> & _). reflexivity.
Qed.

(** The loop condition on a drawn code only asks the denylist. *)
Lemma again_drawn (country : option string) (i i' : nat) (c : string) :
  draw i = Ret (c, i') ->
  again country (Some c)
  = match banned_combinations country with
    | Some bans => Ret (existsb (fun bad => contains bad c) bans)
    | None => KeyError
    end.
Proof.
  intros H. unfold again. now rewrite (draw_code_nonempty _ _ _ H).
Qed.

(** Every result of the loop is either the code it was entered with, when
    that one is acceptable, or the code of the last iteration. *)
Lemma loop_sound (country : option string) (fuel : nat) :
  forall (code0 : option string) (i i' : nat) (r : option string),
    loop fuel country code0 i = Ret (r, i') ->
    (r = code0 /\ i' = i /\ again country code0 = Ret false)
    \/ (exists k c, r = Some c /\ i' = i + 6 * (k + 1)
                    /\ draw (i + 6 * k) = Ret (c, i')
                    /\ again country (Some c) = Ret false).
Proof.
  induction fuel as [| fuel IH]; intros code0 i i' r;
    cbn [generate_code_loop].
  - destruct (again country code0) as [[|] | | |] eqn:E; try discriminate.
    intros H. inversion H. left. auto.
  - destruct (again country code0) as [[|] | | |] eqn:E; try discriminate.
    + destruct (draw i) as [[c j] | | |] eqn:D; try discriminate.
      pose proof (draw_code_inv _ _ _ D) as [Hj _].
      intros H. apply IH in H.
      destruct H as [(-> & -> & Ha) | (k & c' & -> & -> & Hd & Ha)].
      * right. exists 0, c. rewrite Nat.mul_0_r, Nat.add_0_r.
        repeat split; try assumption; lia.
      * right. exists (S k), c'. subst j.
        replace (i + 6 * S k) with (i + 6 + 6 * k) by lia.
        repeat split; try assumption; try lia.
    + intros H. inversion H. left. auto.
Qed.

(** If the iterations before the [k]-th all draw rejected codes and the
    [k]-th draws an accepted one, more than [k] units of fuel return it. *)
Lemma loop_complete (country : option string) (bans : list string)
    (k : nat) :
  banned_combinations country = Some bans ->
  forall (fuel : nat) (code0 : option string) (i : nat) (c : string),
    again country code0 = Ret true ->
    (forall j, j < k ->
       exists cj, draw (i + 6 * j) = Ret (cj, i + 6 * j + 6)
                  /\ existsb (fun bad => contains bad cj) bans = true) ->
    draw (i + 6 * k) = Ret (c, i + 6 * k + 6) ->
    existsb (fun bad => contains bad c) bans = false ->
    k < fuel ->
    loop fuel country code0 i = Ret (Some c, i + 6 * (k + 1)).
Proof.
  intros Hb. induction k as [| k IH]; intros fuel code0 i c Ha Hrej Hd Hacc Hf.
  - destruct fuel as [| fuel]; [lia |]. cbn [generate_code_loop].
    rewrite Ha. rewrite Nat.mul_0_r, Nat.add_0_r in Hd. rewrite Hd.
    destruct fuel; cbn [generate_code_loop];
      rewrite (again_drawn _ _ _ _ Hd), Hb, Hacc; repeat f_equal; lia.
  - destruct fuel as [| fuel]; [lia |]. cbn [generate_code_loop].
    rewrite Ha.
    destruct (Hrej 0) as (c0 & D0 & R0); [lia |].
    rewrite Nat.mul_0_r, Nat.add_0_r in D0. rewrite D0.
    replace (i + 6 * (S k + 1)) with (i + 6 + 6 * (k + 1)) by lia.
    apply IH.
    + rewrite (again_drawn _ _ _ _ D0), Hb, R0. reflexivity.
    + intros j Hj. destruct (Hrej (S j)) as (cj & Dj & Rj); [lia |].
      exists cj. replace (i + 6 + 6 * j) with (i + 6 * S j) by lia.
      split; assumption.
    + replace (i + 6 + 6 * k) with (i + 6 * S k) by lia. exact Hd.
    + exact Hacc.
    + lia.
Qed.

(** What [generate_code] returns is a code drawn in the last of one or
    more iterations and accepted by the loop condition. *)
Lemma generate_code_sound (country : option string) (fuel i i' : nat)
    (r : option string) :
  generate_code LETTERS DIGITS rand fuel country i = Ret (r, i') ->
  exists k c, r = Some c /\ i' = i + 6 * (k + 1)
              /\ drawn_at LETTERS DIGITS rand (i + 6 * k) c
              /\ again country (Some c) = Ret false.
Proof.
  intros H. apply loop_sound in H.
  destruct H as [(_ & _ & Ha) | (k & c & Hr & Hi & Hd & Ha)];
    [discriminate |].
  exists k, c. apply draw_code_inv in Hd. tauto.
Qed.

End Generator.

(** A code that the loop condition lets through has no banned part. *)
Lemma accepted_avoids (bans : list string) (c : string) :
  existsb (fun bad => contains bad c) bans = false ->
  forall bad, In bad bans ->
              contains bad c = false /\ ~ substring_of bad c.
Proof.
  intros He bad Hin.
  assert (Hc : contains bad c = false).
  { destruct (contains bad c) eqn:E; [| reflexivity].
    assert (existsb (fun bad => contains bad c) bans = true)
      by (apply existsb_exists; eauto).
    congruence. }
  split; [exact Hc |].
  intros Hs. apply contains_substring in Hs. congruence.
Qed.

(** C5. For a locale with a denylist (such as "se"), a code returned by
    [generate_code] contains none of the banned entries: no entry occurs in
    the returned string, space included, as a run of consecutive identical
    (case-sensitive) characters.  The call does return such a code as soon
    as one is drawn and the fuel exceeds the number of rejected draws. *)
Theorem generate_code_avoids_denylist (LETTERS DIGITS : string)
    (rand : nat -> nat) (country : option string) (bans : list string)
    (i : nat) :
  banned_combinations country = Some bans ->
  (forall fuel i' r,
      generate_code LETTERS DIGITS rand fuel country i = Ret (r, i') ->
      exists code,
        r = Some code
        /\ forall bad, In bad bans ->
                       contains bad code = false /\ ~ substring_of bad code)
  /\ (forall k c,
      (forall j, j < k ->
         exists cj,
           draw_code LETTERS DIGITS rand (i + 6 * j)
           = Ret (cj, i + 6 * j + 6)
           /\ existsb (fun bad => contains bad cj) bans = true) ->
      draw_code LETTERS DIGITS rand (i + 6 * k) = Ret (c, i + 6 * k + 6) ->
      existsb (fun bad => contains bad c) bans = false ->
      forall fuel, k < fuel ->
        generate_code LETTERS DIGITS rand fuel country i
        = Ret (Some c, i + 6 * (k + 1))
        /\ forall bad, In bad bans -> ~ substring_of bad c).
Proof.
  intros Hb. split.
  - intros fuel i' r H. apply generate_code_sound in H.
    destruct H as (k & c & -> & _ & Hd & Ha).
    exists c. split; [reflexivity |].
    assert (Hne : String.eqb c EmptyString = false).
    { destruct Hd as (l1 & l2 & l3 & d1 & d2 & d3 & -> & _). reflexivity. }
    unfold again in Ha. rewrite Hne, Hb in Ha.
    apply accepted_avoids. congruence.
  - intros k c Hrej Hd Hacc fuel Hf. split.
    + apply (loop_complete LETTERS DIGITS rand country bans k); auto.
    + intros bad Hin. apply (accepted_avoids bans c Hacc bad Hin).
Qed.

Lemma generate_code_avoids_denylist_witness :
  exists bans,
    banned_combinations (Some "se"%string) = Some bans
    /\ In "APA"%string bans
    /\ generate_code LETTERS_AZ DIGITS_09 stream_apa_abc 5
                     (Some "se"%string) 0
       = Ret (Some "ABC 123"%string, 12)
    /\ forall bad, In bad bans ->
                   contains bad "ABC 123" = false
                   /\ ~ substring_of bad "ABC 123".
Proof.
  eexists. split; [reflexivity |]. split; [cbn; auto |].
  assert (Hrun : generate_code LETTERS_AZ DIGITS_09 stream_apa_abc 5
                               (Some "se"%string) 0
                 = Ret (Some "ABC 123"%string, 12))
    by (vm_compute; reflexivity).
  split; [exact Hrun |].
  intros bad Hin.
  destruct (generate_code_avoids_denylist
              LETTERS_AZ DIGITS_09 stream_apa_abc (Some "se"%string)
              _ 0 eq_refl) as (Hsound & _).
  destruct (Hsound 5 12 (Some "ABC 123"%string) Hrun) as (code & Hc & Hall).
  inversion Hc. subst code. apply Hall. exact Hin.
Defined.

(** *** The outcomes of one iteration

    [random.choice(seq)] returns [seq[i]] for an index [i] that the
    generator draws uniformly below [len(seq)], afresh at every call.  The
    six indices of one iteration therefore range over [outcomes], each
    element being as likely as any other.  What follows counts, among these
    outcomes, those that give a code or a character. *)

Import Outcomes.

Lemma tuples_in (bounds : list nat) :
  forall rs, In rs (tuples bounds) <-> Forall2 lt rs bounds.
Proof.
  induction bounds as [| n rest IH]; intros rs; cbn [tuples].
  - split.
    + intros [<- | []]. constructor.
    + intros H. inversion H. now left.
  - rewrite in_flat_map. split.
    + intros (r & Hr & Hin). apply in_map_iff in Hin.
      destruct Hin as (t & <- & Ht). apply in_seq in Hr.
      constructor; [lia | now apply IH].
    + intros H. inversion H as [| r n' t rest' Hlt Ht]; subst.
      exists r. split; [apply in_seq; lia |].
      apply in_map. now apply IH.
Qed.

Lemma tuples_length (bounds : list nat) :
  List.length (tuples bounds) = fold_right Nat.mul 1 bounds.
Proof.
  induction bounds as [| n rest IH]; [reflexivity |].
  cbn [tuples fold_right]. rewrite <- IH.
  generalize 0 as start. induction n as [| n IHn]; intros start;
    [reflexivity |].
  cbn [seq flat_map]. rewrite length_app, length_map, IHn. lia.
Qed.

Lemma nodup_map_cons (r : nat) (l : list (list nat)) :
  NoDup l -> NoDup (map (cons r) l).
Proof.
  induction 1 as [| t l Hnin Hnd IH]; cbn [map]; constructor; [| exact IH].
  intros Hin. apply in_map_iff in Hin. destruct Hin as (t0 & E & Ht0).
  inversion E. subst. contradiction.
Qed.

Lemma tuples_nodup (bounds : list nat) : NoDup (tuples bounds).
Proof.
  induction bounds as [| n rest IH]; cbn [tuples].
  - constructor; [intros [] | constructor].
  - assert (H : forall start,
               NoDup (flat_map (fun r => map (cons r) (tuples rest))
                               (seq start n))
               /\ forall t, In t (flat_map (fun r => map (cons r)
                                                        (tuples rest))
                                           (seq start n)) ->
                            exists r t', t = r :: t' /\ start <= r).
    { induction n as [| n IHn]; intros start; cbn [seq flat_map].
      - split; [constructor | intros t []].
      - destruct (IHn (S start)) as [Hnd Hge]. split.
        + apply NoDup_app.
          * apply nodup_map_cons. exact IH.
          * exact Hnd.
          * intros t Ht Ht'. apply in_map_iff in Ht.
            destruct Ht as (t0 & <- & _).
            destruct (Hge _ Ht') as (r & t' & E & Hr). inversion E. lia.
        + intros t Ht. apply in_app_or in Ht. destruct Ht as [Ht | Ht].
          * apply in_map_iff in Ht. destruct Ht as (t0 & <- & _).
            exists start, t0. split; [reflexivity | lia].
          * destruct (Hge _ Ht) as (r & t' & E & Hr).
            exists r, t'. split; [exact E | lia]. }
    apply H.
Qed.

Lemma get_in (s : string) :
  forall k c, String.get k s = Some c -> In c (list_ascii_of_string s).
Proof.
  induction s as [| a s IH]; intros k c H; [destruct k; discriminate |].
  destruct k as [| k]; cbn in H.
  - inversion H. now left.
  - right. apply (IH k). exact H.
Qed.

Lemma get_length (s : string) :
  forall k c, String.get k s = Some c -> k < String.length s.
Proof.
  induction s as [| a s IH]; intros k c H; [destruct k; discriminate |].
  destruct k as [| k]; cbn in *; [lia |].
  apply IH in H. lia.
Qed.

(** In an alphabet without repeated characters a character has one index. *)
Lemma get_injective (s : string) :
  distinct s ->
  forall i j c, String.get i s = Some c -> String.get j s = Some c -> i = j.
Proof.
  unfold distinct. induction s as [| a s IH]; intros Hnd i j c Hi Hj;
    [destruct i; discriminate |].
  cbn [list_ascii_of_string] in Hnd. inversion Hnd as [| x l Hnin Hnd'].
  subst. destruct i as [| i], j as [| j]; cbn in Hi, Hj.
  - reflexivity.
  - inversion Hi. subst. apply get_in in Hj. contradiction.
  - inversion Hj. subst. apply get_in in Hi. contradiction.
  - f_equal. apply (IH Hnd' i j c); assumption.
Qed.

Lemma filter_none {A : Type} (f : A -> bool) (l : list A) :
  (forall y, In y l -> f y = false) -> filter f l = [].
Proof.
  induction l as [| a l IH]; intros H; [reflexivity |].
  cbn [filter]. rewrite (H a) by now left.
  apply IH. intros y Hy. apply H. now right.
Qed.

Lemma count_one {A : Type} (f : A -> bool) (x : A) (l : list A) :
  NoDup l -> In x l -> f x = true ->
  (forall y, In y l -> f y = true -> y = x) ->
  List.length (filter f l) = 1.
Proof.
  induction 1 as [| a l Hnin Hnd IH]; intros Hin Hfx Hu; [contradiction |].
  cbn [filter]. destruct Hin as [-> | Hin].
  - rewrite Hfx. cbn [List.length]. f_equal.
    assert (E : filter f l = []).
    { apply filter_none. intros y Hy.
      destruct (f y) eqn:Ey; [| reflexivity].
      assert (y = x) by (apply Hu; [now right | exact Ey]).
      subst. contradiction. }
    now rewrite E.
  - assert (Hne : a <> x) by (intros ->; contradiction).
    destruct (f a) eqn:Ea.
    + exfalso. apply Hne. apply Hu; [now left | exact Ea].
    + apply IH; try assumption. intros y Hy. apply Hu. now right.
Qed.

(** The code that an outcome yields: the characters at its six indices. *)
Lemma code_of_outcome_chars (LETTERS DIGITS : string)
    (r1 r2 r3 r4 r5 r6 : nat) (l1 l2 l3 d1 d2 d3 : ascii) :
  String.get r1 LETTERS = Some l1 -> String.get r2 LETTERS = Some l2 ->
  String.get r3 LETTERS = Some l3 -> String.get r4 DIGITS = Some d1 ->
  String.get r5 DIGITS = Some d2 -> String.get r6 DIGITS = Some d3 ->
  code_of_outcome LETTERS DIGITS [r1; r2; r3; r4; r5; r6]
  = Some (String l1 (String l2 (String l3 (String " "
            (String d1 (String d2 (String d3 EmptyString))))))).
Proof.
  intros H1 H2 H3 H4 H5 H6.
  pose proof (get_length _ _ _ H1). pose proof (get_length _ _ _ H2).
  pose proof (get_length _ _ _ H3). pose proof (get_length _ _ _ H4).
  pose proof (get_length _ _ _ H5). pose proof (get_length _ _ _ H6).
  unfold code_of_outcome, generate_code.
  cbn [generate_code_loop again].
  unfold draw_code, bind, choice, ret, stream_of.
  cbn [nth]. rewrite (Nat.mod_small r1), H1 by assumption.
  cbn [nth]. rewrite (Nat.mod_small r2), H2 by assumption.
  cbn [nth]. rewrite (Nat.mod_small r3), H3 by assumption.
  cbn [nth]. rewrite (Nat.mod_small r4), H4 by assumption.
  cbn [nth]. rewrite (Nat.mod_small r5), H5 by assumption.
  cbn [nth]. rewrite (Nat.mod_small r6), H6 by assumption.
  reflexivity.
Qed.

Lemma outcome_shape (LETTERS DIGITS : string) (rs : list nat) :
  In rs (outcomes LETTERS DIGITS) <->
  exists r1 r2 r3 r4 r5 r6,
    rs = [r1; r2; r3; r4; r5; r6]
    /\ r1 < String.length LETTERS /\ r2 < String.length LETTERS
    /\ r3 < String.length LETTERS /\ r4 < String.length DIGITS
    /\ r5 < String.length DIGITS /\ r6 < String.length DIGITS.
Proof.
  unfold outcomes. rewrite tuples_in. split.
  - intros H.
    repeat match goal with
           | H : Forall2 _ _ (_ :: _) |- _ => inversion H; clear H; subst
           | H : Forall2 _ _ [] |- _ => inversion H; clear H; subst
           end.
    do 6 eexists. repeat split; eassumption.
  - intros (r1 & r2 & r3 & r4 & r5 & r6 & -> & H).
    repeat constructor; tauto.
Qed.

Lemma outcome_code (LETTERS DIGITS : string) (rs : list nat) :
  In rs (outcomes LETTERS DIGITS) ->
  exists r1 r2 r3 r4 r5 r6 l1 l2 l3 d1 d2 d3,
    rs = [r1; r2; r3; r4; r5; r6]
    /\ String.get r1 LETTERS = Some l1 /\ String.get r2 LETTERS = Some l2
    /\ String.get r3 LETTERS = Some l3 /\ String.get r4 DIGITS = Some d1
    /\ String.get r5 DIGITS = Some d2 /\ String.get r6 DIGITS = Some d3
    /\ code_of_outcome LETTERS DIGITS rs
       = Some (String l1 (String l2 (String l3 (String " "
                 (String d1 (String d2 (String d3 EmptyString))))))).
Proof.
  intros H. apply outcome_shape in H.
  destruct H as (r1 & r2 & r3 & r4 & r5 & r6 & -> & B1 & B2 & B3 & B4 & B5
                 & B6).
  destruct (get_below _ _ B1) as [l1 G1].
  destruct (get_below _ _ B2) as [l2 G2].
  destruct (get_below _ _ B3) as [l3 G3].
  destruct (get_below _ _ B4) as [d1 G4].
  destruct (get_below _ _ B5) as [d2 G5].
  destruct (get_below _ _ B6) as [d3 G6].
  exists r1, r2, r3, r4, r5, r6, l1, l2, l3, d1, d2, d3.
  repeat (split; [first [reflexivity | assumption] |]).
  now apply code_of_outcome_chars.
Qed.

(** Over alphabets without repeated characters every formatted code comes
    from exactly one outcome. *)
Lemma one_outcome_per_code (LETTERS DIGITS : string) (code : string) :
  distinct LETTERS -> distinct DIGITS ->
  plate_format LETTERS DIGITS code ->
  List.length (filter (yields LETTERS DIGITS code)
                      (outcomes LETTERS DIGITS)) = 1.
Proof.
  intros HL HD (l1 & l2 & l3 & d1 & d2 & d3 & -> & [k1 G1] & [k2 G2]
                & [k3 G3] & [k4 G4] & [k5 G5] & [k6 G6]).
  apply (count_one _ [k1; k2; k3; k4; k5; k6]).
  - apply tuples_nodup.
  - apply outcome_shape. do 6 eexists.
    split; [reflexivity |].
    repeat split; eapply get_length; eassumption.
  - unfold yields.
    rewrite (code_of_outcome_chars _ _ _ _ _ _ _ _ _ _ _ _ _ _
               G1 G2 G3 G4 G5 G6).
    apply String.eqb_refl.
  - intros rs Hin Hy. apply outcome_code in Hin.
    destruct Hin as (r1 & r2 & r3 & r4 & r5 & r6 & a1 & a2 & a3 & b1 & b2
                     & b3 & -> & E1 & E2 & E3 & E4 & E5 & E6 & Hc).
    unfold yields in Hy. rewrite Hc in Hy. apply String.eqb_eq in Hy.
    inversion Hy. subst.
    rewrite (get_injective _ HL _ _ _ E1 G1), (get_injective _ HL _ _ _ E2 G2),
      (get_injective _ HL _ _ _ E3 G3), (get_injective _ HD _ _ _ E4 G4),
      (get_injective _ HD _ _ _ E5 G5), (get_injective _ HD _ _ _ E6 G6).
    reflexivity.
Qed.

(** *** Each character on its own *)

Lemma count_head (r r' : nat) (T : list (list nat)) :
  List.length (filter (fun rs => nth 0 rs 0 =? r) (map (cons r') T))
  = if r' =? r then List.length T else 0.
Proof.
  induction T as [| t T IH]; cbn [map filter nth].
  - now destruct (r' =? r).
  - destruct (r' =? r); cbn [List.length]; rewrite IH; reflexivity.
Qed.

Lemma count_tail (k r r' : nat) (T : list (list nat)) :
  List.length (filter (fun rs => nth (S k) rs 0 =? r) (map (cons r') T))
  = List.length (filter (fun rs => nth k rs 0 =? r) T).
Proof.
  induction T as [| t T IH]; [reflexivity |].
  cbn [map filter nth]. destruct (nth k t 0 =? r); cbn [List.length];
    rewrite IH; reflexivity.
Qed.

Lemma count_blocks {A : Type} (f : A -> bool) (g : nat -> list A) (c : nat) :
  (forall r, List.length (filter f (g r)) = c) ->
  forall n start,
    List.length (filter f (flat_map g (seq start n))) = n * c.
Proof.
  intros H. induction n as [| n IH]; intros start; [reflexivity |].
  cbn [seq flat_map]. rewrite filter_app, length_app, H, IH. lia.
Qed.

Lemma count_head_blocks (r : nat) (T : list (list nat)) :
  forall n start,
    List.length (filter (fun rs => nth 0 rs 0 =? r)
                   (flat_map (fun r' => map (cons r') T) (seq start n)))
    = if (start <=? r) && (r <? start + n) then List.length T else 0.
Proof.
  induction n as [| n IH]; intros start.
  - cbn [seq flat_map filter List.length].
    destruct (start <=? r) eqn:E1, (r <? start + 0) eqn:E2; try reflexivity.
    apply Nat.leb_le in E1. apply Nat.ltb_lt in E2. lia.
  - cbn [seq flat_map]. rewrite filter_app, length_app, count_head, IH.
    destruct (Nat.eqb_spec start r) as [E0 | E0];
      destruct (Nat.leb_spec (S start) r) as [E1 | E1];
      destruct (Nat.ltb_spec r (S start + n)) as [E2 | E2];
      destruct (Nat.leb_spec start r) as [E3 | E3];
      destruct (Nat.ltb_spec r (start + S n)) as [E4 | E4];
      cbn [andb]; lia.
Qed.

(** Among the tuples below [bounds], those with a given index at position
    [k] are one in [nth k bounds 0]. *)
Lemma tuples_count_at (bounds : list nat) :
  forall k r,
    k < List.length bounds -> r < nth k bounds 0 ->
    List.length (filter (fun rs => nth k rs 0 =? r) (tuples bounds))
    * nth k bounds 0
    = fold_right Nat.mul 1 bounds.
Proof.
  induction bounds as [| n rest IH]; intros k r Hk Hr;
    [cbn in Hk; lia |].
  cbn [tuples fold_right]. destruct k as [| k].
  - cbn [nth] in *. rewrite count_head_blocks.
    replace (0 <=? r) with true by (symmetry; apply Nat.leb_le; lia).
    replace (r <? 0 + n) with true by (symmetry; apply Nat.ltb_lt; lia).
    cbn [andb]. rewrite tuples_length. lia.
  - cbn [nth] in *. cbn [List.length] in Hk.
    rewrite (count_blocks _ _
               (List.length (filter (fun rs => nth k rs 0 =? r)
                               (tuples rest)))).
    + rewrite <- Nat.mul_assoc. f_equal. apply IH; [lia | exact Hr].
    + intros r'. apply count_tail.
Qed.

Lemma same_character (s : string) (i r : nat) (a c : ascii) :
  distinct s -> String.get i s = Some a -> String.get r s = Some c ->
  Ascii.eqb a c = (i =? r).
Proof.
  intros Hd Hi Hr. destruct (Ascii.eqb_spec a c) as [-> | Hne].
  - symmetry. apply Nat.eqb_eq. apply (get_injective s Hd i r c Hi Hr).
  - symmetry. apply Nat.eqb_neq. intros ->. congruence.
Qed.

(** Over alphabets without repeated characters, each character of its
    alphabet stands at a given place in one outcome out of the size of the
    alphabet. *)
Lemma one_character_in_alphabet (LETTERS DIGITS : string) (k : nat)
    (c : ascii) :
  distinct LETTERS -> distinct DIGITS -> k < 6 ->
  member c (alphabet LETTERS DIGITS k) ->
  List.length (filter (shows LETTERS DIGITS (place k) c)
                 (outcomes LETTERS DIGITS))
  * String.length (alphabet LETTERS DIGITS k)
  = List.length (outcomes LETTERS DIGITS).
Proof.
  intros HL HD Hk [r Hr].
  assert (Hb : r < String.length (alphabet LETTERS DIGITS k))
    by (eapply get_length; exact Hr).
  rewrite (filter_ext_in (shows LETTERS DIGITS (place k) c)
             (fun rs => nth k rs 0 =? r)).
  - unfold outcomes. rewrite tuples_length.
    replace (String.length (alphabet LETTERS DIGITS k))
      with (nth k [String.length LETTERS; String.length LETTERS;
                   String.length LETTERS; String.length DIGITS;
                   String.length DIGITS; String.length DIGITS] 0).
    + apply tuples_count_at; [exact Hk |].
      do 6 (destruct k as [| k]; [exact Hb |]). cbn in Hk. lia.
    + do 6 (destruct k as [| k]; [reflexivity |]). lia.
  - intros rs Hin. apply outcome_code in Hin.
    destruct Hin as (r1 & r2 & r3 & r4 & r5 & r6 & a1 & a2 & a3 & b1 & b2
                     & b3 & -> & E1 & E2 & E3 & E4 & E5 & E6 & Hc).
    unfold shows. rewrite Hc.
    do 6 (destruct k as [| k];
          [cbn [place Nat.ltb Nat.leb String.get nth alphabet] in *;
           first [ now apply (same_character LETTERS _ r)
                 | now apply (same_character DIGITS _ r) ] |]).
    lia.
Qed.

(** The code drawn at cursor [i] is the code of the outcome that the stream
    hands out there, and that outcome is one of the listed ones. *)
Lemma drawn_at_outcome (LETTERS DIGITS : string) (rand : nat -> nat)
    (i : nat) (code : string) :
  drawn_at LETTERS DIGITS rand i code ->
  In (outcome_at LETTERS DIGITS rand i) (outcomes LETTERS DIGITS)
  /\ code_of_outcome LETTERS DIGITS (outcome_at LETTERS DIGITS rand i)
     = Some code.
Proof.
  intros (l1 & l2 & l3 & d1 & d2 & d3 & -> & G1 & G2 & G3 & G4 & G5 & G6).
  unfold pick in *. split.
  - apply outcome_shape. do 6 eexists. split; [reflexivity |].
    repeat split; eapply get_length; eassumption.
  - now apply code_of_outcome_chars.
Qed.

Lemma outcomes_length (LETTERS DIGITS : string) :
  List.length (outcomes LETTERS DIGITS)
  = String.length LETTERS * String.length LETTERS * String.length LETTERS
    * (String.length DIGITS * String.length DIGITS * String.length DIGITS).
Proof.
  unfold outcomes. rewrite tuples_length. cbn [fold_right]. lia.
Qed.

Lemma outcome_format (LETTERS DIGITS : string) (rs : list nat) :
  In rs (outcomes LETTERS DIGITS) ->
  exists code,
    code_of_outcome LETTERS DIGITS rs = Some code
    /\ plate_format LETTERS DIGITS code.
Proof.
  intros H. apply outcome_code in H.
  destruct H as (r1 & r2 & r3 & r4 & r5 & r6 & a1 & a2 & a3 & b1 & b2
                 & b3 & -> & E1 & E2 & E3 & E4 & E5 & E6 & Hc).
  eexists. split; [exact Hc |].
  exists a1, a2, a3, b1, b2, b3. split; [reflexivity |].
  repeat split; eexists; eassumption.
Qed.

Lemma distinct_LETTERS_AZ : distinct LETTERS_AZ.
Proof.
  unfold distinct. cbn.
  repeat (constructor; [cbn; intuition discriminate |]). constructor.
Qed.

Lemma distinct_DIGITS_09 : distinct DIGITS_09.
Proof.
  unfold distinct. cbn.
  repeat (constructor; [cbn; intuition discriminate |]). constructor.
Qed.

(** C7. Whatever [generate_code] returns is a string of three letters, a
    space and three digits, each character being an independent
    [random.choice] from its alphabet (so characters may repeat).  With
    [country=None] the first code drawn is accepted: for any positive fuel
    the call returns after one iteration, that is after six draws.  In
    general the call returns the first drawn code that the denylist
    accepts, as soon as the fuel exceeds the number of rejected draws.

    The draw is uniform and with replacement.  The six indices that the
    [random.choice] calls of an iteration draw range over [outcomes], the
    [len(LETTERS)^3 * len(DIGITS)^3] equally likely lists of one index per
    choice, and the code that a call returns is the code of the outcome
    that the random source handed to its last iteration.  Every outcome
    gives a code of the format.  When no alphabet repeats a character,
    every code of the format is the code of exactly one outcome, and every
    character of the alphabet of a choice stands at the place of that
    choice in one outcome out of the size of the alphabet, whatever the
    other five choices are. *)
Theorem generate_code_format_and_first_draw (LETTERS DIGITS : string)
    (rand : nat -> nat) :
  (forall fuel country i i' r,
      generate_code LETTERS DIGITS rand fuel country i = Ret (r, i') ->
      exists k code,
        r = Some code /\ i' = i + 6 * (k + 1)
        /\ drawn_at LETTERS DIGITS rand (i + 6 * k) code
        /\ plate_format LETTERS DIGITS code)
  /\ (LETTERS <> EmptyString -> DIGITS <> EmptyString ->
      forall fuel i,
      exists code,
        generate_code LETTERS DIGITS rand (S fuel) None i
        = Ret (Some code, i + 6)
        /\ drawn_at LETTERS DIGITS rand i code
        /\ plate_format LETTERS DIGITS code)
  /\ (forall country bans k i c,
      banned_combinations country = Some bans ->
      (forall j, j < k ->
         exists cj,
           draw_code LETTERS DIGITS rand (i + 6 * j)
           = Ret (cj, i + 6 * j + 6)
           /\ existsb (fun bad => contains bad cj) bans = true) ->
      draw_code LETTERS DIGITS rand (i + 6 * k) = Ret (c, i + 6 * k + 6) ->
      existsb (fun bad => contains bad c) bans = false ->
      forall fuel, k < fuel ->
        generate_code LETTERS DIGITS rand fuel country i
        = Ret (Some c, i + 6 * (k + 1)))
  /\ (List.length (outcomes LETTERS DIGITS)
      = String.length LETTERS * String.length LETTERS
        * String.length LETTERS
        * (String.length DIGITS * String.length DIGITS
           * String.length DIGITS))
  /\ (forall fuel country i i' r,
      generate_code LETTERS DIGITS rand fuel country i = Ret (r, i') ->
      exists k,
        i' = i + 6 * (k + 1)
        /\ In (outcome_at LETTERS DIGITS rand (i + 6 * k))
              (outcomes LETTERS DIGITS)
        /\ code_of_outcome LETTERS DIGITS
             (outcome_at LETTERS DIGITS rand (i + 6 * k)) = r)
  /\ (forall rs,
      In rs (outcomes LETTERS DIGITS) ->
      exists code,
        code_of_outcome LETTERS DIGITS rs = Some code
        /\ plate_format LETTERS DIGITS code)
  /\ (distinct LETTERS -> distinct DIGITS ->
      (forall code,
          plate_format LETTERS DIGITS code ->
          List.length (filter (yields LETTERS DIGITS code)
                         (outcomes LETTERS DIGITS)) = 1)
      /\ (forall k c,
            k < 6 -> member c (alphabet LETTERS DIGITS k) ->
            List.length (filter (shows LETTERS DIGITS (place k) c)
                           (outcomes LETTERS DIGITS))
            * String.length (alphabet LETTERS DIGITS k)
            = List.length (outcomes LETTERS DIGITS))).
Proof.
  split; [| split; [| split; [| split; [| split; [| split]]]]].
  - intros fuel country i i' r H. apply generate_code_sound in H.
    destruct H as (k & c & Hr & Hi & Hd & _).
    exists k, c. repeat split; try assumption.
    apply (drawn_at_format _ _ _ _ _ Hd).
  - intros HL HD fuel i.
    destruct (draw_code_total LETTERS DIGITS rand i HL HD) as [c Hc].
    exists c. pose proof (draw_code_inv _ _ _ _ _ _ Hc) as [_ Hd].
    split; [| split; [exact Hd | apply (drawn_at_format _ _ _ _ _ Hd)]].
    replace (i + 6) with (i + 6 * (0 + 1)) by lia.
    apply (loop_complete LETTERS DIGITS rand None [] 0);
      try reflexivity; try lia.
    rewrite Nat.mul_0_r, Nat.add_0_r. exact Hc.
  - intros country bans k i c Hb Hrej Hd Hacc fuel Hf.
    apply (loop_complete LETTERS DIGITS rand country bans k); auto.
  - apply outcomes_length.
  - intros fuel country i i' r H. apply generate_code_sound in H.
    destruct H as (k & c & -> & Hi & Hd & _).
    exists k. split; [exact Hi |]. apply drawn_at_outcome. exact Hd.
  - apply outcome_format.
  - intros HL HD. split.
    + intros code Hf. now apply one_outcome_per_code.
    + intros k c Hk Hm. now apply one_character_in_alphabet.
Qed.

Lemma generate_code_format_and_first_draw_witness :
  LETTERS_AZ <> EmptyString /\ DIGITS_09 <> EmptyString
  /\ generate_code LETTERS_AZ DIGITS_09 stream_apa_abc 1 None 0
     = Ret (Some "APA 000"%string, 6)
  /\ plate_format LETTERS_AZ DIGITS_09 "APA 000"
  /\ List.length (filter (yields LETTERS_AZ DIGITS_09 "APA 000")
                    (outcomes LETTERS_AZ DIGITS_09)) = 1
  /\ List.length (filter (shows LETTERS_AZ DIGITS_09 0 "P")
                    (outcomes LETTERS_AZ DIGITS_09)) * 26
     = List.length (outcomes LETTERS_AZ DIGITS_09).
Proof.
  assert (HL : LETTERS_AZ <> EmptyString) by discriminate.
  assert (HD : DIGITS_09 <> EmptyString) by discriminate.
  split; [exact HL |]. split; [exact HD |].
  destruct (generate_code_format_and_first_draw
              LETTERS_AZ DIGITS_09 stream_apa_abc)
    as (_ & Hone & _ & _ & _ & _ & Huni).
  destruct (Hone HL HD 0 0) as (code & Hrun & _ & Hfmt).
  assert (Hcode : code = "APA 000"%string).
  { assert (E : generate_code LETTERS_AZ DIGITS_09 stream_apa_abc 1 None 0
                = Ret (Some "APA 000"%string, 6))
      by (vm_compute; reflexivity).
    rewrite E in Hrun. inversion Hrun. reflexivity. }
  subst code.
  destruct (Huni distinct_LETTERS_AZ distinct_DIGITS_09) as [Hcodes Hchars].
  split; [exact Hrun |]. split; [exact Hfmt |].
  split; [exact (Hcodes _ Hfmt) |].
  apply (Hchars 0 "P"%char); [lia | exists 15; reflexivity].
Defined.

End CodeProps.

(** ** Compositing and the sample generator *)

Lemma map2_length {A B C : Type} (f : A -> B -> C) (u : list A) :
  forall v, List.length u = List.length v ->
            List.length (map2 f u v) = List.length u.
Proof.
  induction u as [| x u IH]; intros [| y v] H; cbn in *;
    try reflexivity; try discriminate.
  f_equal. apply IH. lia.
Qed.

Lemma nth_map2 {A B C : Type} (f : A -> B -> C) (da : A) (db : B) (dc : C)
    (u : list A) :
  forall (v : list B) (i : nat),
    List.length u = List.length v -> (i < List.length u)%nat ->
    nth i (map2 f u v) dc = f (nth i u da) (nth i v db).
Proof.
  induction u as [| x u IH]; intros [| y v] i H Hi; cbn in *;
    try lia; try discriminate.
  destruct i as [| i]; [reflexivity |]. apply IH; lia.
Qed.

Lemma has_shape_row (sh : nat * nat) (m : matrix) (i : nat) :
  has_shape sh m -> (i < fst sh)%nat ->
  List.length (nth i m []) = snd sh.
Proof.
  intros [Hl Hr] Hi. rewrite Forall_forall in Hr.
  apply Hr, nth_In. lia.
Qed.

Lemma ewise_shape (f : R -> R -> R) (sh : nat * nat) (a b : matrix) :
  has_shape sh a -> has_shape sh b -> has_shape sh (ewise f a b).
Proof.
  intros [La Ra] [Lb Rb]. unfold ewise. split.
  - rewrite map2_length; lia.
  - revert b sh La Lb Ra Rb.
    induction a as [| ra a IH]; intros [| rb b] sh La Lb Ra Rb; cbn;
      try constructor.
    + inversion Ra; inversion Rb; subst. rewrite map2_length; lia.
    + inversion Ra; inversion Rb; subst.
      apply (IH b (List.length a, snd sh)); cbn in *; try assumption; lia.
Qed.

Lemma ewise_entry (f : R -> R -> R) (sh : nat * nat) (a b : matrix)
    (i j : nat) :
  has_shape sh a -> has_shape sh b -> (i < fst sh)%nat -> (j < snd sh)%nat ->
  entry (ewise f a b) i j = f (entry a i j) (entry b i j).
Proof.
  intros Ha Hb Hi Hj. unfold entry, ewise.
  pose proof (has_shape_row sh a i Ha Hi) as Ra.
  pose proof (has_shape_row sh b i Hb Hi) as Rb.
  destruct Ha as [La _], Hb as [Lb _].
  rewrite (nth_map2 (map2 f) [] []) by lia.
  apply nth_map2; lia.
Qed.

Lemma emap_shape (g : R -> R) (sh : nat * nat) (m : matrix) :
  has_shape sh m -> has_shape sh (emap g m).
Proof.
  intros [L Rw]. unfold emap. split.
  - now rewrite length_map.
  - rewrite Forall_forall in *. intros r Hr.
    apply in_map_iff in Hr. destruct Hr as (r0 & <- & Hr0).
    rewrite length_map. auto.
Qed.

Lemma emap_entry (g : R -> R) (sh : nat * nat) (m : matrix) (i j : nat) :
  has_shape sh m -> (i < fst sh)%nat -> (j < snd sh)%nat ->
  entry (emap g m) i j = g (entry m i j).
Proof.
  intros Hm Hi Hj. unfold entry, emap.
  pose proof (has_shape_row sh m i Hm Hi) as Rm.
  change (@nil R) with (map g []) at 1. rewrite map_nth.
  rewrite (nth_indep _ 0 (g 0)) by (rewrite length_map; lia).
  apply map_nth.
Qed.

Lemma matrix_ext (sh : nat * nat) (a b : matrix) :
  has_shape sh a -> has_shape sh b ->
  (forall i j, (i < fst sh)%nat -> (j < snd sh)%nat ->
               entry a i j = entry b i j) ->
  a = b.
Proof.
  intros Ha Hb H.
  apply (nth_ext a b [] []); [destruct Ha, Hb; lia |].
  intros i Hi. assert (Hi' : (i < fst sh)%nat) by (destruct Ha; lia).
  apply (nth_ext _ _ 0 0).
  - rewrite (has_shape_row sh a i), (has_shape_row sh b i); auto.
  - intros j Hj. rewrite (has_shape_row sh a i) in Hj by auto.
    apply H; assumption.
Qed.

Lemma repeat_shape (x : R) (sh : nat * nat) :
  has_shape sh (repeat (repeat x (snd sh)) (fst sh)).
Proof.
  split; [apply repeat_length |].
  apply Forall_forall. intros r Hr. apply repeat_spec in Hr. subst.
  apply repeat_length.
Qed.

Lemma repeat_entry (x : R) (sh : nat * nat) (i j : nat) :
  (i < fst sh)%nat -> (j < snd sh)%nat ->
  entry (repeat (repeat x (snd sh)) (fst sh)) i j = x.
Proof.
  intros Hi Hj. unfold entry.
  rewrite (nth_indep _ [] (repeat x (snd sh)))
    by (rewrite repeat_length; lia).
  rewrite nth_repeat.
  rewrite (nth_indep _ 0 x) by (rewrite repeat_length; lia).
  apply nth_repeat.
Qed.

(** The blend, pixel by pixel. *)
Lemma composite_entry (sh : nat * nat) (plate mask bg : matrix) (i j : nat) :
  has_shape sh plate -> has_shape sh mask -> has_shape sh bg ->
  (i < fst sh)%nat -> (j < snd sh)%nat ->
  entry (composite plate mask bg) i j
  = entry plate i j * entry mask i j
    + entry bg i j * (1 - entry mask i j).
Proof.
  intros Hp Hm Hb Hi Hj. unfold composite, madd, mmul.
  pose proof (emap_shape (fun x => 1.0 - x) sh mask Hm) as Hm'.
  rewrite (ewise_entry _ sh), !(ewise_entry _ sh), (emap_entry _ sh);
    try assumption; try (apply ewise_shape; assumption).
  lra.
Qed.

Lemma composite_shape (sh : nat * nat) (plate mask bg : matrix) :
  has_shape sh plate -> has_shape sh mask -> has_shape sh bg ->
  has_shape sh (composite plate mask bg).
Proof.
  intros Hp Hm Hb. unfold composite, madd, mmul.
  repeat apply ewise_shape; try assumption. apply emap_shape; assumption.
Qed.

(** What [generate_im] returns, with the calls to the collaborators in the
    order of the source. *)
Lemma generate_im_unfold {plate_data : Type} (cv : collaborators plate_data)
    (pd : plate_data) (n : nat) (d : draws) :
  let bg := generate_bg cv n in
  let plate := fst (generate_plate cv pd) in
  let code := snd (generate_plate cv pd) in
  let planned :=
    make_affine_transform (float_shape (shape plate)) (float_shape (shape bg))
                          0.6 1.1 1.2 0.9 1.2 d in
  let dsize := (snd (shape bg), fst (shape bg)) in
  generate_im cv pd n d
  = (emap (fun x => x / 255)
          (resize cv
             (composite (warpAffine cv plate (fst planned) dsize)
                        (warpAffine cv (ones (shape plate)) (fst planned)
                                    dsize)
                        bg)
             (128, 64)%nat),
     code,
     negb (snd planned)).
Proof.
  unfold generate_im. destruct (generate_plate cv pd) as [plate code].
  reflexivity.
Qed.

(** C8. The image that [generate_im] resizes is the blend
    [plate * mask + bg * (1 - mask)], taken pixel by pixel over arrays of
    one shape; with an all-zero mask the blend is the background, with an
    all-ones mask it is the warped plate. *)
Theorem composite_is_alpha_blend {plate_data : Type}
    (cv : collaborators plate_data) (pd : plate_data) (n : nat) (d : draws)
    (sh : nat * nat) (plate mask bg : matrix) :
  has_shape sh plate -> has_shape sh mask -> has_shape sh bg ->
  (forall i j, (i < fst sh)%nat -> (j < snd sh)%nat ->
     entry (composite plate mask bg) i j
     = entry plate i j * entry mask i j + entry bg i j * (1 - entry mask i j))
  /\ (mask = zeros sh -> composite plate mask bg = bg)
  /\ (mask = ones sh -> composite plate mask bg = plate)
  /\ (let M := fst (make_affine_transform
                      (float_shape (shape (fst (generate_plate cv pd))))
                      (float_shape (shape (generate_bg cv n)))
                      0.6 1.1 1.2 0.9 1.2 d) in
      let dsize := (snd (shape (generate_bg cv n)),
                    fst (shape (generate_bg cv n))) in
      fst (fst (generate_im cv pd n d))
      = emap (fun x => x / 255)
             (resize cv
                (composite
                   (warpAffine cv (fst (generate_plate cv pd)) M dsize)
                   (warpAffine cv (ones (shape (fst (generate_plate cv pd))))
                               M dsize)
                   (generate_bg cv n))
                (128, 64)%nat)).
Proof.
  intros Hp Hm Hb.
  pose proof (composite_shape sh plate mask bg Hp Hm Hb) as Hc.
  split; [| split; [| split]].
  - intros i j Hi Hj. apply (composite_entry sh); assumption.
  - intros ->. apply (matrix_ext sh); try assumption.
    intros i j Hi Hj.
    rewrite (composite_entry sh) by assumption.
    unfold zeros. rewrite repeat_entry by assumption. ring.
  - intros ->. apply (matrix_ext sh); try assumption.
    intros i j Hi Hj.
    rewrite (composite_entry sh) by assumption.
    unfold ones. rewrite repeat_entry by assumption. ring.
  - cbv zeta. rewrite generate_im_unfold. reflexivity.
Qed.

Ltac shape_tac := split; [reflexivity | repeat constructor].

Lemma composite_is_alpha_blend_witness :
  has_shape (1, 2)%nat [[10; 20]]
  /\ has_shape (1, 2)%nat (zeros (1, 2)%nat)
  /\ has_shape (1, 2)%nat [[1; 1]]
  /\ composite [[10; 20]] (zeros (1, 2)%nat) [[1; 1]] = [[1; 1]].
Proof.
  assert (Hp : has_shape (1, 2)%nat [[10; 20]]) by shape_tac.
  assert (Hm : has_shape (1, 2)%nat (zeros (1, 2)%nat)) by shape_tac.
  assert (Hb : has_shape (1, 2)%nat [[1; 1]]) by shape_tac.
  split; [exact Hp |]. split; [exact Hm |]. split; [exact Hb |].
  destruct (composite_is_alpha_blend sample_collaborators tt 0 draws_center
              (1, 2)%nat [[10; 20]] (zeros (1, 2)%nat) [[1; 1]] Hp Hm Hb)
    as (_ & Hz & _).
  apply Hz. reflexivity.
Defined.

(** C9. For every input [generate_im] returns a triple whose validity is the
    negation of the flag returned by [make_affine_transform]; the image and
    the code are produced in the same way whether the flag is set or not. *)
Theorem generate_im_validity_is_not_out_of_bounds {plate_data : Type}
    (cv : collaborators plate_data) (pd : plate_data) (n : nat) (d : draws) :
  let bg := generate_bg cv n in
  let plate := fst (generate_plate cv pd) in
  let code := snd (generate_plate cv pd) in
  let planned :=
    make_affine_transform (float_shape (shape plate)) (float_shape (shape bg))
                          0.6 1.1 1.2 0.9 1.2 d in
  let dsize := (snd (shape bg), fst (shape bg)) in
  let image :=
    emap (fun x => x / 255)
         (resize cv
            (composite (warpAffine cv plate (fst planned) dsize)
                       (warpAffine cv (ones (shape plate)) (fst planned)
                                   dsize)
                       bg)
            (128, 64)%nat) in
  snd (generate_im cv pd n d) = negb (snd planned)
  /\ generate_im cv pd n d = (image, code, negb (snd planned))
  /\ (snd planned = true -> generate_im cv pd n d = (image, code, false))
  /\ (snd planned = false -> generate_im cv pd n d = (image, code, true)).
Proof.
  intros bg plate code planned dsize image.
  pose proof (generate_im_unfold cv pd n d) as H. cbv zeta in H.
  fold bg plate code planned dsize image in H.
  rewrite H. cbn [snd].
  repeat split; try reflexivity; intros ->; reflexivity.
Qed.

Lemma generate_im_validity_is_not_out_of_bounds_witness :
  snd (make_affine_transform (float_shape (1, 2)%nat) (float_shape (1, 2)%nat)
                             0.6 1.1 1.2 0.9 1.2 draws_left_edge) = true
  /\ snd (generate_im sample_collaborators tt 0 draws_left_edge) = false.
Proof.
  destruct (generate_im_validity_is_not_out_of_bounds
              sample_collaborators tt 0 draws_left_edge)
    as (Hv & _ & _ & _).
  assert (Ho : snd (make_affine_transform (float_shape (1, 2)%nat)
                      (float_shape (1, 2)%nat)
                      0.6 1.1 1.2 0.9 1.2 draws_left_edge) = true).
  { unfold make_affine_transform. cbn [snd].
    destruct (plan_flags (float_shape (1, 2)%nat) (float_shape (1, 2)%nat)
                         0.6 1.1 1.2 0.9 1.2 draws_left_edge)
      as (_ & _ & _ & _ & Hf & _ & _ & Hoob).
    pose proof (trans_test_iff (float_shape (1, 2)%nat)
                  (float_shape (1, 2)%nat)
                  0.6 1.1 1.2 0.9 1.2 draws_left_edge) as Ht.
    cbv zeta in Ht. rewrite Hoob. apply orb_true_iff. right.
    apply Ht. left. left. rewrite Hf. unfold entry.
    cbn [nth draws_left_edge n_x]. lra. }
  split; [exact Ho |]. rewrite Hv.
  change (negb (snd (make_affine_transform
                       (float_shape (1, 2)%nat) (float_shape (1, 2)%nat)
                       0.6 1.1 1.2 0.9 1.2 draws_left_edge)) = false).
  rewrite Ho. reflexivity.
Defined.

(** * Further properties of the source *)

(** ** Where the planner puts the plate *)

(** X1. For a positive source shape and a skewed size that is positive on
    both axes, the centre of the source lands at the centre of the canvas
    moved by the pixel translation; when both translation draws are 1/2 it
    lands on the centre itself. *)
Theorem source_centre_goes_to_canvas_centre_plus_translation
    (h w th tw mn mx sv rv tv : R) (d : draws) :
  0 < w -> 0 < h ->
  let p := plan (h, w) (th, tw) mn mx sv rv tv d in
  0 < entry (skewed_size p) 0 0 -> 0 < entry (skewed_size p) 1 0 ->
  apply_affine (fst (make_affine_transform (h, w) (th, tw) mn mx sv rv tv d))
               (w / 2) (h / 2)
  = madd (pixel_translation (th, tw) p) [[tw / 2]; [th / 2]]
  /\ (n_x d = 1 / 2 -> n_y d = 1 / 2 ->
      apply_affine (affine p) (w / 2) (h / 2) = [[tw / 2]; [th / 2]]).
Proof.
  intros Hw Hh p _ _. unfold p. clear p.
  unfold make_affine_transform, plan, apply_affine, pixel_translation.
  cbv beta iota zeta delta
      [skewed_size fitted_scale sampled_scale affine trans_fraction
       yaw pitch roll fst snd].
  rewrite sub22_euler.
  generalize (entry (euler_to_mat (uniform (-1.2) 1.2 (u_yaw d) * rv)
                (uniform (-0.4) 0.4 (u_pitch d) * rv)
                (uniform (-0.5) 0.5 (u_roll d) * rv)) 0 0) as a.
  generalize (entry (euler_to_mat (uniform (-1.2) 1.2 (u_yaw d) * rv)
                (uniform (-0.4) 0.4 (u_pitch d) * rv)
                (uniform (-0.5) 0.5 (u_roll d) * rv)) 0 1) as b.
  generalize (entry (euler_to_mat (uniform (-1.2) 1.2 (u_yaw d) * rv)
                (uniform (-0.4) 0.4 (u_pitch d) * rv)
                (uniform (-0.5) 0.5 (u_roll d) * rv)) 1 0) as c.
  generalize (entry (euler_to_mat (uniform (-1.2) 1.2 (u_yaw d) * rv)
                (uniform (-0.4) 0.4 (u_pitch d) * rv)
                (uniform (-0.5) 0.5 (u_roll d) * rv)) 1 1) as e.
  intros e c b a. np_eval.
  split.
  - repeat (f_equal; try lra).
  - intros -> ->. repeat (f_equal; try lra).
Qed.

Lemma source_centre_goes_to_canvas_centre_plus_translation_witness :
  0 < 128 /\ 0 < 32
  /\ apply_affine (affine (plan (32, 128) (64, 128) 0.6 1.1 1.2 0.9 1.2
                                draws_center)) (128 / 2) (32 / 2)
     = [[128 / 2]; [64 / 2]].
Proof.
  assert (Hw : 0 < 128) by lra.
  assert (Hh : 0 < 32) by lra.
  assert (Hd : valid_draws draws_center) by valid_draws_tac.
  assert (Hrv : Rabs 0.9 <= 5 / 4) by (rewrite Rabs_pos_eq; lra).
  destruct (plan_skewed_pos 32 128 64 128 0.6 1.1 1.2 0.9 1.2 draws_center
                            Hd Hrv Hw Hh) as [Hskw Hskh].
  split; [exact Hw |]. split; [exact Hh |].
  destruct (source_centre_goes_to_canvas_centre_plus_translation
              32 128 64 128 0.6 1.1 1.2 0.9 1.2 draws_center
              Hw Hh Hskw Hskh) as [_ Hc].
  apply Hc; reflexivity.
Defined.

Lemma sampled_scale_range (fs ts : R * R) (mn mx sv rv tv : R) (d : draws) :
  unit_draw (u_scale d) -> mn <= mx -> Rabs sv <= 1 ->
  mn <= sampled_scale (plan fs ts mn mx sv rv tv d) <= mx.
Proof.
  intros [H0 H1] Hle Hsv.
  destruct (plan_flags fs ts mn mx sv rv tv d) as (Es & _).
  rewrite Es. unfold uniform.
  assert (Hv : - 1 <= sv <= 1)
    by (revert Hsv; unfold Rabs; destruct (Rcase_abs sv); lra).
  assert (Hp : - 1 <= sv * (2 * u_scale d - 1) <= 1) by (split; nra).
  set (v := sv * (2 * u_scale d - 1)) in *.
  replace ((mn + mx) * 0.5 - (mx - mn) * 0.5 * sv
           + ((mn + mx) * 0.5 + (mx - mn) * 0.5 * sv
              - ((mn + mx) * 0.5 - (mx - mn) * 0.5 * sv)) * u_scale d)
    with ((mn + mx) * 0.5 + (mx - mn) * 0.5 * v) by (unfold v; lra).
  split; nra.
Qed.

(** X3. The fitted scale is as large as the canvas allows: the bounding box
    of the transformed corners is exactly the sampled scale times the canvas
    on one of the two axes (and, by the planner's bound, not more on the
    other). *)
Theorem fitted_box_touches_scaled_canvas_on_one_axis
    (h w th tw mn mx sv rv tv : R) (d : draws) :
  0 < w -> 0 < h -> 0 <= tw -> 0 <= th ->
  let p := plan (h, w) (th, tw) mn mx sv rv tv d in
  0 < entry (skewed_size p) 0 0 -> 0 < entry (skewed_size p) 1 0 ->
  (box_width (affine p) (h, w) = Rabs (sampled_scale p) * tw
   \/ box_height (affine p) (h, w) = Rabs (sampled_scale p) * th)
  /\ box_width (affine p) (h, w) <= Rabs (sampled_scale p) * tw
  /\ box_height (affine p) (h, w) <= Rabs (sampled_scale p) * th.
Proof.
  intros Hw Hh Htw Hth p Hskw Hskh.
  destruct (plan_geometry h w th tw mn mx sv rv tv d) as (Hsk & Hfit & Bw & Bh);
    [lra | lra |].
  fold p in Hsk, Hfit, Bw, Bh.
  rewrite Hsk in Hskw, Hskh. unfold entry in Hskw at 1, Hskh at 1.
  cbn [nth] in Hskw, Hskh.
  set (skw := Rabs (entry (rotation p) 0 0) * w
              + Rabs (entry (rotation p) 0 1) * h) in *.
  set (skh := Rabs (entry (rotation p) 1 0) * w
              + Rabs (entry (rotation p) 1 1) * h) in *.
  assert (Qw : 0 <= tw / skw)
    by (unfold Rdiv; apply Rmult_le_pos;
        [assumption | left; apply Rinv_0_lt_compat; assumption]).
  assert (Qh : 0 <= th / skh)
    by (unfold Rdiv; apply Rmult_le_pos;
        [assumption | left; apply Rinv_0_lt_compat; assumption]).
  split; [| split].
  - rewrite Bw, Bh, Hfit, Rabs_mult.
    unfold Rmin. destruct (Rle_dec (tw / skw) (th / skh)).
    + left. rewrite (Rabs_pos_eq _ Qw). field. lra.
    + right. rewrite (Rabs_pos_eq _ Qh). field. lra.
  - rewrite Bw, Hfit. apply fitted_bound; assumption.
  - rewrite Bh, Hfit, Rmin_comm. apply fitted_bound; assumption.
Qed.

Lemma fitted_box_touches_scaled_canvas_on_one_axis_witness :
  0 < 128 /\ 0 < 32 /\ 0 <= 128 /\ 0 <= 64
  /\ box_width (affine (plan (32, 128) (64, 128) 0.6 1.1 1.2 0.9 1.2
                             draws_center)) (32, 128)
     <= Rabs (sampled_scale (plan (32, 128) (64, 128) 0.6 1.1 1.2 0.9 1.2
                                  draws_center)) * 128.
Proof.
  assert (Hw : 0 < 128) by lra.
  assert (Hh : 0 < 32) by lra.
  assert (Htw : 0 <= 128) by lra.
  assert (Hth : 0 <= 64) by lra.
  assert (Hd : valid_draws draws_center) by valid_draws_tac.
  assert (Hrv : Rabs 0.9 <= 5 / 4) by (rewrite Rabs_pos_eq; lra).
  destruct (plan_skewed_pos 32 128 64 128 0.6 1.1 1.2 0.9 1.2 draws_center
                            Hd Hrv Hw Hh) as [Hskw Hskh].
  repeat (split; [assumption |]).
  apply (fitted_box_touches_scaled_canvas_on_one_axis
           32 128 64 128 0.6 1.1 1.2 0.9 1.2 draws_center
           Hw Hh Htw Hth Hskw Hskh).
Defined.

(** X4. When the sampled scale is between 0 and 1 and both translation
    fractions are at most 1/2 in magnitude, the transformed plate lies
    inside the canvas: every corner has its x coordinate in [0, width] and
    its y coordinate in [0, height].  This is the case for every draw when
    [0 <= min_scale <= max_scale <= 1] and the scale and translation
    variations are at most 1 in magnitude. *)
Theorem plate_inside_canvas_for_scale_at_most_one
    (h w th tw mn mx sv rv tv : R) (d : draws) :
  0 < w -> 0 < h -> 0 <= tw -> 0 <= th ->
  let p := plan (h, w) (th, tw) mn mx sv rv tv d in
  0 < entry (skewed_size p) 0 0 -> 0 < entry (skewed_size p) 1 0 ->
  (0 <= sampled_scale p <= 1 ->
   Rabs (entry (trans_fraction p) 0 0) <= 1 / 2 ->
   Rabs (entry (trans_fraction p) 1 0) <= 1 / 2 ->
   0 <= box_low (affine p) (h, w) 0 /\ box_high (affine p) (h, w) 0 <= tw
   /\ 0 <= box_low (affine p) (h, w) 1 /\ box_high (affine p) (h, w) 1 <= th)
  /\ (valid_draws d -> 0 <= mn -> mn <= mx -> mx <= 1 ->
      Rabs sv <= 1 -> Rabs tv <= 1 ->
      0 <= box_low (affine p) (h, w) 0 /\ box_high (affine p) (h, w) 0 <= tw
      /\ 0 <= box_low (affine p) (h, w) 1
      /\ box_high (affine p) (h, w) 1 <= th).
Proof.
  intros Hw Hh Htw Hth p Hskw Hskh.
  assert (Main : 0 <= sampled_scale p <= 1 ->
                 Rabs (entry (trans_fraction p) 0 0) <= 1 / 2 ->
                 Rabs (entry (trans_fraction p) 1 0) <= 1 / 2 ->
                 0 <= box_low (affine p) (h, w) 0
                 /\ box_high (affine p) (h, w) 0 <= tw
                 /\ 0 <= box_low (affine p) (h, w) 1
                 /\ box_high (affine p) (h, w) 1 <= th).
  { intros Hs Fx Fy.
    destruct (plan_box_extremes h w th tw mn mx sv rv tv d)
      as (Lx & Hx & Ly & Hy & _); [lra | lra |].
    destruct (plan_geometry h w th tw mn mx sv rv tv d)
      as (Hsk & Hfit & _); [lra | lra |].
    fold p in Lx, Hx, Ly, Hy, Hsk, Hfit.
    rewrite Lx, Hx, Ly, Hy.
    set (skw := entry (skewed_size p) 0 0) in *.
    set (skh := entry (skewed_size p) 1 0) in *.
    assert (Ew : Rabs (entry (rotation p) 0 0) * w
                 + Rabs (entry (rotation p) 0 1) * h = skw)
      by (unfold skw; rewrite Hsk; reflexivity).
    assert (Eh : Rabs (entry (rotation p) 1 0) * w
                 + Rabs (entry (rotation p) 1 1) * h = skh)
      by (unfold skh; rewrite Hsk; reflexivity).
    rewrite Ew, Eh in Hfit.
    assert (Qw : 0 <= tw / skw)
      by (unfold Rdiv; apply Rmult_le_pos;
          [assumption | left; apply Rinv_0_lt_compat; assumption]).
    assert (Qh : 0 <= th / skh)
      by (unfold Rdiv; apply Rmult_le_pos;
          [assumption | left; apply Rinv_0_lt_compat; assumption]).
    assert (Hm : 0 <= Rmin (tw / skw) (th / skh))
      by (apply Rmin_glb; assumption).
    assert (Hs0 : 0 <= fitted_scale p) by (rewrite Hfit; nra).
    assert (Sw : fitted_scale p * skw <= tw).
    { pose proof (fitted_bound (sampled_scale p) tw skw (th / skh)
                               Hskw Htw Qh) as B.
      rewrite <- Hfit, (Rabs_pos_eq _ Hs0) in B.
      rewrite (Rabs_pos_eq (sampled_scale p)) in B by lra. nra. }
    assert (Sh : fitted_scale p * skh <= th).
    { pose proof (fitted_bound (sampled_scale p) th skh (tw / skw)
                               Hskh Hth Qw) as B.
      rewrite Rmin_comm, <- Hfit, (Rabs_pos_eq _ Hs0) in B.
      rewrite (Rabs_pos_eq (sampled_scale p)) in B by lra. nra. }
    rewrite (Rabs_pos_eq _ Hs0).
    assert (- (1 / 2) <= entry (trans_fraction p) 0 0 <= 1 / 2)
      by (revert Fx; unfold Rabs; destruct (Rcase_abs _); lra).
    assert (- (1 / 2) <= entry (trans_fraction p) 1 0 <= 1 / 2)
      by (revert Fy; unfold Rabs; destruct (Rcase_abs _); lra).
    repeat split; nra. }
  split; [exact Main |].
  intros Hd Hmn Hle Hmx Hsv Htv.
  destruct (trans_test_small_variation (h, w) (th, tw) mn mx sv rv tv d
                                       Hd Htv) as (Bx & By & _).
  pose proof (sampled_scale_range (h, w) (th, tw) mn mx sv rv tv d
                (proj1 Hd) Hle Hsv) as Hr.
  fold p in Bx, By, Hr.
  apply Main; [lra | |]; [revert Bx | revert By]; lra.
Qed.

Lemma plate_inside_canvas_for_scale_at_most_one_witness :
  0 < 128 /\ 0 < 32 /\ 0 <= 128 /\ 0 <= 64
  /\ valid_draws draws_left_edge
  /\ 0 <= box_low (affine (plan (32, 128) (64, 128) 0.6 0.875 1 0.9 1
                                draws_left_edge)) (32, 128) 0.
Proof.
  assert (Hw : 0 < 128) by lra.
  assert (Hh : 0 < 32) by lra.
  assert (Htw : 0 <= 128) by lra.
  assert (Hth : 0 <= 64) by lra.
  assert (Hd : valid_draws draws_left_edge) by valid_draws_tac.
  assert (Hrv : Rabs 0.9 <= 5 / 4) by (rewrite Rabs_pos_eq; lra).
  assert (H1 : Rabs 1 <= 1) by (rewrite Rabs_R1; lra).
  destruct (plan_skewed_pos 32 128 64 128 0.6 0.875 1 0.9 1 draws_left_edge
                            Hd Hrv Hw Hh) as [Hskw Hskh].
  repeat (split; [assumption |]).
  destruct (plate_inside_canvas_for_scale_at_most_one
              32 128 64 128 0.6 0.875 1 0.9 1 draws_left_edge
              Hw Hh Htw Hth Hskw Hskh) as (_ & Hin).
  apply Hin; try assumption; lra.
Defined.

(** X5. For draws in [0,1) the angles are bounded by the rotation variation:
    roll by 0.5, pitch by 0.4 and yaw by 1.2 times its magnitude.  When that
    magnitude is at most 1.25 (as for the default 1.0 and the 0.9 of the
    driver) and the source shape is positive, the skewed size is positive on
    both axes, so the fit never divides by zero. *)
Theorem angles_bounded_and_skewed_size_positive
    (h w th tw mn mx sv rv tv : R) (d : draws) :
  valid_draws d ->
  let p := plan (h, w) (th, tw) mn mx sv rv tv d in
  Rabs (roll p) <= 0.5 * Rabs rv
  /\ Rabs (pitch p) <= 0.4 * Rabs rv
  /\ Rabs (yaw p) <= 1.2 * Rabs rv
  /\ (Rabs rv <= 5 / 4 -> 0 < w -> 0 < h ->
      0 < entry (skewed_size p) 0 0 /\ 0 < entry (skewed_size p) 1 0).
Proof.
  intros Hd p.
  destruct (plan_flags (h, w) (th, tw) mn mx sv rv tv d)
    as (_ & Er & Ep & Ey & _).
  fold p in Er, Ep, Ey.
  pose proof Hd as (Hs & Hr & Hp & Hy & Hx & Hn).
  pose proof (Rabs_pos rv) as Hrv.
  repeat split.
  - rewrite Er, Rabs_mult.
    pose proof (uniform_bound (-0.5) 0.5 (u_roll d)) as B.
    apply Rmult_le_compat_r; [assumption | apply B; [lra | lra | assumption]].
  - rewrite Ep, Rabs_mult.
    pose proof (uniform_bound (-0.4) 0.4 (u_pitch d)) as B.
    apply Rmult_le_compat_r; [assumption | apply B; [lra | lra | assumption]].
  - rewrite Ey, Rabs_mult.
    pose proof (uniform_bound (-1.2) 1.2 (u_yaw d)) as B.
    apply Rmult_le_compat_r; [assumption | apply B; [lra | lra | assumption]].
  - apply (plan_skewed_pos h w th tw mn mx sv rv tv d); assumption.
  - apply (plan_skewed_pos h w th tw mn mx sv rv tv d); assumption.
Qed.

Lemma angles_bounded_and_skewed_size_positive_witness :
  valid_draws draws_left_edge
  /\ 0 < entry (skewed_size (plan (32, 128) (64, 128) 0.6 1.1 1.2 0.9 1.2
                                  draws_left_edge)) 0 0.
Proof.
  assert (Hd : valid_draws draws_left_edge) by valid_draws_tac.
  split; [exact Hd |].
  destruct (angles_bounded_and_skewed_size_positive
              32 128 64 128 0.6 1.1 1.2 0.9 1.2 draws_left_edge Hd)
    as (_ & _ & _ & Hpos).
  apply Hpos; [rewrite Rabs_pos_eq; lra | lra | lra].
Defined.

Lemma euler_row_norms (y p r : R) :
  let E := euler_to_mat y p r in
  (entry E 0 0)² + (entry E 0 1)² <= 1
  /\ (entry E 1 0)² + (entry E 1 1)² <= 1.
Proof.
  cbv zeta. rewrite euler_to_mat_entries. unfold entry. cbn [nth].
  pose proof (sin2_cos2 y) as Hy. pose proof (sin2_cos2 p) as Hp.
  pose proof (sin2_cos2 r) as Hr.
  unfold Rsqr in *.
  generalize dependent (cos y); intros cy.
  generalize dependent (sin y); intros sy.
  generalize dependent (cos p); intros cp.
  generalize dependent (sin p); intros sp.
  generalize dependent (cos r); intros cr.
  generalize dependent (sin r); intros sr.
  intros Hr Hp Hy.
  split.
  - assert (E : (cr * cy - sr * sp * sy) * (cr * cy - sr * sp * sy)
                + - (sr * cp) * - (sr * cp)
                = 1 - (cr * sy + sr * sp * cy) * (cr * sy + sr * sp * cy))
      by nsatz.
    rewrite E. pose proof (Rle_0_sqr (cr * sy + sr * sp * cy)) as S.
    unfold Rsqr in S. lra.
  - assert (E : (sr * cy + cr * sp * sy) * (sr * cy + cr * sp * sy)
                + cr * cp * (cr * cp)
                = 1 - (sr * sy - cr * sp * cy) * (sr * sy - cr * sp * cy))
      by nsatz.
    rewrite E. pose proof (Rle_0_sqr (sr * sy - cr * sp * cy)) as S.
    unfold Rsqr in S. lra.
Qed.

Lemma cauchy2 (a b w h : R) :
  0 <= w -> 0 <= h -> a² + b² <= 1 ->
  (Rabs a * w + Rabs b * h)² <= w² + h².
Proof.
  intros Hw Hh Hn. unfold Rsqr in *.
  assert (Ea : Rabs a * Rabs a = a * a)
    by (unfold Rabs; destruct (Rcase_abs a); ring).
  assert (Eb : Rabs b * Rabs b = b * b)
    by (unfold Rabs; destruct (Rcase_abs b); ring).
  pose proof (Rle_0_sqr (Rabs a * h - Rabs b * w)) as S. unfold Rsqr in S.
  pose proof (Rle_0_sqr w). pose proof (Rle_0_sqr h). unfold Rsqr in *.
  nra.
Qed.

(** X6. Whatever the angles, neither side of the skewed bounding box is
    longer than the diagonal of the source: its square is at most
    w^2 + h^2. *)
Theorem skewed_size_at_most_source_diagonal
    (h w th tw mn mx sv rv tv : R) (d : draws) :
  0 <= w -> 0 <= h ->
  let p := plan (h, w) (th, tw) mn mx sv rv tv d in
  (entry (skewed_size p) 0 0)² <= w² + h²
  /\ (entry (skewed_size p) 1 0)² <= w² + h².
Proof.
  intros Hw Hh p.
  destruct (plan_geometry h w th tw mn mx sv rv tv d Hw Hh) as (Hsk & _).
  fold p in Hsk. rewrite Hsk. unfold entry at 1 4. cbn [nth].
  destruct (euler_row_norms (yaw p) (pitch p) (roll p)) as [N0 N1].
  cbv zeta in N0, N1. fold (rotation p) in N0, N1.
  split; apply cauchy2; assumption.
Qed.

Lemma skewed_size_at_most_source_diagonal_witness :
  0 <= 128 /\ 0 <= 32
  /\ (entry (skewed_size (plan (32, 128) (64, 128) 0.6 1.1 1.2 0.9 1.2
                               draws_left_edge)) 0 0)² <= 128² + 32².
Proof.
  assert (Hw : 0 <= 128) by lra.
  assert (Hh : 0 <= 32) by lra.
  split; [exact Hw |]. split; [exact Hh |].
  apply (skewed_size_at_most_source_diagonal
           32 128 64 128 0.6 1.1 1.2 0.9 1.2 draws_left_edge Hw Hh).
Defined.

(** X7. The rows of the composed rotation are orthonormal too (the matrix
    times its transpose is the identity), and its transpose, which undoes
    it, is the product of the three opposite rotations in the reverse
    order: Ry(-yaw) * Rx(-pitch) * Rz(-roll). *)
Theorem euler_to_mat_transpose_is_reverse_rotation (yaw pitch roll : R) :
  matmul (euler_to_mat yaw pitch roll)
         (transpose (euler_to_mat yaw pitch roll)) = identity3
  /\ transpose (euler_to_mat yaw pitch roll)
     = matmul (Ry (- yaw)) (matmul (Rx (- pitch)) (Rz (- roll))).
Proof.
  rewrite euler_to_mat_entries, Rx_entries, Ry_entries, Rz_entries.
  rewrite !cos_neg, !sin_neg.
  pose proof (sin2_cos2 yaw) as Hy.
  pose proof (sin2_cos2 pitch) as Hp.
  pose proof (sin2_cos2 roll) as Hr.
  unfold Rsqr in Hy, Hp, Hr.
  generalize dependent (cos yaw); intros cy.
  generalize dependent (sin yaw); intros sy.
  generalize dependent (cos pitch); intros cp.
  generalize dependent (sin pitch); intros sp.
  generalize dependent (cos roll); intros cr.
  generalize dependent (sin roll); intros sr.
  intros Hr Hp Hy.
  split; np_eval; [repeat (f_equal; try nsatz) | list_eq].
Qed.

(** ** Edge cases of the code generator *)

Module CodeEdges.
Import Code CodeProps PlateCode.
Open Scope nat_scope.

(** X8. An empty alphabet makes the first [random.choice] raise: with no
    letters, or with letters but no digits, [generate_code] ends in
    [IndexError] for every locale, whatever the draws. *)
Theorem generate_code_empty_alphabet_raises (LETTERS DIGITS : string)
    (rand : nat -> nat) (fuel : nat) (country : option string) (i : nat) :
  LETTERS = EmptyString \/ DIGITS = EmptyString ->
  generate_code LETTERS DIGITS rand (S fuel) country i = IndexError.
Proof.
  intros H. unfold generate_code. cbn [generate_code_loop again].
  assert (E : draw_code LETTERS DIGITS rand i = IndexError).
  { destruct H as [-> | ->]; [reflexivity |].
    unfold draw_code, bind.
    destruct (choice rand LETTERS i) as [[l1 j1] | | |] eqn:E1;
      try reflexivity;
      try (unfold choice in E1; destruct (get _ LETTERS); discriminate).
    destruct (choice rand LETTERS j1) as [[l2 j2] | | |] eqn:E2;
      try reflexivity;
      try (unfold choice in E2; destruct (get _ LETTERS); discriminate).
    destruct (choice rand LETTERS j2) as [[l3 j3] | | |] eqn:E3;
      try reflexivity;
      try (unfold choice in E3; destruct (get _ LETTERS); discriminate). }
  rewrite E. reflexivity.
Qed.

Lemma generate_code_empty_alphabet_raises_witness :
  (LETTERS_AZ = EmptyString \/ EmptyString = EmptyString)
  /\ generate_code LETTERS_AZ EmptyString stream_apa_abc 3 (Some "se"%string) 0
     = IndexError.
Proof.
  assert (H : LETTERS_AZ = EmptyString \/ EmptyString = EmptyString)
    by (right; reflexivity).
  split; [exact H |].
  apply (generate_code_empty_alphabet_raises
           LETTERS_AZ EmptyString stream_apa_abc 2 (Some "se"%string) 0 H).
Defined.

(** X9. A locale that is not a key of [banned_combinations] is only noticed
    after the first code has been drawn: with non-empty alphabets the call
    ends in [KeyError], for every stream of draws and any positive fuel. *)
Theorem generate_code_unknown_locale_raises (LETTERS DIGITS : string)
    (rand : nat -> nat) (fuel : nat) (c : string) (i : nat) :
  LETTERS <> EmptyString -> DIGITS <> EmptyString ->
  String.eqb c "se" = false ->
  banned_combinations (Some c) = None
  /\ generate_code LETTERS DIGITS rand (S fuel) (Some c) i = KeyError.
Proof.
  intros HL HD Hc.
  assert (Hb : banned_combinations (Some c) = None)
    by (unfold banned_combinations; rewrite Hc; reflexivity).
  split; [exact Hb |].
  destruct (draw_code_total LETTERS DIGITS rand i HL HD) as [code Hd].
  unfold generate_code. cbn [generate_code_loop again]. rewrite Hd.
  destruct fuel; cbn [generate_code_loop];
    rewrite (again_drawn _ _ _ _ _ _ _ Hd), Hb; reflexivity.
Qed.

Lemma generate_code_unknown_locale_raises_witness :
  LETTERS_AZ <> EmptyString /\ DIGITS_09 <> EmptyString
  /\ generate_code LETTERS_AZ DIGITS_09 stream_apa_abc 1 (Some "uk"%string) 0
     = KeyError.
Proof.
  assert (HL : LETTERS_AZ <> EmptyString) by discriminate.
  assert (HD : DIGITS_09 <> EmptyString) by discriminate.
  split; [exact HL |]. split; [exact HD |].
  apply (generate_code_unknown_locale_raises
           LETTERS_AZ DIGITS_09 stream_apa_abc 0 "uk" 0 HL HD eq_refl).
Defined.

Ltac ascii_cases :=
  repeat match goal with
         | |- context [ascii_dec ?a ?b] =>
           destruct (ascii_dec a b); try subst; cbn [prefix contains orb];
           try congruence
         end.

(** X10. A three-character entry without a space whose first character is
    not the first digit of the code rejects exactly the codes whose letter
    part is that entry: [bad in code] holds if and only if the three letters
    spell [bad]. *)
Theorem three_letter_entry_matches_letter_part
    (b1 b2 b3 l1 l2 l3 d1 d2 d3 : ascii) :
  b1 <> " "%char -> b2 <> " "%char -> b3 <> " "%char -> b1 <> d1 ->
  contains (String b1 (String b2 (String b3 EmptyString)))
           (String l1 (String l2 (String l3 (String " "
              (String d1 (String d2 (String d3 EmptyString)))))))
  = true
  <-> (b1 = l1 /\ b2 = l2 /\ b3 = l3).
Proof.
  intros H1 H2 H3 Hd. cbn [contains prefix].
  split.
  - ascii_cases; cbn; intros; try discriminate; auto.
  - intros (-> & -> & ->). ascii_cases.
Qed.

Lemma three_letter_entry_matches_letter_part_witness :
  "A"%char <> " "%char /\ "P"%char <> " "%char /\ "A"%char <> "0"%char
  /\ contains "APA" "APA 000" = true.
Proof.
  assert (H1 : "A"%char <> " "%char) by discriminate.
  assert (H2 : "P"%char <> " "%char) by discriminate.
  assert (H3 : "A"%char <> "0"%char) by discriminate.
  split; [exact H1 |]. split; [exact H2 |]. split; [exact H3 |].
  apply (three_letter_entry_matches_letter_part
           "A" "P" "A" "A" "P" "A" "0" "0" "0" H1 H2 H1 H3).
  repeat split.
Defined.

Lemma no_space_head (b : ascii) (rest : string) :
  contains " " (String b rest) = false ->
  b <> " "%char /\ contains " " rest = false.
Proof.
  rewrite contains_cons. intros H. apply orb_false_iff in H.
  destruct H as [Hp Hr]. split; [| exact Hr].
  intros ->. cbn in Hp. destruct rest; discriminate.
Qed.

(** X11. An entry of more than three characters that holds no space never
    occurs in a formatted code, whatever its letters and digits: such an
    entry rejects nothing.  The "se" list holds two of them, "LSDLUS" and
    "NRPNSF" (two commas are missing in the source), and none of "LSD",
    "LUS", "NRP", "NSF". *)
Theorem long_entry_never_matches (bad : string)
    (l1 l2 l3 d1 d2 d3 : ascii) :
  3 < String.length bad -> contains " " bad = false ->
  contains bad (String l1 (String l2 (String l3 (String " "
                  (String d1 (String d2 (String d3 EmptyString)))))))
  = false
  /\ (forall bans, banned_combinations (Some "se"%string) = Some bans ->
        In "LSDLUS"%string bans /\ In "NRPNSF"%string bans
        /\ ~ In "LSD"%string bans /\ ~ In "LUS"%string bans
        /\ ~ In "NRP"%string bans /\ ~ In "NSF"%string bans).
Proof.
  intros Hlen Hsp. split.
  - destruct bad as [| b1 [| b2 [| b3 [| b4 bad]]]]; cbn in Hlen; try lia.
    apply no_space_head in Hsp. destruct Hsp as [N1 Hsp].
    apply no_space_head in Hsp. destruct Hsp as [N2 Hsp].
    apply no_space_head in Hsp. destruct Hsp as [N3 Hsp].
    apply no_space_head in Hsp. destruct Hsp as [N4 _].
    cbn [contains prefix]. ascii_cases; destruct bad; reflexivity.
  - intros bans Hb. cbn in Hb. inversion Hb as [E]. clear Hb E.
    assert (Hnot : forall s l, existsb (String.eqb s) l = false -> ~ In s l).
    { intros s l He Hin.
      assert (existsb (String.eqb s) l = true)
        by (apply existsb_exists; exists s; split;
            [exact Hin | apply String.eqb_refl]).
      congruence. }
    split; [cbn; tauto |]. split; [cbn; tauto |].
    repeat split; apply Hnot; reflexivity.
Qed.

Lemma long_entry_never_matches_witness :
  3 < String.length "LSDLUS" /\ contains " " "LSDLUS" = false
  /\ contains "LSDLUS" "LSD 123" = false.
Proof.
  assert (Hl : 3 < String.length "LSDLUS") by (cbn; lia).
  assert (Hs : contains " " "LSDLUS" = false) by reflexivity.
  split; [exact Hl |]. split; [exact Hs |].
  apply (long_entry_never_matches "LSDLUS" "L" "S" "D" "1" "2" "3" Hl Hs).
Defined.

Lemma member_no_space (c : ascii) (s : string) :
  member c s -> contains " " s = false -> c <> " "%char.
Proof.
  intros [k Hk]. revert k Hk.
  induction s as [| a s IH]; intros k Hk Hs; [destruct k; discriminate |].
  apply no_space_head in Hs. destruct Hs as [Ha Hs].
  destruct k as [| k]; cbn in Hk.
  - inversion Hk. subst. exact Ha.
  - apply (IH k); assumption.
Qed.

Lemma remove_spaces_cons (c : ascii) (rest : string) :
  c <> " "%char ->
  remove_spaces (String c rest) = String c (remove_spaces rest).
Proof.
  intros Hc. cbn [remove_spaces].
  destruct (Ascii.eqb c " ") eqn:E; [| reflexivity].
  apply Ascii.eqb_eq in E. contradiction.
Qed.

Lemma remove_spaces_space (rest : string) :
  remove_spaces (String " " rest) = remove_spaces rest.
Proof. reflexivity. Qed.

(** X12. When neither alphabet holds a space, removing the spaces from a
    code that [generate_code] returned leaves its three letters followed by
    its three digits: six characters, the code without its separator. *)
Theorem generated_code_without_separator (LETTERS DIGITS : string)
    (rand : nat -> nat) (fuel : nat) (country : option string) (i i' : nat)
    (r : option string) :
  contains " " LETTERS = false -> contains " " DIGITS = false ->
  generate_code LETTERS DIGITS rand fuel country i = Ret (r, i') ->
  exists l1 l2 l3 d1 d2 d3,
    r = Some (String l1 (String l2 (String l3 (String " "
                (String d1 (String d2 (String d3 EmptyString)))))))
    /\ remove_spaces (String l1 (String l2 (String l3 (String " "
                        (String d1 (String d2 (String d3 EmptyString)))))))
       = String l1 (String l2 (String l3
           (String d1 (String d2 (String d3 EmptyString)))))
    /\ String.length
         (remove_spaces (String l1 (String l2 (String l3 (String " "
                           (String d1 (String d2 (String d3 EmptyString))))))))
       = 6.
Proof.
  intros HL HD H. apply generate_code_sound in H.
  destruct H as (k & c & -> & _ & Hd & _).
  apply drawn_at_format in Hd.
  destruct Hd as (l1 & l2 & l3 & d1 & d2 & d3 & -> & M1 & M2 & M3 & M4 & M5
                  & M6).
  exists l1, l2, l3, d1, d2, d3.
  assert (E : remove_spaces (String l1 (String l2 (String l3 (String " "
                (String d1 (String d2 (String d3 EmptyString)))))))
              = String l1 (String l2 (String l3
                  (String d1 (String d2 (String d3 EmptyString)))))).
  { rewrite !remove_spaces_cons by (eapply member_no_space; eassumption).
    rewrite remove_spaces_space.
    rewrite !remove_spaces_cons by (eapply member_no_space; eassumption).
    reflexivity. }
  split; [reflexivity |]. split; [exact E |]. rewrite E. reflexivity.
Qed.

Lemma generated_code_without_separator_witness :
  contains " " LETTERS_AZ = false /\ contains " " DIGITS_09 = false
  /\ generate_code LETTERS_AZ DIGITS_09 stream_apa_abc 1 None 0
     = Ret (Some "APA 000"%string, 6)
  /\ remove_spaces "APA 000" = "APA000"%string.
Proof.
  assert (HL : contains " " LETTERS_AZ = false) by reflexivity.
  assert (HD : contains " " DIGITS_09 = false) by reflexivity.
  assert (Hrun : generate_code LETTERS_AZ DIGITS_09 stream_apa_abc 1 None 0
                 = Ret (Some "APA 000"%string, 6)) by reflexivity.
  split; [exact HL |]. split; [exact HD |]. split; [exact Hrun |].
  destruct (generated_code_without_separator
              LETTERS_AZ DIGITS_09 stream_apa_abc 1 None 0 6
              (Some "APA 000"%string) HL HD Hrun)
    as (l1 & l2 & l3 & d1 & d2 & d3 & Hr & He & _).
  inversion Hr. subst. exact He.
Defined.

End CodeEdges.

(** ** Background sampler *)

Module BgProps.
Import Bg.
Open Scope nat_scope.

Lemma randint_inv (rand : nat -> nat) (a b : Z) (i i' : nat) (k : Z) :
  randint rand a b i = Done (k, i') ->
  (a <= k <= b)%Z /\ i' = S i
  /\ k = (a + Z.of_nat (rand i) mod (b - a + 1))%Z.
Proof.
  unfold randint. destruct (b <? a)%Z eqn:E; [discriminate |].
  apply Z.ltb_ge in E. intros H. inversion H. subst.
  pose proof (Z.mod_pos_bound (Z.of_nat (rand i)) (b - a + 1)).
  repeat split; lia.
Qed.

Lemma randint_total (rand : nat -> nat) (a b : Z) (i : nat) :
  (a <= b)%Z ->
  randint rand a b i
  = Done ((a + Z.of_nat (rand i) mod (b - a + 1))%Z, S i).
Proof.
  intros H. unfold randint.
  destruct (b <? a)%Z eqn:E; [apply Z.ltb_lt in E; lia | reflexivity].
Qed.

Lemma randint_index (rand : nat -> nat) (num i : nat) :
  0 < num ->
  randint rand 0 (Z.of_nat num - 1) i
  = Done (Z.of_nat (drawn_index rand num i), S i)
  /\ drawn_index rand num i < num.
Proof.
  intros Hn. rewrite randint_total by lia.
  unfold drawn_index.
  pose proof (Z.mod_pos_bound (Z.of_nat (rand i)) (Z.of_nat num)).
  replace (Z.of_nat num - 1 - 0 + 1)%Z with (Z.of_nat num) by lia.
  split; [| lia]. rewrite Z2Nat.id by lia. reflexivity.
Qed.

(** The image that the loop settles on is one of the pool, with an index
    below the pool size, and large enough. *)
Lemma pick_bg_sound (imread : nat -> option matrix) (rand : nat -> nat)
    (num : nat) (fuel : nat) :
  forall (i i' : nat) (bg : matrix),
    pick_bg imread rand fuel num i = Done (bg, i') ->
    exists k, k < num /\ imread k = Some bg /\ large_enough bg = true.
Proof.
  induction fuel as [| fuel IH]; intros i i' bg; cbn [pick_bg];
    [discriminate |].
  destruct (randint rand 0 (Z.of_nat num - 1) i) as [[k j] | |] eqn:E;
    try discriminate.
  apply randint_inv in E. destruct E as (Hk & _ & _).
  destruct (imread (Z.to_nat k)) as [m |] eqn:Em; [| apply IH].
  destruct (large_enough m) eqn:El; [| apply IH].
  intros H. inversion H. subst. exists (Z.to_nat k).
  repeat split; try assumption. lia.
Qed.

Lemma in_firstn {A : Type} (n : nat) (l : list A) (x : A) :
  In x (firstn n l) -> In x l.
Proof.
  intros H. rewrite <- (firstn_skipn n l). apply in_or_app. now left.
Qed.

Lemma in_skipn {A : Type} (n : nat) (l : list A) (x : A) :
  In x (skipn n l) -> In x l.
Proof.
  intros H. rewrite <- (firstn_skipn n l). apply in_or_app. now right.
Qed.

Lemma window_shape (bg : matrix) (y x rows cols : nat) :
  y + rows <= List.length bg ->
  Forall (fun r => x + cols <= List.length r) bg ->
  has_shape (rows, cols) (window bg y x rows cols).
Proof.
  intros Hy Hx. unfold window. split; cbn [fst snd].
  - rewrite length_map, length_firstn, length_skipn. lia.
  - apply Forall_forall. intros r Hr. apply in_map_iff in Hr.
    destruct Hr as (r0 & <- & Hin).
    apply in_firstn, in_skipn in Hin.
    rewrite Forall_forall in Hx. specialize (Hx r0 Hin).
    rewrite length_firstn, length_skipn. lia.
Qed.

Lemma window_entry (bg : matrix) (y x rows cols i j : nat) :
  y + rows <= List.length bg -> i < rows -> j < cols ->
  entry (window bg y x rows cols) i j = entry bg (y + i) (x + j).
Proof.
  intros Hy Hi Hj. unfold window, entry.
  rewrite (nth_indep _ [] (firstn cols (skipn x [])))
    by (rewrite length_map, length_firstn, length_skipn; lia).
  rewrite (map_nth (fun r => firstn cols (skipn x r))).
  assert (Ei : (i <? rows) = true) by (apply Nat.ltb_lt; lia).
  assert (Ej : (j <? cols) = true) by (apply Nat.ltb_lt; lia).
  rewrite !nth_firstn, Ei, Ej, !nth_skipn. reflexivity.
Qed.

Lemma large_enough_iff (bg : matrix) :
  large_enough bg = true
  <-> 128 <= snd (shape bg) /\ 64 <= fst (shape bg).
Proof.
  unfold large_enough, OUTPUT_SHAPE. cbn [fst snd].
  rewrite andb_true_iff, !Nat.leb_le. tauto.
Qed.

(** What [generate_bg] returns is a window of an accepted pool image. *)
Lemma generate_bg_inv (imread : nat -> option matrix) (rand : nat -> nat)
    (fuel num i i' : nat) (crop : matrix) :
  generate_bg imread rand fuel num i = Done (crop, i') ->
  exists k src x y,
    k < num /\ imread k = Some src /\ large_enough src = true
    /\ x + 128 <= snd (shape src) /\ y + 64 <= fst (shape src)
    /\ crop = window src y x 64 128.
Proof.
  unfold generate_bg.
  destruct (pick_bg imread rand fuel num i) as [[src i1] | |] eqn:P;
    try discriminate.
  apply pick_bg_sound in P. destruct P as (k & Hk & Hr & Hl).
  pose proof (proj1 (large_enough_iff src) Hl) as [Hw Hh].
  destruct (randint rand 0 _ i1) as [[x i2] | |] eqn:X; try discriminate.
  destruct (randint rand 0 _ i2) as [[y i3] | |] eqn:Y; try discriminate.
  apply randint_inv in X. apply randint_inv in Y.
  destruct X as (Hx & _ & _). destruct Y as (Hy & _ & _).
  unfold OUTPUT_SHAPE in *. cbn [fst snd] in *.
  intros H. inversion H. subst.
  exists k, src, (Z.to_nat x), (Z.to_nat y).
  repeat split; try assumption; lia.
Qed.

(** X13. Whenever [generate_bg] returns, the result has exactly the shape
    of the output canvas, 64 rows of 128 pixels, whatever the size of the
    image it was cut from. *)
Theorem generate_bg_returns_canvas_shape (imread : nat -> option matrix)
    (rand : nat -> nat) (fuel num i i' : nat) (crop : matrix) :
  rectangular_pool imread ->
  generate_bg imread rand fuel num i = Done (crop, i') ->
  has_shape OUTPUT_SHAPE crop /\ shape crop = OUTPUT_SHAPE.
Proof.
  intros Hrect H. apply generate_bg_inv in H.
  destruct H as (k & src & x & y & _ & Hr & _ & Hx & Hy & ->).
  destruct (Hrect k src Hr) as [_ Hrows]. cbn [shape fst snd] in *.
  assert (Hs : has_shape (64, 128) (window src y x 64 128)).
  { apply window_shape; [lia |].
    apply Forall_forall. intros r Hin. rewrite Forall_forall in Hrows.
    rewrite (Hrows r Hin). exact Hx. }
  split; [exact Hs |].
  destruct Hs as [Hlen Hall]. cbn [fst snd] in *.
  unfold OUTPUT_SHAPE, shape. rewrite Hlen. f_equal.
  destruct (window src y x 64 128) as [| r0 rest]; [discriminate |].
  inversion Hall. assumption.
Qed.

(** X14. The result of [generate_bg] is a window of one pool image: the
    image has an index below the pool size and is at least as large as the
    canvas, the window lies inside it, and pixel (i, j) of the result is
    pixel (y + i, x + j) of the image. *)
Theorem generate_bg_is_window_of_pool_image
    (imread : nat -> option matrix) (rand : nat -> nat)
    (fuel num i i' : nat) (crop : matrix) :
  generate_bg imread rand fuel num i = Done (crop, i') ->
  exists k src x y,
    k < num /\ imread k = Some src
    /\ 128 <= snd (shape src) /\ 64 <= fst (shape src)
    /\ x + 128 <= snd (shape src) /\ y + 64 <= fst (shape src)
    /\ forall r c, r < 64 -> c < 128 ->
                   entry crop r c = entry src (y + r) (x + c).
Proof.
  intros H. apply generate_bg_inv in H.
  destruct H as (k & src & x & y & Hk & Hr & Hl & Hx & Hy & ->).
  apply large_enough_iff in Hl. destruct Hl as [Hw Hh].
  exists k, src, x, y. repeat split; try assumption.
  intros r c Hr' Hc. apply window_entry; [exact Hy | assumption | assumption].
Qed.

Lemma pick_bg_all_unusable (imread : nat -> option matrix)
    (rand : nat -> nat) (num : nat) :
  0 < num -> (forall k, k < num -> unusable imread k) ->
  forall fuel i, pick_bg imread rand fuel num i = Spinning.
Proof.
  intros Hn Hbad. induction fuel as [| fuel IH]; intros i; [reflexivity |].
  cbn [pick_bg].
  destruct (randint_index rand num i Hn) as [-> Hlt].
  rewrite Nat2Z.id. specialize (Hbad _ Hlt). unfold unusable in Hbad.
  destruct (imread (drawn_index rand num i)) as [m |]; [| apply IH].
  rewrite Hbad. apply IH.
Qed.

(** X15. When every image of a non-empty pool is missing or smaller than
    the canvas, [generate_bg] never returns and never raises: the retry
    loop is still running after any number of iterations.  With an empty
    pool it does not loop: the first [random.randint(0, -1)] raises
    [ValueError]. *)
Theorem generate_bg_spins_on_unusable_pool
    (imread : nat -> option matrix) (rand : nat -> nat) (num : nat) :
  (0 < num -> (forall k, k < num -> unusable imread k) ->
   forall fuel i, generate_bg imread rand fuel num i = Spinning)
  /\ (num = 0 ->
      forall fuel i, generate_bg imread rand (S fuel) num i = ValueError).
Proof.
  split.
  - intros Hn Hbad fuel i. unfold generate_bg.
    rewrite (pick_bg_all_unusable imread rand num Hn Hbad). reflexivity.
  - intros -> fuel i. reflexivity.
Qed.

Lemma generate_bg_spins_on_unusable_pool_witness :
  0 < 2 /\ (forall k, k < 2 -> unusable sample_pool k)
  /\ generate_bg sample_pool sample_bg_stream 10 2 0 = Spinning.
Proof.
  assert (Hn : 0 < 2) by lia.
  assert (Hbad : forall k, k < 2 -> unusable sample_pool k).
  { intros k Hk. destruct k as [| [| k]]; [reflexivity | exact I | lia]. }
  split; [exact Hn |]. split; [exact Hbad |].
  destruct (generate_bg_spins_on_unusable_pool
              sample_pool sample_bg_stream 2) as [Hspin _].
  apply (Hspin Hn Hbad).
Defined.

Lemma pick_bg_first_usable (imread : nat -> option matrix)
    (rand : nat -> nat) (num : nat) (src : matrix) (n : nat) :
  0 < num ->
  forall fuel i,
    (forall j, j < n -> unusable imread (drawn_index rand num (i + j))) ->
    imread (drawn_index rand num (i + n)) = Some src ->
    large_enough src = true ->
    n < fuel ->
    pick_bg imread rand fuel num i = Done (src, i + n + 1).
Proof.
  intros Hn. induction n as [| n IH]; intros fuel i Hbad Hr Hl Hf.
  - destruct fuel as [| fuel]; [lia |]. cbn [pick_bg].
    destruct (randint_index rand num i Hn) as [-> _].
    rewrite Nat2Z.id. rewrite Nat.add_0_r in Hr. rewrite Hr, Hl.
    repeat f_equal. lia.
  - destruct fuel as [| fuel]; [lia |]. cbn [pick_bg].
    destruct (randint_index rand num i Hn) as [-> _].
    rewrite Nat2Z.id.
    pose proof (Hbad 0 ltac:(lia)) as H0. rewrite Nat.add_0_r in H0.
    unfold unusable in H0.
    assert (Hnext : pick_bg imread rand fuel num (S i)
                    = Done (src, i + S n + 1)).
    { replace (i + S n + 1) with (S i + n + 1) by lia.
      apply IH; try assumption; try lia.
      - intros j Hj. replace (S i + j) with (i + S j) by lia.
        apply Hbad. lia.
      - replace (S i + n) with (i + S n) by lia. exact Hr. }
    destruct (imread (drawn_index rand num i)) as [m |]; [| exact Hnext].
    rewrite H0. exact Hnext.
Qed.

(** X16. Missing and undersized images are skipped without an error: when
    the first [n] indices drawn are unusable and the next one names an image
    that is large enough, [generate_bg] returns, given more than [n] units
    of fuel, a window of that image after [n + 3] draws, placed by the two
    draws that follow. *)
Theorem generate_bg_skips_unusable_images
    (imread : nat -> option matrix) (rand : nat -> nat)
    (num : nat) (src : matrix) (n fuel i : nat) :
  0 < num ->
  (forall j, j < n -> unusable imread (drawn_index rand num (i + j))) ->
  imread (drawn_index rand num (i + n)) = Some src ->
  large_enough src = true ->
  n < fuel ->
  exists x y,
    generate_bg imread rand fuel num i
    = Done (window src y x 64 128, i + n + 3)
    /\ x = rand (i + n + 1) mod (snd (shape src) - 128 + 1)
    /\ y = rand (i + n + 2) mod (fst (shape src) - 64 + 1).
Proof.
  intros Hn Hbad Hr Hl Hf.
  pose proof (proj1 (large_enough_iff src) Hl) as [Hw Hh].
  unfold generate_bg.
  rewrite (pick_bg_first_usable imread rand num src n Hn fuel i
             Hbad Hr Hl Hf).
  unfold OUTPUT_SHAPE. cbn [fst snd].
  rewrite !randint_total by lia.
  eexists _, _. split; [| split; reflexivity].
  repeat f_equal; try lia.
  - rewrite Z.add_0_l.
    replace (Z.of_nat (fst (shape src)) - Z.of_nat 64 - 0 + 1)%Z
      with (Z.of_nat (fst (shape src) - 64 + 1)) by lia.
    rewrite <- Nat2Z.inj_mod, Nat2Z.id. f_equal. f_equal. lia.
  - rewrite Z.add_0_l.
    replace (Z.of_nat (snd (shape src)) - Z.of_nat 128 - 0 + 1)%Z
      with (Z.of_nat (snd (shape src) - 128 + 1)) by lia.
    rewrite <- Nat2Z.inj_mod, Nat2Z.id. reflexivity.
Qed.

Lemma sample_pool_rectangular : rectangular_pool sample_pool.
Proof.
  intros k bg H. destruct k as [| [| [| k]]]; cbn in H; try discriminate;
    inversion H; subst.
  - split; [reflexivity | repeat constructor].
  - apply (repeat_shape 7%R (70, 130)).
Qed.

Lemma sample_bg_run :
  generate_bg sample_pool sample_bg_stream 5 3 0
  = Done (window (repeat (repeat 7%R 130) 70) 5 1 64 128, 5).
Proof. reflexivity. Qed.

Lemma generate_bg_returns_canvas_shape_witness :
  rectangular_pool sample_pool
  /\ generate_bg sample_pool sample_bg_stream 5 3 0
     = Done (window (repeat (repeat 7%R 130) 70) 5 1 64 128, 5)
  /\ shape (window (repeat (repeat 7%R 130) 70) 5 1 64 128) = OUTPUT_SHAPE.
Proof.
  split; [exact sample_pool_rectangular |].
  split; [exact sample_bg_run |].
  apply (generate_bg_returns_canvas_shape
           sample_pool sample_bg_stream 5 3 0 5 _
           sample_pool_rectangular sample_bg_run).
Defined.

Lemma generate_bg_is_window_of_pool_image_witness :
  generate_bg sample_pool sample_bg_stream 5 3 0
  = Done (window (repeat (repeat 7%R 130) 70) 5 1 64 128, 5)
  /\ exists k src, k < 3 /\ sample_pool k = Some src
                   /\ 128 <= snd (shape src).
Proof.
  split; [exact sample_bg_run |].
  destruct (generate_bg_is_window_of_pool_image
              sample_pool sample_bg_stream 5 3 0 5 _ sample_bg_run)
    as (k & src & x & y & Hk & Hr & Hw & _).
  exists k, src. repeat split; assumption.
Defined.

Lemma generate_bg_skips_unusable_images_witness :
  0 < 3
  /\ (forall j, j < 2 ->
        unusable sample_pool (drawn_index sample_bg_stream 3 (0 + j)))
  /\ sample_pool (drawn_index sample_bg_stream 3 (0 + 2))
     = Some (repeat (repeat 7%R 130) 70)
  /\ large_enough (repeat (repeat 7%R 130) 70) = true
  /\ 2 < 5
  /\ exists x y,
       generate_bg sample_pool sample_bg_stream 5 3 0
       = Done (window (repeat (repeat 7%R 130) 70) y x 64 128, 0 + 2 + 3).
Proof.
  assert (Hn : 0 < 3) by lia.
  assert (Hbad : forall j, j < 2 ->
            unusable sample_pool (drawn_index sample_bg_stream 3 (0 + j))).
  { intros j Hj. destruct j as [| [| j]]; [reflexivity | exact I | lia]. }
  assert (Hr : sample_pool (drawn_index sample_bg_stream 3 (0 + 2))
               = Some (repeat (repeat 7%R 130) 70)) by reflexivity.
  assert (Hl : large_enough (repeat (repeat 7%R 130) 70) = true)
    by reflexivity.
  assert (Hf : 2 < 5) by lia.
  repeat (split; [assumption |]).
  destruct (generate_bg_skips_unusable_images
              sample_pool sample_bg_stream 3 _ 2 5 0 Hn Hbad Hr Hl Hf)
    as (x & y & Hrun & _).
  exists x, y. exact Hrun.
Defined.
End BgProps.

(** ** Plate templates, file names and the entry point *)

Module PlatesProps.
Import Plates.
Open Scope nat_scope.

Section Loader.

Variable fs : filesystem.
Variable folder : string.

Lemma dict_set_keys (d : list (string * plate)) (k k' : string) (v : plate) :
  In k (map fst (dict_set d k' v)) <-> k = k' \/ In k (map fst d).
Proof.
  induction d as [| [k0 v0] d IH]; cbn [dict_set].
  - cbn. intuition.
  - destruct (String.eqb k0 k') eqn:E.
    + apply String.eqb_eq in E. subst. cbn. intuition.
    + cbn [map fst In]. rewrite IH. intuition.
Qed.

Lemma dict_get_set (d : list (string * plate)) (k k' : string)
    (v pl : plate) :
  dict_get (dict_set d k' v) k = Some pl ->
  (k = k' /\ pl = v) \/ dict_get d k = Some pl.
Proof.
  induction d as [| [k0 v0] d IH]; cbn [dict_set dict_get].
  - destruct (String.eqb k' k) eqn:E; [| discriminate].
    apply String.eqb_eq in E. intros H. inversion H. auto.
  - destruct (String.eqb k0 k') eqn:E0.
    + apply String.eqb_eq in E0. subst k0. cbn [dict_get].
      destruct (String.eqb k' k) eqn:E; [| auto].
      apply String.eqb_eq in E. intros H. inversion H. auto.
    + cbn [dict_get]. destruct (String.eqb k0 k); [auto | apply IH].
Qed.

Lemma valid_plate_of (p : string) :
  valid_data fs folder p = true ->
  exists pl, plate_of fs folder p = Some pl
             /\ json_load fs (path_join (path_join folder p) "data.json")
                = Object (Some (plate_offset pl))
             /\ plate_offset pl <> []
             /\ plate_font pl
                = (path_join (path_join folder p) "font.ttf", 64)
             /\ plate_frame pl = path_join (path_join folder p) "frame.png".
Proof.
  unfold valid_data, plate_of.
  destruct (json_load fs _) as [| [[| x l] |]]; try discriminate.
  intros _. eexists. repeat split. discriminate.
Qed.

(** When every usable directory has valid data, the loop runs through. *)
Lemma load_loop_ok (names : list string) :
  (forall p, In p names -> complete fs folder p = true ->
             valid_data fs folder p = true) ->
  forall d printed,
    load_loop fs folder names d printed
    = Plates (fold_left (store fs folder) names d)
             (printed ++ flat_map (lines_of fs folder) names).
Proof.
  induction names as [| p rest IH]; intros Hv d printed.
  - cbn. now rewrite app_nil_r.
  - cbn [load_loop fold_left flat_map]. unfold store at 2, lines_of at 1.
    unfold complete.
    destruct (isdir fs (path_join folder p)) eqn:Ed; cbn [negb andb].
    + destruct (all_exists fs (template_files folder p)) eqn:Ea;
        cbn [negb].
      * assert (Hc : complete fs folder p = true)
          by (unfold complete; rewrite Ed, Ea; reflexivity).
        pose proof (Hv p (or_introl eq_refl) Hc) as Hp.
        unfold valid_data in Hp. unfold plate_of.
        cbn [template_files nth].
        destruct (json_load fs _) as [| [[| x l] |]]; try discriminate.
        rewrite IH by (intros q Hq; apply Hv; now right).
        now rewrite app_assoc.
      * rewrite IH by (intros q Hq; apply Hv; now right).
        now rewrite app_assoc.
    + rewrite IH by (intros q Hq; apply Hv; now right). reflexivity.
Qed.

(** The first usable directory with bad data ends the run. *)
Lemma load_loop_fail (l1 l2 : list string) (p : string) (e : exn) :
  (forall q, In q l1 -> complete fs folder q = true ->
             valid_data fs folder q = true) ->
  complete fs folder p = true ->
  data_error fs folder p = Some e ->
  forall d printed,
    load_loop fs folder (l1 ++ p :: l2) d printed
    = Failed e (printed ++ flat_map (lines_of fs folder) (l1 ++ [p])).
Proof.
  intros Hv Hc He. induction l1 as [| q l1 IH]; intros d printed.
  - cbn [app load_loop flat_map]. unfold lines_of.
    unfold complete in Hc. apply andb_true_iff in Hc. destruct Hc as [Ed Ea].
    rewrite Ed, Ea. cbn [negb]. unfold data_error in He.
    cbn [template_files nth].
    destruct (json_load fs _) as [| [[| x l] |]]; inversion He;
      now rewrite app_nil_r.
  - cbn [app load_loop flat_map]. unfold lines_of at 1.
    destruct (isdir fs (path_join folder q)) eqn:Ed; cbn [negb].
    + destruct (all_exists fs (template_files folder q)) eqn:Ea;
        cbn [negb].
      * assert (Hcq : complete fs folder q = true)
          by (unfold complete; rewrite Ed, Ea; reflexivity).
        pose proof (Hv q (or_introl eq_refl) Hcq) as Hq.
        unfold valid_data in Hq. cbn [template_files nth].
        destruct (json_load fs _) as [| [[| x l] |]]; try discriminate.
        rewrite IH by (intros r Hr; apply Hv; now right).
        now rewrite app_assoc.
      * rewrite IH by (intros r Hr; apply Hv; now right).
        now rewrite app_assoc.
    + rewrite IH by (intros r Hr; apply Hv; now right). reflexivity.
Qed.

Lemma store_keys (names : list string) :
  forall d k,
    (forall p, In p names -> complete fs folder p = true ->
               valid_data fs folder p = true) ->
    In k (map fst (fold_left (store fs folder) names d))
    <-> In k (map fst d) \/ (In k names /\ complete fs folder k = true).
Proof.
  induction names as [| p rest IH]; intros d k Hv; cbn [fold_left].
  - cbn. intuition.
  - rewrite IH by (intros q Hq; apply Hv; now right).
    unfold store. destruct (complete fs folder p) eqn:Ec.
    + destruct (valid_plate_of p (Hv p (or_introl eq_refl) Ec))
        as (pl & -> & _).
      rewrite dict_set_keys. cbn [In]. split.
      * intros [[-> | H] | [H1 H2]]; auto.
      * intros [H | [[-> | H1] H2]]; auto.
    + cbn [In]. split.
      * intros [H | [H1 H2]]; auto.
      * intros [H | [[-> | H1] H2]]; auto. congruence.
Qed.

Lemma store_values (names : list string) :
  forall d k pl,
    dict_get (fold_left (store fs folder) names d) k = Some pl ->
    dict_get d k = Some pl \/ plate_of fs folder k = Some pl.
Proof.
  induction names as [| p rest IH]; intros d k pl; cbn [fold_left];
    [auto |].
  intros H. apply IH in H. destruct H as [H | H]; [| auto].
  unfold store in H. destruct (complete fs folder p); [| auto].
  destruct (plate_of fs folder p) as [pl' |] eqn:Ep; [| auto].
  apply dict_get_set in H. destruct H as [[-> ->] | H]; auto.
Qed.

Lemma load_loop_plates_inv (names : list string) :
  forall d printed d' printed',
    load_loop fs folder names d printed = Plates d' printed' ->
    forall p, In p names -> complete fs folder p = true ->
              valid_data fs folder p = true.
Proof.
  induction names as [| q rest IH]; intros d printed d' printed' H p Hin Hc;
    [contradiction |].
  cbn [load_loop] in H.
  destruct (isdir fs (path_join folder q)) eqn:Ed; cbn [negb] in H.
  - destruct (all_exists fs (template_files folder q)) eqn:Ea;
      cbn [negb] in H.
    + cbn [template_files nth] in H. unfold valid_data.
      destruct Hin as [-> | Hin].
      * destruct (json_load fs _) as [| [[| x l] |]];
          try discriminate; reflexivity.
      * destruct (json_load fs (path_join (path_join folder q) "data.json"))
          as [| [[| x l] |]]; try discriminate.
        apply (IH _ _ _ _ H p Hin Hc).
    + destruct Hin as [-> | Hin].
      * unfold complete in Hc. rewrite Ed, Ea in Hc. discriminate.
      * apply (IH _ _ _ _ H p Hin Hc).
  - destruct Hin as [-> | Hin].
    + unfold complete in Hc. rewrite Ed in Hc. discriminate.
    + apply (IH _ _ _ _ H p Hin Hc).
Qed.

End Loader.

(** X17. When the [data.json] of every usable directory passes the
    assertion, [load_plates] returns a dictionary whose keys are exactly the
    listed names that are directories holding all three files; other
    entries are skipped, a directory with a file missing at the price of one
    printed line per missing file.  Every template in it has the non-empty
    offset of its own [data.json], the font of its own [font.ttf] at size 64
    and the frame of its own [frame.png]. *)
Theorem load_plates_keeps_complete_directories (fs : filesystem)
    (folder : string) :
  (forall p, In p (listdir fs folder) -> complete fs folder p = true ->
             valid_data fs folder p = true) ->
  exists d,
    load_plates fs folder
    = Plates d (flat_map (lines_of fs folder) (listdir fs folder))
    /\ (forall k, In k (map fst d)
                  <-> In k (listdir fs folder)
                      /\ complete fs folder k = true)
    /\ (forall k pl,
          dict_get d k = Some pl ->
          json_load fs (path_join (path_join folder k) "data.json")
          = Object (Some (plate_offset pl))
          /\ plate_offset pl <> []
          /\ plate_font pl = (path_join (path_join folder k) "font.ttf", 64)
          /\ plate_frame pl = path_join (path_join folder k) "frame.png").
Proof.
  intros Hv. unfold load_plates.
  rewrite (load_loop_ok fs folder _ Hv). cbn [app].
  eexists. split; [reflexivity |]. split.
  - intros k. rewrite (store_keys fs folder _ [] k Hv). cbn. tauto.
  - intros k pl H. apply store_values in H.
    destruct H as [H | H]; [discriminate |].
    unfold plate_of in H.
    destruct (json_load fs _) as [| [[| x l] |]]; try discriminate.
    inversion H. cbn. repeat split. discriminate.
Qed.

Lemma sample_fs_valid_prefix :
  forall p, In p ["README"; "broken"; "se"]%string ->
            complete sample_fs PLATES_DIR p = true ->
            valid_data sample_fs PLATES_DIR p = true.
Proof.
  intros p [<- | [<- | [<- | []]]] H; try discriminate; reflexivity.
Qed.

Lemma load_plates_keeps_complete_directories_witness :
  let fs := mkFilesystem (fun _ => ["README"; "broken"; "se"]%string)
                         (isdir sample_fs) (file_exists sample_fs)
                         (json_load sample_fs) in
  (forall p, In p (listdir fs PLATES_DIR) ->
             complete fs PLATES_DIR p = true ->
             valid_data fs PLATES_DIR p = true)
  /\ exists d, load_plates fs PLATES_DIR
               = Plates d ["./plates/broken/font.ttf is missing"%string]
               /\ map fst d = ["se"%string].
Proof.
  cbv zeta. split; [exact sample_fs_valid_prefix |].
  destruct (load_plates_keeps_complete_directories
              (mkFilesystem (fun _ => ["README"; "broken"; "se"]%string)
                            (isdir sample_fs) (file_exists sample_fs)
                            (json_load sample_fs))
              PLATES_DIR sample_fs_valid_prefix) as (d & Hd & _).
  eexists. split; reflexivity.
Defined.

(** X18. [load_plates] returns a dictionary only if the [data.json] of
    every usable directory passes the assertion.  The first usable
    directory whose data is malformed, lacks "offset" or has an empty one
    ends the whole run with the matching exception: the templates loaded
    before it are lost and the entries after it are not looked at. *)
Theorem load_plates_aborts_on_first_bad_data (fs : filesystem)
    (folder : string) :
  (forall d printed,
      load_plates fs folder = Plates d printed ->
      forall p, In p (listdir fs folder) -> complete fs folder p = true ->
                valid_data fs folder p = true)
  /\ (forall l1 l2 p e,
        listdir fs folder = (l1 ++ p :: l2)%list ->
        (forall q, In q l1 -> complete fs folder q = true ->
                   valid_data fs folder q = true) ->
        complete fs folder p = true ->
        data_error fs folder p = Some e ->
        load_plates fs folder
        = Failed e (flat_map (lines_of fs folder) (l1 ++ [p]))).
Proof.
  split.
  - intros d printed H. unfold load_plates in H.
    apply (load_loop_plates_inv fs folder _ _ _ _ _ H).
  - intros l1 l2 p e Hl Hv Hc He. unfold load_plates. rewrite Hl.
    rewrite (load_loop_fail fs folder l1 l2 p e Hv Hc He). reflexivity.
Qed.

Lemma load_plates_aborts_on_first_bad_data_witness :
  listdir sample_fs PLATES_DIR
  = (["README"; "broken"; "se"] ++ "uk" :: [])%list%string
  /\ complete sample_fs PLATES_DIR "uk" = true
  /\ data_error sample_fs PLATES_DIR "uk" = Some AssertionError
  /\ load_plates sample_fs PLATES_DIR
     = Failed AssertionError ["./plates/broken/font.ttf is missing"%string].
Proof.
  assert (Hl : listdir sample_fs PLATES_DIR
               = (["README"; "broken"; "se"] ++ "uk" :: [])%list%string)
    by reflexivity.
  assert (Hc : complete sample_fs PLATES_DIR "uk" = true) by reflexivity.
  assert (He : data_error sample_fs PLATES_DIR "uk" = Some AssertionError)
    by reflexivity.
  repeat (split; [assumption |]).
  destruct (load_plates_aborts_on_first_bad_data sample_fs PLATES_DIR)
    as [_ Hfail].
  rewrite (Hfail _ _ _ _ Hl sample_fs_valid_prefix Hc He). reflexivity.
Defined.

Lemma dict_get_in (d : list (string * plate)) (k : string) :
  In k (map fst d) ->
  exists pl, dict_get d k = Some pl /\ In (k, pl) d.
Proof.
  induction d as [| [k0 v0] d IH]; cbn [map fst In dict_get];
    [contradiction |].
  intros H. destruct (String.eqb k0 k) eqn:E.
  - apply String.eqb_eq in E. subst. exists v0. auto.
  - destruct H as [-> | H]; [rewrite String.eqb_refl in E; discriminate |].
    destruct (IH H) as (pl & Hg & Hin). exists pl. auto.
Qed.

(** X19. Choosing a template never fails on a key: from a non-empty
    dictionary it returns, for every draw, one of the loaded templates and
    moves the cursor by one; from an empty dictionary (no usable template
    directory) it raises [IndexError]. *)
Theorem choose_plate_returns_loaded_template (rand : nat -> nat)
    (plates : list (string * plate)) (i : nat) :
  (plates = [] -> choose_plate rand plates i = Code.IndexError)
  /\ (plates <> [] ->
      exists k pl, choose_plate rand plates i = Code.Ret (pl, S i)
                   /\ In (k, pl) plates).
Proof.
  split.
  - intros ->. unfold choose_plate. cbn [map List.length].
    destruct (rand i mod 0); reflexivity.
  - intros Hne. unfold choose_plate.
    assert (Hlt : rand i mod List.length plates < List.length (map fst plates)).
    { rewrite length_map. apply Nat.mod_upper_bound.
      destruct plates; [contradiction | cbn; lia]. }
    destruct (nth_error (map fst plates) (rand i mod List.length plates))
      as [key |] eqn:E; [| apply nth_error_None in E; lia].
    apply nth_error_In in E.
    destruct (dict_get_in plates key E) as (pl & -> & Hin).
    exists key, pl. auto.
Qed.

Lemma absent_head (c b : ascii) (rest : string) :
  Code.contains (String c EmptyString) (String b rest) = false
  <-> b <> c /\ Code.contains (String c EmptyString) rest = false.
Proof.
  rewrite CodeProps.contains_cons, orb_false_iff. cbn [String.prefix].
  destruct (ascii_dec c b) as [-> | Hne].
  - split; [| intros [H _]; contradiction].
    intros [H _]. destruct rest; discriminate.
  - split; [intros [_ H]; auto | intros [_ H]; auto].
Qed.

Lemma absent_app (c : ascii) (s1 s2 : string) :
  Code.contains (String c EmptyString) s1 = false ->
  Code.contains (String c EmptyString) s2 = false ->
  Code.contains (String c EmptyString) (s1 ++ s2) = false.
Proof.
  intros H1 H2. induction s1 as [| b s1 IH]; [exact H2 |].
  apply absent_head in H1. destruct H1 as [Hb H1].
  cbn [String.append]. apply absent_head. auto.
Qed.

(** A character that is not a decimal digit does not occur in a formatted
    number. *)
Lemma absent_digits (c : ascii) (d : Decimal.uint) :
  Code.contains (String c EmptyString) Code.DIGITS_09 = false ->
  Code.contains (String c EmptyString) (NilEmpty.string_of_uint d) = false.
Proof.
  intros H. unfold Code.DIGITS_09 in H.
  repeat (apply absent_head in H; let N := fresh "N" in destruct H as [N H]).
  induction d; cbn [NilEmpty.string_of_uint];
    [reflexivity | apply absent_head; auto ..].
Qed.

Lemma absent_zeros (c : ascii) (n : nat) :
  "0"%char <> c ->
  Code.contains (String c EmptyString)
                (string_of_list_ascii (repeat "0"%char n)) = false.
Proof.
  intros H. induction n as [| n IH]; [reflexivity |].
  cbn [repeat string_of_list_ascii]. apply absent_head. auto.
Qed.

Lemma absent_format (c : ascii) (n : nat) :
  Code.contains (String c EmptyString) Code.DIGITS_09 = false ->
  Code.contains (String c EmptyString) (format_08d n) = false.
Proof.
  intros H. unfold format_08d, zero_pad. apply absent_app.
  - apply absent_zeros. unfold Code.DIGITS_09 in H.
    apply absent_head in H. tauto.
  - unfold NilZero.string_of_uint.
    destruct (Nat.to_uint n) eqn:E; try (rewrite <- E; apply absent_digits;
                                          exact H).
    unfold Code.DIGITS_09 in H. apply absent_head in H.
    apply absent_head. split; [tauto | reflexivity].
Qed.

(** Two strings that agree after a first separator agree before it. *)
Lemma split_at_separator (c : ascii) (s1 s2 r1 r2 : string) :
  Code.contains (String c EmptyString) s1 = false ->
  Code.contains (String c EmptyString) s2 = false ->
  (s1 ++ String c r1 = s2 ++ String c r2)%string ->
  s1 = s2 /\ r1 = r2.
Proof.
  revert s2. induction s1 as [| a s1 IH]; intros [| b s2] H1 H2 E;
    cbn [String.append] in E.
  - inversion E. auto.
  - inversion E. subst. apply absent_head in H2. tauto.
  - inversion E. subst. apply absent_head in H1. tauto.
  - inversion E. subst. apply absent_head in H1. apply absent_head in H2.
    destruct (IH s2 (proj2 H1) (proj2 H2) H3) as [-> ->]. auto.
Qed.

Lemma read_zeros (n : nat) (s : string) (d : Decimal.uint) :
  NilEmpty.uint_of_string s = Some d ->
  NilEmpty.uint_of_string (string_of_list_ascii (repeat "0"%char n) ++ s)
  = Some (Nat.iter n Decimal.D0 d).
Proof.
  intros H. induction n as [| n IH]; [exact H |].
  cbn [repeat string_of_list_ascii String.append NilEmpty.uint_of_string].
  rewrite IH. reflexivity.
Qed.

Lemma of_uint_zeros (n : nat) (d : Decimal.uint) :
  Nat.of_uint (Nat.iter n Decimal.D0 d) = Nat.of_uint d.
Proof.
  induction n as [| n IH]; [reflexivity |]. cbn [Nat.iter]. exact IH.
Qed.

Lemma read_format (n : nat) : read_decimal (format_08d n) = Some n.
Proof.
  unfold read_decimal, format_08d, zero_pad.
  assert (H : exists d, NilEmpty.uint_of_string
                          (NilZero.string_of_uint (Nat.to_uint n)) = Some d
                        /\ Nat.of_uint d = n).
  { unfold NilZero.string_of_uint.
    destruct (Nat.to_uint n) eqn:E;
      try (rewrite <- E; exists (Nat.to_uint n);
           split; [apply NilEmpty.usu | apply Unsigned.of_to]).
    exists (Decimal.D0 Decimal.Nil). split; [reflexivity |].
    rewrite <- (Unsigned.of_to n), E. reflexivity. }
  destruct H as (d & Hd & Hn).
  rewrite (read_zeros _ _ d Hd). cbn [option_map].
  rewrite of_uint_zeros, Hn. reflexivity.
Qed.

Lemma append_assoc (s1 s2 s3 : string) :
  (s1 ++ (s2 ++ s3) = (s1 ++ s2) ++ s3)%string.
Proof.
  induction s1 as [| a s1 IH]; [reflexivity |].
  cbn [String.append]. now rewrite IH.
Qed.

Lemma length_append (s1 s2 : string) :
  String.length (s1 ++ s2) = String.length s1 + String.length s2.
Proof.
  induction s1 as [| a s1 IH]; [reflexivity |].
  cbn [String.append String.length]. now rewrite IH.
Qed.

Lemma length_zeros (n : nat) :
  String.length (string_of_list_ascii (repeat "0"%char n)) = n.
Proof.
  induction n as [| n IH]; [reflexivity |].
  cbn [repeat string_of_list_ascii String.length]. now rewrite IH.
Qed.

Lemma format_length (n : nat) : 8 <= String.length (format_08d n).
Proof.
  unfold format_08d, zero_pad. rewrite length_append, length_zeros. lia.
Qed.

Lemma sample_name_index (i j : nat) (r1 r2 : string) :
  (format_08d i ++ String "_" r1 = format_08d j ++ String "_" r2)%string ->
  i = j /\ r1 = r2.
Proof.
  intros E.
  destruct (split_at_separator "_" _ _ _ _
              (absent_format "_" i eq_refl) (absent_format "_" j eq_refl) E)
    as [Hf Hr].
  split; [| exact Hr].
  pose proof (read_format i) as Ri. rewrite Hf, read_format in Ri.
  now inversion Ri.
Qed.

Lemma image_path_of_name (i : nat) (c : string) (p : bool) :
  image_path (sample_name i c p)
  = ("./test/" ++ sample_name i c p ++ ".png")%string.
Proof.
  unfold image_path, path_join, sample_name, OUTPUT_DIR.
  pose proof (absent_format "/" i eq_refl) as Ha.
  pose proof (format_length i) as Hl.
  destruct (format_08d i) as [| a rest]; [cbn in Hl; lia |].
  apply absent_head in Ha. destruct Ha as [Hne _].
  cbn [String.append String.prefix].
  destruct (ascii_dec "/" a) as [Heq | _]; [congruence |]. reflexivity.
Qed.

(** X20. The name of a sample file identifies the sample: the index field
    has at least eight digits and reads back as the index, two names are
    equal only for the same index and, the codes holding no underscore, for
    the same code and the same validity.  The file is written to
    "./test/<name>.png". *)
Theorem sample_name_identifies_sample (i : nat) (c : string) (p : bool) :
  read_decimal (format_08d i) = Some i
  /\ 8 <= String.length (format_08d i)
  /\ image_path (sample_name i c p)
     = ("./test/" ++ sample_name i c p ++ ".png")%string
  /\ (forall j c' p',
        sample_name i c p = sample_name j c' p' ->
        i = j
        /\ (Code.contains "_" c = false -> Code.contains "_" c' = false ->
            c = c' /\ p = p')).
Proof.
  split; [apply read_format |]. split; [apply format_length |]. split.
  - apply image_path_of_name.
  - intros j c' p' E. unfold sample_name in E.
    change ("_" ++ c ++ "_" ++ (if p then "1" else "0"))%string
      with (String "_" (c ++ String "_" (if p then "1" else "0")))%string
      in E.
    change ("_" ++ c' ++ "_" ++ (if p' then "1" else "0"))%string
      with (String "_" (c' ++ String "_" (if p' then "1" else "0")))%string
      in E.
    apply sample_name_index in E. destruct E as [-> E].
    split; [reflexivity |]. intros Hc Hc'.
    destruct (split_at_separator "_" _ _ _ _ Hc Hc' E) as [-> Hp].
    split; [reflexivity |]. destruct p, p'; try reflexivity; discriminate.
Qed.

Lemma write_samples_nth (samples : list (matrix * string * bool)) :
  forall i0 k path px,
    nth_error (write_samples i0 samples) k = Some (path, px) ->
    exists im c p,
      nth_error samples k = Some (im, c, p)
      /\ path = image_path (sample_name (i0 + k) c p)
      /\ px = rscal im 255%R.
Proof.
  induction samples as [| [[im c] p] rest IH]; intros i0 k path px H.
  - destruct k; discriminate.
  - destruct k as [| k]; cbn [write_samples nth_error] in H.
    + inversion H. exists im, c, p. rewrite Nat.add_0_r. auto.
    + apply IH in H. destruct H as (im' & c' & p' & H1 & H2 & H3).
      exists im', c', p'. replace (i0 + S k) with (S i0 + k) by lia. auto.
Qed.

Lemma write_samples_length (samples : list (matrix * string * bool)) :
  forall i0, List.length (write_samples i0 samples) = List.length samples.
Proof.
  induction samples as [| [[im c] p] rest IH]; intros i0; [reflexivity |].
  cbn [write_samples List.length]. now rewrite IH.
Qed.

Lemma image_path_index (i j : nat) (c c' : string) (p p' : bool) :
  image_path (sample_name i c p) = image_path (sample_name j c' p') ->
  i = j.
Proof.
  intros E. rewrite !image_path_of_name in E. cbn [String.append] in E.
  inversion E as [E']. unfold sample_name in E'.
  rewrite <- !append_assoc in E'. cbn [String.append] in E'.
  apply sample_name_index in E'. tauto.
Qed.

Lemma rescale_round_trip (m : matrix) :
  rscal (emap (fun x => x / 255)%R m) 255%R = m.
Proof.
  unfold rscal, emap. rewrite map_map.
  rewrite <- (map_id m) at 2. apply map_ext. intros r.
  rewrite map_map. rewrite <- (map_id r) at 2. apply map_ext.
  intros x. field.
Qed.

(** X21. The entry point writes one file per sample, in order: the file of
    position [k] is named after index [k], the code and the validity of
    sample [k] and holds its image times 255; files of different positions
    have different paths, so no sample overwrites another.  For a sample
    made by [generate_im] the pixels written are those of the resized
    composite: the scaling by 255 undoes the division by 255. *)
Theorem write_samples_one_file_per_sample {plate_data : Type}
    (cv : collaborators plate_data) (pd : plate_data) (n : nat) (d : draws)
    (samples : list (matrix * string * bool)) :
  List.length (write_samples 0 samples) = List.length samples
  /\ (forall k path px,
        nth_error (write_samples 0 samples) k = Some (path, px) ->
        exists im c p,
          nth_error samples k = Some (im, c, p)
          /\ path = image_path (sample_name k c p)
          /\ px = rscal im 255%R)
  /\ (forall k1 k2 path px1 px2,
        nth_error (write_samples 0 samples) k1 = Some (path, px1) ->
        nth_error (write_samples 0 samples) k2 = Some (path, px2) ->
        k1 = k2)
  /\ (let bg := generate_bg cv n in
      let plate := fst (generate_plate cv pd) in
      let M := fst (make_affine_transform
                      (float_shape (shape plate)) (float_shape (shape bg))
                      0.6%R 1.1%R 1.2%R 0.9%R 1.2%R d) in
      let dsize := (snd (shape bg), fst (shape bg)) in
      rscal (fst (fst (generate_im cv pd n d))) 255%R
      = resize cv
          (composite (warpAffine cv plate M dsize)
                     (warpAffine cv (ones (shape plate)) M dsize) bg)
          (128, 64)).
Proof.
  split; [apply write_samples_length |]. split; [| split].
  - intros k path px H. apply write_samples_nth in H. exact H.
  - intros k1 k2 path px1 px2 H1 H2.
    apply write_samples_nth in H1. apply write_samples_nth in H2.
    destruct H1 as (im1 & c1 & p1 & _ & E1 & _).
    destruct H2 as (im2 & c2 & p2 & _ & E2 & _).
    rewrite E1 in E2. apply image_path_index in E2. exact E2.
  - cbv zeta. rewrite generate_im_unfold. cbn [fst].
    apply rescale_round_trip.
Qed.
End PlatesProps.
